(** * Mailbox watching and draft replies: a shallow embedding

    The development follows the Python sources of the repository:
    - [zoho_smart_processing.py]  (module [SmartPolling])
    - [zoho_idel.py]              (module [Idle])
    - [zoho_faiss.py]             (module [Faiss])
    - [gmail_auto_reply_with_faiss.py] (module [Gmail])

    Python objects are modelled as records, [set()] as [gset string],
    exceptions and attribute mutation through a small state-and-exception
    monad, and the IMAP server (imaplib, an external collaborator) as an
    oracle record giving the outcome of every call. Python floats are
    idealised as exact rationals ([Q]). *)

From stdpp Require Import gmap strings list.
From Stdlib Require Import Ascii String QArith Qminmax Lqa.

Close Scope Q_scope.
Open Scope string_scope.

(** ** Python conventions *)

Module Py.

(** The exception classes the sources distinguish in [except] clauses. *)
Inductive exn : Type :=
| QueueEmpty        (* queue.Empty *)
| SocketTimeout     (* socket.timeout *)
| Exception.        (* any other subclass of Exception *)

(** A call either returns a value, raises, or never returns because the
    calling thread is blocked (a [put] on a full queue). *)
Inductive outcome (A : Type) : Type :=
| Returns (a : A)
| Raises (e : exn)
| Blocked.
Arguments Returns {A} a.
Arguments Raises {A} e.
Arguments Blocked {A}.

(** Computations over a mutable state [S] that may raise; the state
    changes made before a raise persist, as in Python. *)
Definition M (S A : Type) : Type := S -> S * outcome A.

Definition ret {S A} (a : A) : M S A := fun s => (s, Returns a).

Definition bind {S A B} (m : M S A) (k : A -> M S B) : M S B :=
  fun s =>
    match m s with
    | (s', Returns a) => k a s'
    | (s', Raises e) => (s', Raises e)
    | (s', Blocked) => (s', Blocked)
    end.

Definition raise {S A} (e : exn) : M S A := fun s => (s, Raises e).

(** [try: m  except Exception as e: h e] *)
Definition try_except {S A} (m : M S A) (h : exn -> M S A) : M S A :=
  fun s =>
    match m s with
    | (s', Returns a) => (s', Returns a)
    | (s', Raises e) => h e s'
    | (s', Blocked) => (s', Blocked)
    end.

Definition get {S} : M S S := fun s => (s, Returns s).
Definition modify {S} (f : S -> S) : M S unit := fun s => (f s, Returns tt).

(** An external call whose outcome is given by the environment. *)
Definition call {S A} (o : outcome A) : M S A := fun s => (s, o).

(** [for x in l: body x] *)
Fixpoint for_each {S X} (l : list X) (body : X -> M S unit) : M S unit :=
  match l with
  | [] => ret tt
  | x :: l' => bind (body x) (fun _ => for_each l' body)
  end.

(** Python's two-argument [max] and [min] keep the first argument unless
    the second is strictly greater (resp. smaller). *)
Definition Qltb (x y : Q) : bool := negb (Qle_bool y x).
Definition max (a b : Q) : Q := if Qltb a b then b else a.
Definition min (a b : Q) : Q := if Qltb b a then b else a.

(** [str.isspace] on the ASCII range: TAB, LF, VT, FF, CR, FS, GS, RS,
    US and SPACE. *)
Definition isspace (c : ascii) : bool :=
  let n := nat_of_ascii c in
  (((9 <=? n) && (n <=? 13)) || ((28 <=? n) && (n <=? 32)))%nat.

Fixpoint lstrip (s : string) : string :=
  match s with
  | EmptyString => EmptyString
  | String c s' => if isspace c then lstrip s' else s
  end.

(** [rstrip] drops the trailing run of whitespace. *)
Fixpoint rstrip (s : string) : string :=
  match s with
  | EmptyString => EmptyString
  | String c s' =>
      match rstrip s' with
      | EmptyString => if isspace c then EmptyString else String c EmptyString
      | r => String c r
      end
  end.

Definition strip (s : string) : string := rstrip (lstrip s).

(** Truthiness of a string and of a list. *)
Definition truthy_str (s : string) : bool :=
  match s with EmptyString => false | _ => true end.
Definition truthy_list {A} (l : list A) : bool :=
  match l with [] => false | _ => true end.

(** [queue.Queue(maxsize)]: [put] blocks only when [maxsize > 0] and the
    queue already holds [maxsize] items; otherwise it appends. *)
Record Queue (A : Type) : Type := mkQueue { maxsize : nat; items : list A }.
Arguments mkQueue {A} maxsize items.
Arguments maxsize {A} q.
Arguments items {A} q.

(** [queue.Queue()] : the default [maxsize=0] means no bound. *)
Definition Queue_new {A} : Queue A := mkQueue 0 [].

Inductive put_result (A : Type) : Type :=
| Enqueued (q : Queue A)
| Blocks.
Arguments Enqueued {A} q.
Arguments Blocks {A}.

Definition full {A} (q : Queue A) : bool :=
  ((0 <? maxsize q) && (maxsize q <=? List.length (items q)))%nat.

Definition put {A} (q : Queue A) (x : A) : put_result A :=
  if full q then Blocks
  else Enqueued (mkQueue (maxsize q) (items q ++ [x])).

(** [get(timeout=...)] : the oldest item, or [queue.Empty]. *)
Definition get_item {A} (q : Queue A) : outcome (A * Queue A) :=
  match items q with
  | [] => Raises QueueEmpty
  | x :: rest => Returns (x, mkQueue (maxsize q) rest)
  end.

End Py.

Import Py.

(** The monad is used through stdpp's notations [x ← m; k] and [m;; k]. *)
Global Instance M_ret {S} : MRet (M S) := fun A => @ret S A.
Global Instance M_bind {S} : MBind (M S) := fun A B k m => @bind S A B m k.
Global Typeclasses Opaque M.

(** ** The mail store (imaplib) as seen by the callers *)

Module Imap.

Inductive status : Type := OK | NO.

Definition is_ok (s : status) : bool :=
  match s with OK => true | NO => false end.

(** The fields of a fetched message that the sources read after
    [email.message_from_bytes], [decode_header_value] and [extract_body]. *)
Record parsed : Type := mkParsed {
  p_subject : string;
  p_sender : string;
  p_body : string;
  p_message_id : string }.

(** A reply as built with [MIMEMultipart] before [as_string]. *)
Record mime : Type := mkMime {
  m_from : string;
  m_to : string;
  m_subject : string;
  m_in_reply_to : option string;
  m_references : option string;
  m_text : string }.

(** Commands put on the wire, in order. *)
Inductive op : Type :=
| Connect
| Login
| Select (mailbox : string)
| Search (criteria : string)
| Fetch (message_set : string)
| Append (mailbox : string) (flags : string) (message : mime)
| Idle
| Done
| Close
| Logout.

(** What the server and the library answer during one operation. The
    inner outcome of [fetch] is the parsing of the returned bytes, which
    can raise on its own. *)
Record server : Type := mkServer {
  connect : outcome unit;
  login : outcome unit;
  select : string -> outcome status;
  search : outcome (status * list string);
  fetch : string -> outcome (status * outcome parsed);
  as_string : outcome unit;
  append : string -> outcome status;
  close : outcome unit;
  logout : outcome unit }.

End Imap.

(** ** The process state shared by the methods of a processor object *)

Inductive level : Type := DEBUG | INFO | WARNING | ERROR.

Record world (P : Type) : Type := mkWorld {
  self : P;                       (* the attributes of the object *)
  sessions : nat;                 (* sessions logged in and not logged out *)
  wire : list Imap.op;            (* commands sent so far *)
  logs : list (level * string);   (* records passed to the logger *)
  slept : list Q;                 (* arguments of time.sleep, in seconds *)
  encoded : list string }.        (* texts passed to model.encode *)
Arguments mkWorld {P} self sessions wire logs slept encoded.
Arguments self {P} w.
Arguments sessions {P} w.
Arguments wire {P} w.
Arguments logs {P} w.
Arguments slept {P} w.
Arguments encoded {P} w.

Section WorldOps.
Context {P : Type}.

Definition get_self : M (world P) P := fun w => (w, Returns (self w)).

Definition set_self (f : P -> P) : M (world P) unit :=
  modify (fun w => mkWorld (f (self w)) (sessions w) (wire w) (logs w)
                           (slept w) (encoded w)).

Definition send (o : Imap.op) : M (world P) unit :=
  modify (fun w => mkWorld (self w) (sessions w) (wire w ++ [o]) (logs w)
                           (slept w) (encoded w)).

Definition log (l : level) (msg : string) : M (world P) unit :=
  modify (fun w => mkWorld (self w) (sessions w) (wire w)
                           (logs w ++ [(l, msg)]) (slept w) (encoded w)).

Definition sleep (t : Q) : M (world P) unit :=
  modify (fun w => mkWorld (self w) (sessions w) (wire w) (logs w)
                           (slept w ++ [t]) (encoded w)).

Definition session_opened : M (world P) unit :=
  modify (fun w => mkWorld (self w) (S (sessions w)) (wire w) (logs w)
                           (slept w) (encoded w)).

Definition session_closed : M (world P) unit :=
  modify (fun w => mkWorld (self w) (Nat.pred (sessions w)) (wire w) (logs w)
                           (slept w) (encoded w)).

Definition record_encode (text : string) : M (world P) unit :=
  modify (fun w => mkWorld (self w) (sessions w) (wire w) (logs w)
                           (slept w) (encoded w ++ [text])).

(** [connect_imap] is the same method in every processor class:
    [IMAP4_SSL(...)], [login(...)], and [None] on any exception. *)
Definition connect_imap (srv : Imap.server) : M (world P) (option unit) :=
  try_except
    (send Imap.Connect;;
     call (Imap.connect srv);;
     send Imap.Login;;
     call (Imap.login srv);;
     session_opened;;
     ret (Some tt))
    (fun _ => log ERROR "IMAP connection failed";; ret None).

Definition mail_select (srv : Imap.server) (mailbox : string)
  : M (world P) Imap.status :=
  send (Imap.Select mailbox);; call (Imap.select srv mailbox).

Definition mail_search (srv : Imap.server) (criteria : string)
  : M (world P) (Imap.status * list string) :=
  send (Imap.Search criteria);; call (Imap.search srv).

Definition mail_fetch (srv : Imap.server) (email_id : string)
  : M (world P) (Imap.status * outcome Imap.parsed) :=
  send (Imap.Fetch email_id);; call (Imap.fetch srv email_id).

(** [mail.append(mailbox, flags, date, reply.as_string().encode())]: the
    argument is serialised before the command is sent. *)
Definition mail_append (srv : Imap.server) (mailbox flags : string)
    (reply : Imap.mime) : M (world P) Imap.status :=
  call (Imap.as_string srv);;
  send (Imap.Append mailbox flags reply);;
  call (Imap.append srv mailbox).

Definition mail_close (srv : Imap.server) : M (world P) unit :=
  send Imap.Close;; call (Imap.close srv).

Definition mail_logout (srv : Imap.server) : M (world P) unit :=
  send Imap.Logout;; call (Imap.logout srv);; session_closed.

End WorldOps.

(** The dictionary built for each fetched message (the parsed
    ['email_object'] entry is never read again and is left out). *)
Record email_data : Type := mkEmail {
  id : string;
  subject : string;
  sender : string;
  body : string;
  message_id : string }.

Definition email_of (email_id : string) (m : Imap.parsed) : email_data :=
  mkEmail email_id (Imap.p_subject m) (Imap.p_sender m) (Imap.p_body m)
          (Imap.p_message_id m).

(** ** The reply methods shared by the IMAP processors

    [create_standard_reply] and [save_reply_as_draft] have the same text in
    [zoho_smart_processing.py] and [zoho_idel.py]; [address] reads
    [self.email_address]. *)

Section Reply.
Context {P : Type} (address : P -> string).

(** [create_standard_reply]: the stripped template with the two fields. *)
Definition create_standard_reply (original_email : email_data) : string :=
  "Thank you for your email. I have received your message and will get back to you as soon as possible.

This is an automated response. Please do not reply to this email.

Best regards,
Auto-Reply System

---
Original Message:
Subject: " ++ subject original_email ++ "
From: " ++ sender original_email.

(** The headers set on the reply at the top of [save_reply_as_draft]. *)
Definition build_reply (from : string) (original_email : email_data)
    (reply_body : string) : Imap.mime :=
  let thread :=
    if truthy_str (message_id original_email)
    then Some (message_id original_email) else None in
  Imap.mkMime from (sender original_email)
    ("Re: " ++ subject original_email) thread thread reply_body.

Definition save_reply_as_draft (srv : Imap.server)
    (original_email : email_data) (reply_body : string)
  : M (world P) bool :=
  try_except
    (p ← get_self;
     let reply := build_reply (address p) original_email reply_body in
     mail ← connect_imap srv;
     match mail with
     | None => mret false
     | Some _ =>
         selected ←
           try_except
             (_ ← mail_select srv "Drafts"; mret true)
             (fun _ =>
                try_except
                  (_ ← mail_select srv "DRAFT"; mret true)
                  (fun _ =>
                     log ERROR "Could not find Drafts folder";;
                     mail_close srv;;
                     mail_logout srv;;
                     mret false));
         if selected : bool then
           _ ← mail_append srv "Drafts" "\Draft" reply;
           mail_close srv;;
           mail_logout srv;;
           log INFO ("Draft reply saved for email from "
                     ++ sender original_email);;
           mret true
         else mret false
     end)
    (fun _ => log ERROR "Error saving draft";; mret false).

End Reply.

(** ** zoho_smart_processing.py : [ZohoSmartPollingProcessor] *)

Module SmartPolling.

(** The attributes set by [__init__] (credentials other than the address,
    host names and ports are constants that no method below branches on).
    The queue carries [None] as the shutdown signal. *)
Record processor : Type := mkProcessor {
  email_address : string;
  processed_emails : gset string;
  running : bool;
  last_email_time : Q;
  current_interval : Q;
  min_interval : Q;
  max_interval : Q;
  email_queue : Queue (option email_data) }.

Definition init (address : string) (now : Q) : processor :=
  mkProcessor address ∅ false now 60%Q 10%Q 300%Q Queue_new.

Definition set_processed_emails (v : gset string) (p : processor) :=
  mkProcessor (email_address p) v (running p) (last_email_time p)
    (current_interval p) (min_interval p) (max_interval p) (email_queue p).
Definition set_running (v : bool) (p : processor) :=
  mkProcessor (email_address p) (processed_emails p) v (last_email_time p)
    (current_interval p) (min_interval p) (max_interval p) (email_queue p).
Definition set_last_email_time (v : Q) (p : processor) :=
  mkProcessor (email_address p) (processed_emails p) (running p) v
    (current_interval p) (min_interval p) (max_interval p) (email_queue p).
Definition set_current_interval (v : Q) (p : processor) :=
  mkProcessor (email_address p) (processed_emails p) (running p)
    (last_email_time p) v (min_interval p) (max_interval p) (email_queue p).
Definition set_email_queue (v : Queue (option email_data)) (p : processor) :=
  mkProcessor (email_address p) (processed_emails p) (running p)
    (last_email_time p) (current_interval p) (min_interval p)
    (max_interval p) v.

Definition W : Type := world processor.

Definition save_reply_as_draft
  : Imap.server -> email_data -> string -> M W bool :=
  save_reply_as_draft email_address.

Definition mark_processed (email_id : string) : M W unit :=
  set_self (fun p => set_processed_emails (processed_emails p ∪ {[email_id]}) p).

(** The [for email_id in email_ids] loop of [get_new_emails]; [emails]
    is the local list being built. *)
Fixpoint fetch_loop (srv : Imap.server) (email_ids : list string)
    (emails : list email_data) : M W (list email_data) :=
  match email_ids with
  | [] => mret emails
  | email_id :: rest =>
      p ← get_self;
      if decide (email_id ∈ processed_emails p) then
        fetch_loop srv rest emails                       (* continue *)
      else
        r ← mail_fetch srv email_id;
        if negb (Imap.is_ok r.1) then
          fetch_loop srv rest emails                     (* continue *)
        else
          m ← call r.2;
          mark_processed email_id;;
          log INFO ("Found new email from " ++ Imap.p_sender m ++ ": "
                    ++ Imap.p_subject m);;
          fetch_loop srv rest (emails ++ [email_of email_id m])
  end.

Definition get_new_emails (srv : Imap.server) (since_date : string)
  : M W (list email_data) :=
  mail ← connect_imap srv;
  match mail with
  | None => mret []
  | Some _ =>
      try_except
        (_ ← mail_select srv "INBOX";
         r ← mail_search srv ("(UNSEEN SINCE " ++ since_date ++ ")");
         if negb (Imap.is_ok r.1) then
           log ERROR "Failed to search for emails";;
           mret []
         else
           emails ← fetch_loop srv r.2 [];
           mail_close srv;;
           mail_logout srv;;
           mret emails)
        (fun _ => log ERROR "Error fetching emails";; mret [])
  end.

(** [adjust_polling_interval]; [now] is the value of [datetime.now()],
    in seconds. The factors 0.5 and 1.2 are [1#2] and [6#5]. *)
Definition adjust_polling_interval (now : Q) (found_emails : list email_data)
    (p : processor) : processor :=
  if truthy_list found_emails then
    set_last_email_time now
      (set_current_interval
         (Py.max (min_interval p) (current_interval p * (1 # 2))%Q) p)
  else
    let time_since_last_email := (now - last_email_time p)%Q in
    if Qltb 600%Q time_since_last_email then
      set_current_interval
        (Py.min (max_interval p) (current_interval p * (6 # 5))%Q) p
    else p.


(** [self.email_queue.put(x)] and [self.email_queue.get(timeout=1)]. *)
Definition queue_put (x : option email_data) : M W unit :=
  fun w =>
    match put (email_queue (self w)) x with
    | Enqueued q => set_self (set_email_queue q) w
    | Blocks => (w, Blocked)
    end.

Definition queue_get : M W (option email_data) :=
  fun w =>
    match get_item (email_queue (self w)) with
    | Returns (x, q) => ((set_self (set_email_queue q) w).1, Returns x)
    | Raises e => (w, Raises e)
    | Blocked => (w, Blocked)
    end.

Inductive ctl : Type := Continue | Break.

(** The body of [while self.running:] in [email_processor_worker].
    [fault] stands for an exception raised inside the [try] by code
    outside this model; [task_done] only touches the join counter. *)
Definition email_processor_worker_body (srv : Imap.server)
    (fault : outcome unit) : M W ctl :=
  try_except
    (email_data ← queue_get;
     match email_data with
     | None => mret Break                               (* shutdown signal *)
     | Some e =>
         call fault;;
         let reply_body := create_standard_reply e in
         saved ← save_reply_as_draft srv e reply_body;
         (if saved : bool
          then log INFO ("Successfully processed email: " ++ subject e)
          else log ERROR ("Failed to process email: " ++ subject e));;
         mret Continue
     end)
    (fun ex =>
       match ex with
       | QueueEmpty => mret Continue
       | _ => log ERROR "Error in email processor worker";; mret Continue
       end).

(** The body of [while self.running:] in [smart_polling_loop].
    [processing_time] is [time.time() - start_time]. *)
Definition smart_polling_body (srv : Imap.server) (since_date : string)
    (now processing_time : Q) (fault : outcome unit) : M W unit :=
  try_except
    (new_emails ← get_new_emails srv since_date;
     for_each new_emails (fun email_data => queue_put (Some email_data));;
     set_self (adjust_polling_interval now new_emails);;
     p ← get_self;
     let sleep_time :=
       Py.max 1%Q (current_interval p - processing_time)%Q in
     log DEBUG "Processed emails; sleeping";;
     call fault;;
     sleep sleep_time)
    (fun _ => log ERROR "Error in smart polling loop";; sleep 30%Q).

(** [stop_monitoring] *)
Definition stop_monitoring : M W unit :=
  set_self (set_running false);;
  queue_put None;;
  log INFO "Email monitoring stopped".

(** The two daemon threads started by [start_monitoring]. *)
Inductive thread : Type :=
| Alive      (* at the head of its loop *)
| Exited     (* the thread function returned or died *)
| Stuck.     (* blocked in a call that never returns *)

Record system : Type := mkSystem {
  state : W;
  worker : thread;      (* email_processor_worker *)
  poller : thread }.    (* smart_polling_loop *)

Definition start_monitoring (w : W) : system :=
  mkSystem (set_self (set_running true) w).1 Alive Alive.

(** One scheduling step: an iteration of one of the loops, or the
    external stop signal (KeyboardInterrupt in the main thread).
    The threads interleave at the grain of whole iterations: a stop
    that arrives while an iteration is in progress is seen at the next
    test of the flag, once that iteration is over; the commands such an
    iteration still sends are those of an iteration that started with
    the flag up. *)
Inductive tick : Type :=
| WorkerTick (srv : Imap.server) (fault : outcome unit)
| PollerTick (srv : Imap.server) (since_date : string)
             (now processing_time : Q) (fault : outcome unit)
| StopSignal.

Definition step (sys : system) (t : tick) : system :=
  match t with
  | WorkerTick srv fault =>
      match worker sys with
      | Alive =>
          if negb (running (self (state sys))) then
            mkSystem (state sys) Exited (poller sys)
          else
            match email_processor_worker_body srv fault (state sys) with
            | (w, Returns Continue) => mkSystem w Alive (poller sys)
            | (w, Returns Break) => mkSystem w Exited (poller sys)
            | (w, Raises _) => mkSystem w Exited (poller sys)
            | (w, Blocked) => mkSystem w Stuck (poller sys)
            end
      | _ => sys
      end
  | PollerTick srv since_date now processing_time fault =>
      match poller sys with
      | Alive =>
          if negb (running (self (state sys))) then
            mkSystem (state sys) (worker sys) Exited
          else
            match smart_polling_body srv since_date now processing_time
                    fault (state sys) with
            | (w, Returns _) => mkSystem w (worker sys) Alive
            | (w, Raises _) => mkSystem w (worker sys) Exited
            | (w, Blocked) => mkSystem w (worker sys) Stuck
            end
      | _ => sys
      end
  | StopSignal =>
      mkSystem (stop_monitoring (state sys)).1 (worker sys) (poller sys)
  end.

Definition run (ticks : list tick) (sys : system) : system :=
  fold_left step ticks sys.

(** Successive drains as the polling loop performs them: the messages
    returned by each [get_new_emails] are the ones put on the queue; a
    drain that does not return contributes none. *)
Fixpoint drains (cycles : list (Imap.server * string)) (w : W)
  : W * list email_data :=
  match cycles with
  | [] => (w, [])
  | (srv, since_date) :: rest =>
      match get_new_emails srv since_date w with
      | (w', Returns emails) =>
          let '(w'', later) := drains rest w' in (w'', (emails ++ later)%list)
      | (w', _) => drains rest w'
      end
  end.

End SmartPolling.

(** ** zoho_idel.py : [ZohoEmailIdleProcessor] *)

Module Idle.

Record processor : Type := mkProcessor {
  email_address : string;
  processed_emails : gset string;
  running : bool;
  mail : option unit }.          (* self.mail : the IDLE session, or None *)

Definition init (address : string) : processor :=
  mkProcessor address ∅ false None.

Definition set_processed_emails (v : gset string) (p : processor) :=
  mkProcessor (email_address p) v (running p) (mail p).
Definition set_running (v : bool) (p : processor) :=
  mkProcessor (email_address p) (processed_emails p) v (mail p).
Definition set_mail (v : option unit) (p : processor) :=
  mkProcessor (email_address p) (processed_emails p) (running p) v.

Definition W : Type := world processor.

Definition save_reply_as_draft
  : Imap.server -> email_data -> string -> M W bool :=
  save_reply_as_draft email_address.

Definition process_new_email (srv : Imap.server) (email_id : string)
  : M W unit :=
  try_except
    (r ← mail_fetch srv email_id;
     if negb (Imap.is_ok r.1) then mret tt
     else
       m ← call r.2;
       let email_data := email_of email_id m in
       log INFO ("Processing new email from " ++ sender email_data ++ ": "
                 ++ subject email_data);;
       let reply_body := create_standard_reply email_data in
       _ ← save_reply_as_draft srv email_data reply_body;
       mret tt)
    (fun _ => log ERROR ("Error processing email " ++ email_id)).

Definition mark_processed (email_id : string) : M W unit :=
  set_self (fun p => set_processed_emails (processed_emails p ∪ {[email_id]}) p).

(** The [for email_id in email_ids] loop of [process_recent_emails]. *)
Fixpoint recent_loop (srv : Imap.server) (email_ids : list string)
  : M W unit :=
  match email_ids with
  | [] => mret tt
  | email_id :: rest =>
      p ← get_self;
      (if decide (email_id ∈ processed_emails p) then mret tt
       else
         process_new_email srv email_id;;
         mark_processed email_id);;
      recent_loop srv rest
  end.

Definition process_recent_emails (srv : Imap.server) : M W unit :=
  try_except
    (r ← mail_search srv "UNSEEN";
     if negb (Imap.is_ok r.1) then mret tt
     else recent_loop srv r.2)
    (fun _ => log ERROR "Error processing recent emails").

(** The body of [while self.running:] in [fallback_polling]; [fault]
    stands for an exception raised inside the [try] by code outside this
    model. *)
Definition fallback_polling_body (srv : Imap.server) (fault : outcome unit)
  : M W unit :=
  try_except
    (process_recent_emails srv;;
     call fault;;
     sleep 30%Q)
    (fun _ => log ERROR "Error in polling fallback";; sleep 30%Q).

(** [stop_monitoring], called from the main thread. *)
Definition stop_monitoring (srv : Imap.server) (sent : outcome unit)
  : M W unit :=
  set_self (set_running false);;
  p ← get_self;
  match mail p with
  | Some _ =>
      try_except
        (send Imap.Done;; call sent;; mail_close srv;; mail_logout srv)
        (fun _ => mret tt)
  | None => mret tt
  end.

(** *** [idle_loop] as a transition system

    The loop heads of [idle_loop] and of [fallback_polling] are the
    control points; one step runs from one loop head to the next. *)
Inductive pc : Type :=
| Outer       (* while self.running:             (reconnect loop) *)
| Inner       (* while self.running:             (issue IDLE)     *)
| Waiting     (* while self.running:             (wait for news)  *)
| Fallback    (* while self.running: in fallback_polling          *)
| Finished.   (* idle_loop returned                              *)

(** What the environment answers during one step. [start_monitoring]
    sets [self.running] once, before the thread starts; during a run the
    flag is only ever cleared, by [stop_monitoring]. *)
Record input : Type := mkInput {
  stop : bool;                 (* stop_monitoring ran before this step *)
  srv : Imap.server;
  sent : outcome unit;         (* self.mail.send(...) *)
  idling : outcome bool;       (* readline: b'+ idling' in response.lower() *)
  ready : outcome bool;        (* select.select([sock], [], [], 30) *)
  exists_ : outcome bool;      (* readline: b'EXISTS' in response *)
  completion : outcome unit;   (* readline after DONE *)
  fault : outcome unit }.

Definition outer_segment (i : input) : M W pc :=
  m ← connect_imap (srv i);
  set_self (set_mail m);;
  match m with
  | None =>
      log ERROR "Failed to connect to IMAP server";;
      sleep 30%Q;;
      mret Outer                                          (* continue *)
  | Some _ =>
      _ ← mail_select (srv i) "INBOX";
      log INFO "Starting IMAP IDLE mode - waiting for new emails...";;
      mret Inner
  end.

Definition inner_segment (i : input) : M W pc :=
  send Imap.Idle;;
  call (sent i);;
  response ← call (idling i);
  if response : bool then
    log INFO "IDLE mode activated - monitoring for new emails...";;
    mret Waiting
  else
    log WARNING "IDLE not supported or failed";;
    log INFO "IDLE not supported, falling back to polling every 30 seconds";;
    mret Fallback.                             (* self.fallback_polling() *)

Definition waiting_segment (i : input) : M W pc :=
  try_except
    (r ← call (ready i);
     if r : bool then
       e ← call (exists_ i);
       if e : bool then
         log INFO "New email detected!";;
         send Imap.Done;;
         call (sent i);;
         call (completion i);;
         process_recent_emails (srv i);;
         mret Inner                                       (* break *)
       else mret Waiting
     else
       log DEBUG "IDLE timeout - sending NOOP";;
       send Imap.Done;;
       call (sent i);;
       call (completion i);;
       mret Inner)                                        (* break *)
    (fun ex =>
       match ex with
       | SocketTimeout => log DEBUG "Socket timeout in IDLE";; mret Inner
       | _ => log ERROR "Error in IDLE loop";; mret Inner
       end).

Definition fallback_segment (i : input) : M W pc :=
  fallback_polling_body (srv i) (fault i);;
  mret Fallback.

(** The [except Exception] clause of the outer [try]. *)
Definition reconnect_handler (i : input) : M W pc :=
  log ERROR "Error in IDLE loop";;
  p ← get_self;
  match mail p with
  | Some _ =>
      try_except (mail_close (srv i);; mail_logout (srv i))
                 (fun _ => mret tt)
  | None => mret tt
  end;;
  sleep 30%Q;;
  mret Outer.

(** Everything below the outer [while] runs inside the outer [try]. *)
Definition guarded (i : input) (segment : M W pc) : M W pc :=
  try_except segment (fun _ => reconnect_handler i).

(** A segment that returns gives the next control point. A call that
    never returns, or an exception escaping the handler, ends the run of
    the thread. *)
Definition exec (m : M W pc) (w : W) : pc * W :=
  match m w with
  | (w', Returns next) => (next, w')
  | (w', _) => (Finished, w')
  end.

(** One step of the thread: the segment that starts at the control
    point, after [stop_monitoring] when the stop arrives with this step.
    A stop takes effect at a test of the flag: one that arrives while a
    segment is in progress is seen at the next control point, once that
    segment is over. *)
Definition idle_step (st : pc * W) (i : input) : pc * W :=
  let w := if stop i then (stop_monitoring (srv i) (sent i) st.2).1
           else st.2 in
  let live := running (self w) in
  match st.1 with
  | Outer =>
      if live then exec (guarded i (outer_segment i)) w else (Finished, w)
  | Inner =>
      if live then exec (guarded i (inner_segment i)) w else (Outer, w)
  | Waiting =>
      if live then exec (guarded i (waiting_segment i)) w else (Inner, w)
  | Fallback =>
      if live then exec (guarded i (fallback_segment i)) w else (Outer, w)
  | Finished => (Finished, w)
  end.

Definition idle_run (inputs : list input) (st : pc * W) : pc * W :=
  fold_left idle_step inputs st.

(** [start_monitoring] sets the flag and starts [idle_loop]. *)
Definition start_monitoring (w : W) : pc * W :=
  (Outer, (set_self (set_running true) w).1).

End Idle.

(** ** The FAISS flat L2 index (external library) *)

Module FaissLib.

(** Squared Euclidean distance, the metric of [IndexFlatL2]. *)
Fixpoint l2_sqr (x y : list Q) : Q :=
  match x, y with
  | a :: x', b :: y' => ((a - b) * (a - b) + l2_sqr x' y')%Q
  | _, _ => 0%Q
  end.

(** Scan of the stored rows keeping the first row of least distance. *)
Fixpoint scan (i : nat) (best_i : nat) (best_d : Q) (ds : list Q)
  : Q * nat :=
  match ds with
  | [] => (best_d, best_i)
  | d :: ds' =>
      if Qltb d best_d then scan (S i) i d ds'
      else scan (S i) best_i best_d ds'
  end.

(** [index.search(query, 1)] : the distance and the label of the nearest
    stored row; the label is -1 when the index is empty. *)
Definition search (index : list (list Q)) (query : list Q) : Q * Z :=
  match List.map (l2_sqr query) index with
  | [] => (0%Q, (-1)%Z)
  | d :: ds => let '(best_d, best_i) := scan 1 0 d ds in
               (best_d, Z.of_nat best_i)
  end.

End FaissLib.

(** Python list indexing, negative indices included. *)
Definition getitem {A} (l : list A) (i : Z) : outcome A :=
  let n := Z.of_nat (List.length l) in
  let j := if (i <? 0)%Z then (n + i)%Z else i in
  if ((0 <=? j) && (j <? n))%Z then
    match nth_error l (Z.to_nat j) with
    | Some x => Returns x
    | None => Raises Exception
    end
  else Raises Exception.

(** ** zoho_faiss.py : [ZohoEmailProcessor] *)

Module Faiss.

Definition EMAIL_TEMPLATES : list string := [
"
Thank you for your email regarding

We will schedule a meeting at your earliest convenience to discuss this further.

Best regards,
[Your Name]
    ";
"
Thank you for reaching out with your support inquiry. We have received your request and will respond within 24-48 hours.

Best regards,
[Your Name]
    ";
"
Thank you for your email. I'll get back to you soon with more details.

Best regards,
[Your Name]
    " ].

Record processor : Type := mkProcessor {
  email_address : string;
  processed_emails : gset string }.

Definition W : Type := world processor.

Section Model.
(** [model.encode] on one text: the sentence embedding. *)
Variable encode : string -> list Q.

(** [initialize_faiss_index(EMAIL_TEMPLATES)], run once at import. *)
Definition faiss_index : list (list Q) := List.map encode EMAIL_TEMPLATES.

Definition model_encode (text : string) : M W (list Q) :=
  record_encode text;; mret (encode text).

Definition select_template (email_body : string) : M W string :=
  if negb (truthy_str (strip email_body)) then
    log WARNING "Email body is empty, selecting default template";;
    call (getitem EMAIL_TEMPLATES 2)
  else
    thread_embedding ← model_encode email_body;
    let '(distance, best_template_idx) :=
      FaissLib.search faiss_index thread_embedding in
    log INFO "Selected template index";;
    call (getitem EMAIL_TEMPLATES best_template_idx).

Definition create_standard_reply (original_email : email_data)
  : M W string :=
  reply_template ← select_template (body original_email);
  mret (reply_template ++ "

---
Original Message:
Subject: " ++ subject original_email ++ "
From: " ++ sender original_email).

End Model.

(** [save_reply_as_draft] of this file: when neither folder can be
    selected it returns without [close] and [logout]. *)
Definition save_reply_as_draft (srv : Imap.server)
    (original_email : email_data) (reply_body : string) : M W bool :=
  try_except
    (p ← get_self;
     let reply := build_reply (email_address p) original_email reply_body in
     mail ← connect_imap srv;
     match mail with
     | None => mret false
     | Some _ =>
         selected ←
           try_except
             (_ ← mail_select srv "Drafts"; mret true)
             (fun _ =>
                try_except
                  (_ ← mail_select srv "DRAFT"; mret true)
                  (fun _ =>
                     log ERROR "Could not find Drafts folder";;
                     mret false));
         if selected : bool then
           _ ← mail_append srv "Drafts" "\Draft" reply;
           mail_close srv;;
           mail_logout srv;;
           log INFO ("Draft reply saved for email from "
                     ++ sender original_email);;
           mret true
         else mret false
     end)
    (fun _ => log ERROR "Error saving draft";; mret false).

Definition mark_processed (email_id : string) : M W unit :=
  set_self (fun p => mkProcessor (email_address p)
                       (processed_emails p ∪ {[email_id]})).

(** The [for email_id in email_ids] loop of [get_unread_emails]. *)
Fixpoint unread_loop (srv : Imap.server) (email_ids : list string)
    (emails : list email_data) : M W (list email_data) :=
  match email_ids with
  | [] => mret emails
  | email_id :: rest =>
      p ← get_self;
      if decide (email_id ∈ processed_emails p) then
        unread_loop srv rest emails                      (* continue *)
      else
        r ← mail_fetch srv email_id;
        if negb (Imap.is_ok r.1) then
          unread_loop srv rest emails                    (* continue *)
        else
          m ← call r.2;
          mark_processed email_id;;
          log INFO ("Found new email from " ++ Imap.p_sender m ++ ": "
                    ++ Imap.p_subject m);;
          unread_loop srv rest (emails ++ [email_of email_id m])
  end.

Definition get_unread_emails (srv : Imap.server) : M W (list email_data) :=
  mail ← connect_imap srv;
  match mail with
  | None => mret []
  | Some _ =>
      try_except
        (_ ← mail_select srv "INBOX";
         r ← mail_search srv "UNSEEN";
         if negb (Imap.is_ok r.1) then
           log ERROR "Failed to search for emails";;
           mret []
         else
           emails ← unread_loop srv r.2 [];
           mail_close srv;;
           mail_logout srv;;
           mret emails)
        (fun _ => log ERROR "Error fetching emails";; mret [])
  end.

Section Loop.
Variable encode : string -> list Q.

(** The body of [for email_data in emails] in [process_emails]. *)
Definition process_one (srv : Imap.server) (email_data : email_data)
  : M W unit :=
  log INFO ("Processing email from " ++ sender email_data);;
  reply_body ← create_standard_reply encode email_data;
  saved ← save_reply_as_draft srv email_data reply_body;
  if saved : bool
  then log INFO ("Successfully processed email: " ++ subject email_data)
  else log ERROR ("Failed to process email: " ++ subject email_data).

Definition process_emails (srv : Imap.server) : M W unit :=
  log INFO "Checking for new emails...";;
  emails ← get_unread_emails srv;
  if negb (truthy_list emails) then
    log INFO "No new emails found"                      (* return *)
  else
    for_each emails (process_one srv).

(** The body of [while True:] in [run_continuous]; [fault] stands for
    an exception raised inside the [try] by code outside this model.
    A KeyboardInterrupt is the end of the run. *)
Definition run_continuous_body (check_interval : Q) (srv : Imap.server)
    (fault : outcome unit) : M W unit :=
  try_except
    (process_emails srv;;
     log INFO "Waiting before next check...";;
     call fault;;
     sleep check_interval)
    (fun _ => log ERROR "Unexpected error";; sleep 30%Q).

(** [run_continuous] over the iterations that start before the
    interrupt, each with what the environment answers in it. *)
Fixpoint run_continuous_loop (check_interval : Q)
    (cycles : list (Imap.server * outcome unit)) : M W unit :=
  match cycles with
  | [] => mret tt
  | (srv, fault) :: rest =>
      run_continuous_body check_interval srv fault;;
      run_continuous_loop check_interval rest
  end.


End Loop.

End Faiss.

(** ** gmail_auto_reply_with_faiss.py *)

Module Gmail.

Definition EMAIL_TEMPLATES : list string := [
"
Dear {sender_name},

Thank you for your email regarding

We will schedule a meeting at your earliest convenience to discuss this further.

Best regards,
[Your Name]
    ";
"
Dear {sender_name},

Thank you for reaching out with your support inquiry. We have received your request and will respond within 24-48 hours.

Best regards,
[Your Name]
    ";
"
Dear {sender_name},

Thank you for your email. I'll get back to you soon with more details.

Best regards,
[Your Email]
    " ].

(** [re.sub(r'{sender_name}', '', template)] : every occurrence of the
    literal is removed; [skip] counts the characters of a match still to
    be dropped. *)
Fixpoint remove_literal (pat : string) (skip : nat) (s : string) : string :=
  match s with
  | EmptyString => EmptyString
  | String c s' =>
      match skip with
      | S k => remove_literal pat k s'
      | O =>
          if String.prefix pat s && negb (String.eqb pat "")
          then remove_literal pat (String.length pat - 1) s'
          else String c (remove_literal pat 0 s')
      end
  end.

Definition clean_templates : list string :=
  List.map (remove_literal "{sender_name}" 0) EMAIL_TEMPLATES.

(** The module has no object state. *)
Definition W : Type := world unit.

Section Model.
Variable encode : string -> list Q.

Definition faiss_index : list (list Q) := List.map encode clean_templates.

Definition model_encode (text : string) : M W (list Q) :=
  record_encode text;; mret (encode text).

Definition select_template (thread_content : string) : M W string :=
  thread_embedding ← model_encode thread_content;
  let '(distances, best_template_idx) :=
    FaissLib.search faiss_index thread_embedding in
  call (getitem EMAIL_TEMPLATES best_template_idx).

End Model.

End Gmail.

(** * Vocabulary of the statements

    Relations between states, predicates on runs and the sample servers
    used by the examples. *)

(** [respects R m]: whatever the outcome, running [m] moves the state
    along [R]. *)
Definition respects {S A : Type} (R : relation S) (m : M S A) : Prop :=
  forall s, R s (m s).1.

(** [no_raise m]: no exception escapes [m]. *)
Definition no_raise {S A : Type} (m : M S A) : Prop :=
  forall s e, (m s).2 <> Raises e.

(** The object attributes are unchanged. *)
Definition same_self {P : Type} : relation (world P) :=
  fun w w' => self w' = self w.

(** The processed set of the polling processor. *)
Definition processed (w : SmartPolling.W) : gset string :=
  SmartPolling.processed_emails (self w).

(** Refs are only ever added to the processed set. *)
Definition processed_grows : relation SmartPolling.W :=
  fun w w' => (processed w) ⊆ (processed w').

(** The messages [new] were all admitted for the first time between [w]
    and [w']: distinct ids, unknown before, recorded after. *)
Definition fresh_batch (w w' : SmartPolling.W) (new : list email_data) : Prop :=
  NoDup (id <$> new) /\
  forall e, e ∈ new -> (id e ∉ processed w) /\ (id e ∈ processed w').

(** The state after the FETCH of a ref was sent, and after the ref was
    admitted. *)
Definition after_fetch (email_id : string) (w : SmartPolling.W)
  : SmartPolling.W :=
  mkWorld (self w) (sessions w) (wire w ++ [Imap.Fetch email_id]) (logs w)
          (slept w) (encoded w).

Definition after_admit (email_id : string) (m : Imap.parsed)
    (w : SmartPolling.W) : SmartPolling.W :=
  mkWorld
    (SmartPolling.set_processed_emails (processed w ∪ {[email_id]}) (self w))
    (sessions w) (wire w ++ [Imap.Fetch email_id])
    (logs w ++ [(INFO, "Found new email from " ++ Imap.p_sender m ++ ": "
                         ++ Imap.p_subject m)])
    (slept w) (encoded w).

(** A fresh polling processor in an empty world. *)
Definition fresh_world (address : string) (now : Q) : SmartPolling.W :=
  mkWorld (SmartPolling.init address now) 0 [] [] [] [].

(** A server that answers every command, with the given search result and
    fetch answers. *)
Definition answering (found : Imap.status * list string)
    (fetch : string -> outcome (Imap.status * outcome Imap.parsed))
  : Imap.server :=
  Imap.mkServer (Returns tt) (Returns tt) (fun _ => Returns Imap.OK)
    (Returns found) fetch (Returns tt) (fun _ => Returns Imap.OK)
    (Returns tt) (Returns tt).

(** The message of the end-to-end scenario. *)
Definition hello : Imap.parsed :=
  Imap.mkParsed "Need help" "a@b.com" "support issue with login" "<42@b.com>".

(** Every ref of [pre] is either already known, or answered NO, or fetched
    and parsed: the loop gets through [pre] without raising. *)
Definition passes (srv : Imap.server) (w : SmartPolling.W)
    (email_id : string) : Prop :=
  email_id ∈ processed w \/
  (exists parse, Imap.fetch srv email_id = Returns (Imap.NO, parse)) \/
  (exists m, Imap.fetch srv email_id = Returns (Imap.OK, Returns m)).

(** The fetch of [email_id] raises, in the command or in the parsing. *)
Definition fetch_raises (srv : Imap.server) (email_id : string) : Prop :=
  (exists e, Imap.fetch srv email_id = Raises e) \/
  (exists e, Imap.fetch srv email_id = Returns (Imap.OK, Raises e)).

(** The commands added between two states all satisfy [ok]. *)
Definition wire_adds {P : Type} (ok : Imap.op -> Prop) : relation (world P) :=
  fun w w' => exists t, wire w' = (wire w ++ t)%list /\ Forall ok t.

(** The only mailbox a draft is appended to. *)
Definition append_to_Drafts (o : Imap.op) : Prop :=
  match o with
  | Imap.Append mailbox _ _ => mailbox = "Drafts"
  | _ => True
  end.

(** A server on which "Drafts" cannot be selected but "DRAFT" can. *)
Definition only_DRAFT : Imap.server :=
  Imap.mkServer (Returns tt) (Returns tt)
    (fun mailbox => if String.eqb mailbox "Drafts" then Raises Exception
                    else Returns Imap.OK)
    (Returns (Imap.OK, [])) (fun _ => Raises Exception) (Returns tt)
    (fun _ => Returns Imap.OK) (Returns tt) (Returns tt).

(** A server on which "Drafts" does not exist and SELECT answers NO, as
    imaplib reports a missing mailbox, instead of raising. *)
Definition Drafts_answers_NO : Imap.server :=
  Imap.mkServer (Returns tt) (Returns tt)
    (fun mailbox => if String.eqb mailbox "Drafts" then Returns Imap.NO
                    else Returns Imap.OK)
    (Returns (Imap.OK, [])) (fun _ => Raises Exception) (Returns tt)
    (fun _ => Returns Imap.NO) (Returns tt) (Returns tt).

(** A server on which neither folder can be selected. *)
Definition no_drafts_folder : Imap.server :=
  Imap.mkServer (Returns tt) (Returns tt)
    (fun mailbox => if String.eqb mailbox "INBOX" then Returns Imap.OK
                    else Raises Exception)
    (Returns (Imap.OK, [])) (fun _ => Raises Exception) (Returns tt)
    (fun _ => Returns Imap.OK) (Returns tt) (Returns tt).

(** The work queue of the polling processor. *)
Definition queue_of (w : SmartPolling.W) : Queue (option email_data) :=
  SmartPolling.email_queue (self w).

(** The flag and the queue are untouched. *)
Definition keeps_queue : relation SmartPolling.W :=
  fun w w' =>
    SmartPolling.running (self w') = SmartPolling.running (self w) /\
    queue_of w' = queue_of w.

(** [preserves I]: the property [I] of the state is kept. *)
Definition preserves {S : Type} (I : S -> Prop) : relation S :=
  fun s s' => I s -> I s'.

(** The queue is the unbounded one built by [__init__]. *)
Definition unbounded (w : SmartPolling.W) : Prop := maxsize (queue_of w) = 0.

(** The flag is set, and no shutdown signal is in the queue. *)
Definition live (w : SmartPolling.W) : Prop :=
  SmartPolling.running (self w) = true /\
  unbounded w /\
  Forall is_Some (items (queue_of w)).

(** [returns_in Q m]: when [m] returns, its value satisfies [Q]. *)
Definition returns_in {S A : Type} (Q : A -> Prop) (m : M S A) : Prop :=
  forall s a, (m s).2 = Returns a -> Q a.

(** Both threads are still in their loops (possibly inside a call that has
    not returned). *)
Definition both_in_loop (sys : SmartPolling.system) : Prop :=
  SmartPolling.worker sys <> SmartPolling.Exited /\
  SmartPolling.poller sys <> SmartPolling.Exited.

(** The state of the world after the worker took the head of the queue. *)
Definition after_get (w : SmartPolling.W) : SmartPolling.W :=
  match SmartPolling.queue_get w with (w', _) => w' end.

(** A server on which everything succeeds except that APPEND is answered
    NO. *)
Definition append_refused : Imap.server :=
  Imap.mkServer (Returns tt) (Returns tt) (fun _ => Returns Imap.OK)
    (Returns (Imap.OK, ["42"]))
    (fun _ => Returns (Imap.OK, Returns hello)) (Returns tt)
    (fun _ => Returns Imap.NO) (Returns tt) (Returns tt).

(** Any command but IDLE. *)
Definition not_idle (o : Imap.op) : Prop := o <> Imap.Idle.

(** No IDLE command is sent, and the flag is not set again. *)
Definition quiet : relation Idle.W :=
  fun w w' =>
    wire_adds not_idle w w' /\
    (Idle.running (self w') = true -> Idle.running (self w) = true).

(** Where the loop can be once it has fallen back to polling. *)
Definition in_fallback (st : Idle.pc * Idle.W) : Prop :=
  st.1 = Idle.Fallback \/
  st.1 = Idle.Finished \/
  (st.1 = Idle.Outer /\ Idle.running (self st.2) = false).

(** The text is empty or made of whitespace only. *)
Fixpoint whitespace_only (s : string) : bool :=
  match s with
  | EmptyString => true
  | String c s' => isspace c && whitespace_only s'
  end.

(** The squared distance between the embeddings of two texts. *)
Definition distance (encode : string -> list Q) (text template : string) : Q :=
  FaissLib.l2_sqr (encode text) (encode template).

(** An embedding that puts the empty text on the first template. *)
Definition keyed_encode (text : string) : list Q :=
  if String.eqb text "" then [0%Q]
  else if String.prefix "
Thank you for your email regarding" text then [0%Q]
  else if String.prefix "
Dear ,

Thank you for your email regarding" text then [0%Q]
  else [1%Q].

(** In zoho_idel.py a message is handed to the reply pipeline by
    [process_new_email], whose first command is the FETCH of its ref. *)
Definition is_fetch_of (email_id : string) (o : Imap.op) : bool :=
  match o with
  | Imap.Fetch x => String.eqb email_id x
  | _ => false
  end.

(** How many times the ref was fetched in a run of commands. *)
Definition fetches (email_id : string) (t : list Imap.op) : nat :=
  List.length (List.filter (is_fetch_of email_id) t).

(** Any command but FETCH. *)
Definition not_fetch (o : Imap.op) : Prop :=
  forall email_id, is_fetch_of email_id o = false.

(** Only non-FETCH commands are sent and the attributes are unchanged. *)
Definition calm : relation Idle.W :=
  fun w w' => wire_adds not_fetch w w' /\ same_self w w'.

(** The state after [process_new_email] sent its FETCH. *)
Definition idle_after_fetch (email_id : string) (w : Idle.W) : Idle.W :=
  mkWorld (self w) (sessions w) (wire w ++ [Imap.Fetch email_id]) (logs w)
          (slept w) (encoded w).

(** The processed set of the IDLE processor. *)
Definition idle_processed (w : Idle.W) : gset string :=
  Idle.processed_emails (self w).

(** The call came back with a value. *)
Definition returned {A} (o : outcome A) : bool :=
  match o with Returns _ => true | _ => false end.

(** Between [w] and [w'] the ref [x] was dispatched at most once, not at
    all if it was already known, and if it was dispatched and the run came
    back ([finished]) it is known afterwards. *)
Definition dispatch_once (x : string) (finished : bool) (w w' : Idle.W)
  : Prop :=
  idle_processed w ⊆ idle_processed w' /\
  exists t,
    wire w' = (wire w ++ t)%list /\
    fetches x t <= 1 /\
    (x ∈ idle_processed w -> fetches x t = 0) /\
    (finished = true -> fetches x t = 1 -> x ∈ idle_processed w').

(** Successive runs of [process_recent_emails], as the fallback loop and
    the IDLE loop perform them on one thread. *)
Fixpoint polls (cycles : list Imap.server) : M Idle.W unit :=
  match cycles with
  | [] => mret tt
  | srv :: rest => Idle.process_recent_emails srv;; polls rest
  end.

(** Only the network side changes: the attributes, the sleeps and the
    model calls are as before. *)
Definition io_only {P : Type} : relation (world P) :=
  fun w w' =>
    self w' = self w /\ slept w' = slept w /\ encoded w' = encoded w.

(** As [io_only], except that refs may have been added to the processed
    set of the polling processor. *)
Definition drain_frame : relation SmartPolling.W :=
  fun w w' =>
    SmartPolling.set_processed_emails ∅ (self w')
      = SmartPolling.set_processed_emails ∅ (self w) /\
    slept w' = slept w /\ encoded w' = encoded w.

(** The bounds are the ones set by [__init__] and the interval lies
    between them. *)
Definition interval_in_bounds (w : SmartPolling.W) : Prop :=
  (SmartPolling.min_interval (self w) == 10)%Q /\
  (SmartPolling.max_interval (self w) == 300)%Q /\
  (10 <= SmartPolling.current_interval (self w))%Q /\
  (SmartPolling.current_interval (self w) <= 300)%Q.

(** The three interval attributes are unchanged. *)
Definition same_intervals : relation SmartPolling.W :=
  fun w w' =>
    SmartPolling.current_interval (self w') = SmartPolling.current_interval (self w) /\
    SmartPolling.min_interval (self w') = SmartPolling.min_interval (self w) /\
    SmartPolling.max_interval (self w') = SmartPolling.max_interval (self w).

(** The flag is down, nothing more went on the wire, no ref was recorded,
    and what was queued in [w] is still queued, in the same places. *)
Definition halted (w w' : SmartPolling.W) : Prop :=
  SmartPolling.running (self w') = false /\
  wire w' = wire w /\
  processed w' = processed w /\
  items (queue_of w) `prefix_of` items (queue_of w').

(** [m] never hangs: it returns or raises. *)
Definition never_hangs {S A : Type} (m : M S A) : Prop :=
  forall s, (m s).2 <> Blocked.

(** Every command gets an answer from the server, and every message it
    hands out can be parsed or is rejected by the parser. *)
Definition responsive (srv : Imap.server) : Prop :=
  Imap.connect srv <> Blocked /\
  Imap.login srv <> Blocked /\
  (forall mailbox, Imap.select srv mailbox <> Blocked) /\
  Imap.search srv <> Blocked /\
  (forall email_id,
     Imap.fetch srv email_id <> Blocked /\
     forall st, Imap.fetch srv email_id <> Returns (st, Blocked)) /\
  Imap.as_string srv <> Blocked /\
  (forall mailbox, Imap.append srv mailbox <> Blocked) /\
  Imap.close srv <> Blocked /\
  Imap.logout srv <> Blocked.

(** An iteration of one of the loops in which every call is answered. *)
Definition answered (t : SmartPolling.tick) : Prop :=
  match t with
  | SmartPolling.WorkerTick srv fault => responsive srv /\ fault <> Blocked
  | SmartPolling.PollerTick srv _ _ _ fault =>
      responsive srv /\ fault <> Blocked
  | SmartPolling.StopSignal => False
  end.

Definition both_alive (sys : SmartPolling.system) : Prop :=
  SmartPolling.worker sys = SmartPolling.Alive /\
  SmartPolling.poller sys = SmartPolling.Alive.

(** Where the loop is one loop head after [pc] once the flag is down. *)
Definition unwind (pc : Idle.pc) : Idle.pc :=
  match pc with
  | Idle.Waiting => Idle.Inner
  | Idle.Inner => Idle.Outer
  | Idle.Fallback => Idle.Outer
  | Idle.Outer => Idle.Finished
  | Idle.Finished => Idle.Finished
  end.

(** The commands [stop_monitoring] sends to leave IDLE and log out. *)
Definition teardown (o : Imap.op) : Prop :=
  o = Imap.Done \/ o = Imap.Close \/ o = Imap.Logout.

(** Only teardown commands are sent, no ref is recorded, and the flag is
    down afterwards. *)
Definition winding_down : relation Idle.W :=
  fun w w' =>
    wire_adds teardown w w' /\
    Idle.processed_emails (self w') = Idle.processed_emails (self w) /\
    (Idle.running (self w) = false -> Idle.running (self w') = false).

(** A step in which the stop signal is not given and every call is
    answered, by a value or by an exception. *)
Definition answered_input (i : Idle.input) : Prop :=
  Idle.stop i = false /\
  responsive (Idle.srv i) /\
  Idle.sent i <> Blocked /\
  Idle.idling i <> Blocked /\
  Idle.ready i <> Blocked /\
  Idle.exists_ i <> Blocked /\
  Idle.completion i <> Blocked /\
  Idle.fault i <> Blocked.

(** The flag is as before. *)
Definition same_flag : relation Idle.W :=
  fun w w' => Idle.running (self w') = Idle.running (self w).

Definition is_append (o : Imap.op) : bool :=
  match o with
  | Imap.Append _ _ _ => true
  | _ => false
  end.

(** How many APPEND commands a run of commands holds. *)
Definition appends (t : list Imap.op) : nat :=
  List.length (List.filter is_append t).

(** Any command but APPEND. *)
Definition not_append (o : Imap.op) : Prop := is_append o = false.

(** If the command is an APPEND, it is the one that stores the reply
    [reply] in "Drafts". *)
Definition stores (reply : Imap.mime) (o : Imap.op) : Prop :=
  is_append o = true -> o = Imap.Append "Drafts" "\Draft" reply.

(** The messages waiting in the queue, oldest first. *)
Definition pending_messages (w : SmartPolling.W) : list email_data :=
  omap (fun x => x) (items (queue_of w)).

(** The message [queue.get] would hand to the worker, if any. *)
Definition head_message (w : SmartPolling.W) : list email_data :=
  match items (queue_of w) with
  | Some e :: _ => [e]
  | _ => []
  end.

(** The message a step takes from the queue: the head of the queue when
    the step is an iteration of the worker that passes the test of the
    flag. *)
Definition taken_by (sys : SmartPolling.system) (t : SmartPolling.tick)
  : list email_data :=
  match t with
  | SmartPolling.WorkerTick _ _ =>
      match SmartPolling.worker sys with
      | SmartPolling.Alive =>
          if SmartPolling.running (self (SmartPolling.state sys))
          then head_message (SmartPolling.state sys)
          else []
      | _ => []
      end
  | _ => []
  end.

(** The messages taken from the queue in the course of a run. *)
Fixpoint taken (ticks : list SmartPolling.tick) (sys : SmartPolling.system)
  : list email_data :=
  match ticks with
  | [] => []
  | t :: rest => (taken_by sys t ++ taken rest (SmartPolling.step sys t))%list
  end.

(** The queue has no bound; the messages taken so far and those waiting
    have pairwise distinct refs, all of them recorded. *)
Definition each_ref_once (prev : list email_data) (w : SmartPolling.W)
  : Prop :=
  unbounded w /\
  NoDup (id <$> (prev ++ pending_messages w)%list) /\
  forall e, e ∈ (prev ++ pending_messages w)%list -> id e ∈ processed w.

(** The text a reply ends with. *)
Definition reply_footer (e : email_data) : string :=
  "

---
Original Message:
Subject: " ++ subject e ++ "
From: " ++ sender e.

(** The bodies the model is asked to embed: those with something else
    than white space in them. *)
Definition embedded_bodies (emails : list email_data) : list string :=
  List.filter (fun b => negb (whitespace_only b)) (body <$> emails).

(** The text is made of ASCII characters only. On such a text [strip]
    removes what Python's [str.strip()] removes. *)
Fixpoint ascii_text (s : string) : bool :=
  match s with
  | EmptyString => true
  | String c s' => (nat_of_ascii c <? 128)%nat && ascii_text s'
  end.

(** The sleeps are as before. *)
Definition same_slept {P : Type} : relation (world P) :=
  fun w w' => slept w' = slept w.

(** Neither the sleeps nor the model calls change. *)
Definition model_idle {P : Type} : relation (world P) :=
  fun w w' => slept w' = slept w /\ encoded w' = encoded w.

(** The processed set of the FAISS processor. *)
Definition faiss_processed (w : Faiss.W) : gset string :=
  Faiss.processed_emails (self w).

(** The state after the FETCH of a ref was sent, and after the ref was
    recorded. *)
Definition faiss_after_fetch (email_id : string) (w : Faiss.W) : Faiss.W :=
  mkWorld (self w) (sessions w) (wire w ++ [Imap.Fetch email_id]) (logs w)
          (slept w) (encoded w).

Definition faiss_after_admit (email_id : string) (m : Imap.parsed)
    (w : Faiss.W) : Faiss.W :=
  mkWorld
    (Faiss.mkProcessor (Faiss.email_address (self w))
       (faiss_processed w ∪ {[email_id]}))
    (sessions w) (wire w ++ [Imap.Fetch email_id])
    (logs w ++ [(INFO, "Found new email from " ++ Imap.p_sender m ++ ": "
                         ++ Imap.p_subject m)])
    (slept w) (encoded w).

(** The messages [new] were all recorded for the first time between [w]
    and [w']: distinct refs, unknown before, recorded after. *)
Definition faiss_fresh (w w' : Faiss.W) (new : list email_data) : Prop :=
  NoDup (id <$> new) /\
  forall e, e ∈ new -> (id e ∉ faiss_processed w) /\
                       (id e ∈ faiss_processed w').

(** The messages that [process_emails] gets from [get_unread_emails] in
    the course of the iterations of [run_continuous]. *)
Fixpoint faiss_handled (encode : string -> list Q) (check_interval : Q)
    (cycles : list (Imap.server * outcome unit)) (w : Faiss.W)
  : list email_data :=
  match cycles with
  | [] => []
  | (srv, fault) :: rest =>
      let batch :=
        match (Faiss.get_unread_emails srv
                 (log INFO "Checking for new emails..." w).1).2 with
        | Returns emails => emails
        | _ => []
        end in
      match Faiss.run_continuous_body encode check_interval srv fault w with
      | (w', Returns _) =>
          (batch ++ faiss_handled encode check_interval rest w')%list
      | _ => batch
      end
  end.

(** The address the processor replies from. *)
Definition faiss_address (w : Faiss.W) : string :=
  Faiss.email_address (self w).

Definition same_address : relation Faiss.W :=
  fun w w' => faiss_address w' = faiss_address w.

(** [os] holds, in order, one APPEND for each message of [es], storing
    in "Drafts" the reply built for that message from one of the
    templates. *)
Definition faiss_drafts (address : string) (os : list Imap.op)
    (es : list email_data) : Prop :=
  Forall2 (fun o e =>
             exists template,
               template ∈ Faiss.EMAIL_TEMPLATES /\
               o = Imap.Append "Drafts" "\Draft"
                     (build_reply address e (template ++ reply_footer e)))
          os es.

(** The APPENDs among the commands [tr] are drafts for some of the
    messages [es], in their order and one for each at most. *)
Definition drafted_in (address : string) (tr : list Imap.op)
    (es : list email_data) : Prop :=
  exists drafted,
    drafted `sublist_of` es /\
    faiss_drafts address (List.filter is_append tr) drafted.

(** The processor after the adjustments of successive polls, each with
    the clock reading and the batch found. *)
Definition adjustments (polls : list (Q * list email_data))
    (p : SmartPolling.processor) : SmartPolling.processor :=
  fold_left (fun p c => SmartPolling.adjust_polling_interval c.1 c.2 p)
            polls p.

(** * Properties *)

(** ** Comparisons on rationals *)

Lemma Qltb_true (x y : Q) : Qltb x y = true <-> (x < y)%Q.
Proof.
  unfold Qltb. rewrite negb_true_iff. split.
  - intros H. apply Qnot_le_lt. intros Hle.
    apply Qle_bool_iff in Hle. congruence.
  - intros H. destruct (Qle_bool y x) eqn:E; [|reflexivity].
    apply Qle_bool_iff in E. exfalso. apply (Qlt_not_le _ _ H E).
Qed.

Lemma Qltb_false (x y : Q) : Qltb x y = false <-> (y <= x)%Q.
Proof.
  unfold Qltb. rewrite negb_false_iff. apply Qle_bool_iff.
Qed.

Lemma py_max_Qmax (a b : Q) : (Py.max a b == Qmax a b)%Q.
Proof.
  unfold Py.max. destruct (Qltb a b) eqn:E.
  - apply Qltb_true in E. symmetry. apply Q.max_r. apply Qlt_le_weak, E.
  - apply Qltb_false in E. symmetry. apply Q.max_l, E.
Qed.

Lemma py_min_Qmin (a b : Q) : (Py.min a b == Qmin a b)%Q.
Proof.
  unfold Py.min. destruct (Qltb b a) eqn:E.
  - apply Qltb_true in E. symmetry. apply Q.min_r. apply Qlt_le_weak, E.
  - apply Qltb_false in E. symmetry. apply Q.min_l, E.
Qed.

Lemma py_max_bounds (lo hi x : Q) :
  (lo <= hi)%Q -> (x <= hi)%Q ->
  (lo <= Py.max lo x)%Q /\ (Py.max lo x <= hi)%Q.
Proof.
  intros Hlh Hx. unfold Py.max. destruct (Qltb lo x) eqn:E.
  - apply Qltb_true in E. split; [apply Qlt_le_weak, E | exact Hx].
  - split; [apply Qle_refl | exact Hlh].
Qed.

Lemma py_min_bounds (lo hi x : Q) :
  (lo <= hi)%Q -> (lo <= x)%Q ->
  (lo <= Py.min hi x)%Q /\ (Py.min hi x <= hi)%Q.
Proof.
  intros Hlh Hx. unfold Py.min. destruct (Qltb x hi) eqn:E.
  - apply Qltb_true in E. split; [exact Hx | apply Qlt_le_weak, E].
  - split; [exact Hlh | apply Qle_refl].
Qed.

(** ** The adaptive scheduler *)

(** C2: for every state with [min <= current <= max], the intervals being
    durations in seconds and so not negative, one adjustment halves the
    interval (clamped below by [min_interval]) and stamps the activity
    time when messages were found, multiplies it by 1.2 (clamped above by
    [max_interval]) after more than 600 idle seconds, changes nothing
    otherwise, and always leaves the interval within the bounds. *)
Theorem adjust_polling_interval_spec
    (now : Q) (found : list email_data) (p : SmartPolling.processor) :
  (0 <= SmartPolling.min_interval p)%Q ->
  (SmartPolling.min_interval p <= SmartPolling.current_interval p)%Q ->
  (SmartPolling.current_interval p <= SmartPolling.max_interval p)%Q ->
  let p' := SmartPolling.adjust_polling_interval now found p in
  (found <> [] ->
     (SmartPolling.current_interval p' ==
        Qmax (SmartPolling.min_interval p)
             (SmartPolling.current_interval p * (1 # 2)))%Q /\
     SmartPolling.last_email_time p' = now) /\
  (found = [] -> (600 < now - SmartPolling.last_email_time p)%Q ->
     (SmartPolling.current_interval p' ==
        Qmin (SmartPolling.max_interval p)
             (SmartPolling.current_interval p * (6 # 5)))%Q /\
     SmartPolling.last_email_time p' = SmartPolling.last_email_time p) /\
  (found = [] -> ~ (600 < now - SmartPolling.last_email_time p)%Q ->
     p' = p) /\
  SmartPolling.min_interval p' = SmartPolling.min_interval p /\
  SmartPolling.max_interval p' = SmartPolling.max_interval p /\
  (SmartPolling.min_interval p' <= SmartPolling.current_interval p')%Q /\
  (SmartPolling.current_interval p' <= SmartPolling.max_interval p')%Q.
Proof.
  intros Hmin Hlo Hhi p'. subst p'.
  assert (Hpos : (0 <= SmartPolling.current_interval p)%Q)
    by (eapply Qle_trans; eassumption).
  assert (Hmm : (SmartPolling.min_interval p <= SmartPolling.max_interval p)%Q)
    by (eapply Qle_trans; eassumption).
  unfold SmartPolling.adjust_polling_interval.
  destruct found as [|e found]; cbn [truthy_list].
  - destruct (Qltb 600 (now - SmartPolling.last_email_time p)) eqn:E.
    + apply Qltb_true in E. cbn.
      destruct (py_min_bounds (SmartPolling.min_interval p)
                  (SmartPolling.max_interval p)
                  (SmartPolling.current_interval p * (6 # 5))) as [H1 H2];
        [exact Hmm | lra |].
      split; [intros Hne; congruence|].
      split; [intros _ _; split; [apply py_min_Qmin | reflexivity]|].
      split; [intros _ Hn; exfalso; apply Hn, E|].
      repeat split; assumption.
    + apply Qltb_false in E.
      split; [intros Hne; congruence|].
      split; [intros _ Hlt; exfalso; apply (Qlt_not_le _ _ Hlt E)|].
      split; [reflexivity|].
      repeat split; assumption.
  - cbn.
    destruct (py_max_bounds (SmartPolling.min_interval p)
                (SmartPolling.max_interval p)
                (SmartPolling.current_interval p * (1 # 2))) as [H1 H2];
      [exact Hmm | lra |].
    split; [intros _; split; [apply py_max_Qmax | reflexivity]|].
    split; [intros Hnil; discriminate|].
    split; [intros Hnil; discriminate|].
    repeat split; assumption.
Qed.

Lemma adjust_polling_interval_spec_witness :
  let p := SmartPolling.init "support@example.com" 0%Q in
  let p' := SmartPolling.adjust_polling_interval 5%Q
              [mkEmail "1" "s" "a@b.com" "b" ""] p in
  (SmartPolling.min_interval p' <= SmartPolling.current_interval p')%Q /\
  (SmartPolling.current_interval p' <= SmartPolling.max_interval p')%Q.
Proof.
  pose proof (adjust_polling_interval_spec 5%Q
                [mkEmail "1" "s" "a@b.com" "b" ""]
                (SmartPolling.init "support@example.com" 0%Q)) as H.
  cbv zeta in H.
  destruct H as (_ & _ & _ & _ & _ & H1 & H2).
  - vm_compute. discriminate.
  - vm_compute. discriminate.
  - vm_compute. discriminate.
  - split; assumption.
Defined.

(** ** The reply subject *)

Lemma string_length_app (s1 s2 : string) :
  String.length (s1 ++ s2) = String.length s1 + String.length s2.
Proof.
  induction s1 as [|c s1 IH]; [reflexivity|].
  change (String c s1 ++ s2) with (String c (s1 ++ s2)).
  cbn [String.length]. rewrite IH. reflexivity.
Qed.

(** C4, as stated, fails: a subject that already starts with "Re:" gets a
    second prefix. *)
Lemma reply_subject_prefix_stacks :
  let original := mkEmail "42" "Re: Hello" "a@b.com" "text" "<id@b.com>" in
  Imap.m_subject (build_reply "me@example.com" original "reply")
    = "Re: Re: Hello" /\
  Imap.m_subject (build_reply "me@example.com" original "reply")
    <> subject original.
Proof. split; [reflexivity | discriminate]. Qed.

(** C4 (amended): the reply subject is always "Re: " followed by the
    original subject, whether or not the original already starts with
    "Re:"; it is therefore never the original subject, and replying to a
    reply stacks the prefix. *)
Theorem reply_subject_always_prefixed
    (from : string) (original : email_data) (reply_body : string) :
  let reply := build_reply from original reply_body in
  Imap.m_subject reply = "Re: " ++ subject original /\
  Imap.m_subject reply <> subject original /\
  String.length (Imap.m_subject reply) = 4 + String.length (subject original) /\
  (forall re_original : email_data,
     subject re_original = Imap.m_subject reply ->
     Imap.m_subject (build_reply from re_original reply_body)
       = "Re: Re: " ++ subject original).
Proof.
  cbn. split; [reflexivity|]. split; [|split].
  - intros H. apply (f_equal String.length) in H.
    rewrite string_length_app in H. cbn in H. lia.
  - rewrite string_length_app. reflexivity.
  - intros re_original ->. reflexivity.
Qed.

(** ** Generic rules for the state-and-exception monad *)

Section Rules.
Context {S : Type} (R : relation S) `{!PreOrder R}.

Lemma respects_ret {A} (a : A) : respects R (mret a : M S A).
Proof. intros s. reflexivity. Qed.

Lemma respects_call {A} (o : outcome A) : respects R (call o : M S A).
Proof. intros s. reflexivity. Qed.

Lemma respects_modify (f : S -> S) :
  (forall s, R s (f s)) -> respects R (modify f).
Proof. intros H s. apply H. Qed.

Lemma respects_bind {A B} (m : M S A) (k : A -> M S B) :
  respects R m -> (forall a, respects R (k a)) -> respects R (m ≫= k).
Proof.
  intros Hm Hk s. unfold mbind, M_bind, bind.
  specialize (Hm s). destruct (m s) as [s' [a|e|]]; cbn in *; auto.
  etransitivity; [exact Hm | apply Hk].
Qed.

Lemma respects_try_except {A} (m : M S A) (h : exn -> M S A) :
  respects R m -> (forall e, respects R (h e)) ->
  respects R (try_except m h).
Proof.
  intros Hm Hh s. unfold try_except.
  specialize (Hm s). destruct (m s) as [s' [a|e|]]; cbn in *; auto.
  etransitivity; [exact Hm | apply Hh].
Qed.

Lemma respects_for_each {X} (l : list X) (body : X -> M S unit) :
  (forall x, respects R (body x)) -> respects R (for_each l body).
Proof.
  intros Hb. induction l as [|x l IH]; cbn [for_each].
  - apply respects_ret.
  - apply (respects_bind (body x) (fun _ => for_each l body)); auto.
Qed.

End Rules.

Section NoRaise.
Context {S : Type}.

Lemma no_raise_ret {A} (a : A) : no_raise (mret a : M S A).
Proof. intros s e. discriminate. Qed.

Lemma no_raise_modify (f : S -> S) : no_raise (modify f).
Proof. intros s e. discriminate. Qed.

Lemma no_raise_bind {A B} (m : M S A) (k : A -> M S B) :
  no_raise m -> (forall a, no_raise (k a)) -> no_raise (m ≫= k).
Proof.
  intros Hm Hk s e. unfold mbind, M_bind, bind.
  specialize (Hm s). destruct (m s) as [s' [a|e'|]]; cbn in *.
  - apply Hk.
  - exfalso. apply (Hm e'). reflexivity.
  - discriminate.
Qed.

Lemma no_raise_try_except {A} (m : M S A) (h : exn -> M S A) :
  (forall e, no_raise (h e)) -> no_raise (try_except m h).
Proof.
  intros Hh s e. unfold try_except.
  destruct (m s) as [s' [a|e'|]]; cbn; try discriminate. apply Hh.
Qed.

End NoRaise.

(** Symbolic execution of the methods: unfold the primitives and apply the
    rules, splitting on every branch. *)
Ltac unfold_prims :=
  unfold connect_imap, mail_select, mail_search, mail_fetch, mail_append,
    mail_close, mail_logout, log, sleep, send, session_opened,
    session_closed, record_encode, set_self, get_self.

Ltac solve_preorder :=
  try match goal with |- PreOrder _ => apply _ end.

Create HintDb respects discriminated.

Ltac respects_step frame :=
  first
    [ solve [auto 2 with respects nocore]
    | apply respects_ret; solve_preorder
    | apply respects_call; solve_preorder
    | apply respects_bind; solve_preorder; [|intros ?]
    | apply respects_try_except; solve_preorder; [|intros ?]
    | apply respects_for_each; solve_preorder; intros ?
    | apply respects_modify; solve_preorder; intros ?; frame
    | match goal with
      | |- respects _ (match ?x with _ => _ end) => destruct x
      end ].

Ltac respects_auto frame := unfold_prims; repeat respects_step frame.

Lemma respects_weaken {S A} (R R' : relation S) (m : M S A) :
  (forall s s', R s s' -> R' s s') -> respects R m -> respects R' m.
Proof. intros H Hm s. apply H, Hm. Qed.

(** ** Frames: what a method leaves untouched *)

Global Instance same_self_preorder {P} : PreOrder (@same_self P).
Proof.
  split; [intros w; reflexivity|].
  intros a b c H1 H2. unfold same_self in *. congruence.
Qed.

Ltac frame_self := unfold same_self; cbn; reflexivity.

Lemma connect_imap_same_self {P} (srv : Imap.server) :
  respects same_self (connect_imap (P:=P) srv).
Proof. respects_auto frame_self. Qed.

Lemma save_reply_as_draft_same_self {P} (address : P -> string)
    (srv : Imap.server) (e : email_data) (reply_body : string) :
  respects same_self (save_reply_as_draft address srv e reply_body).
Proof. unfold save_reply_as_draft. respects_auto frame_self. Qed.

(** ** Deduplication in [get_new_emails] *)

Global Instance processed_grows_preorder : PreOrder processed_grows.
Proof.
  split; [intros w; unfold processed_grows; set_solver|].
  intros a b c. unfold processed_grows. set_solver.
Qed.

Lemma fresh_batch_nil (w w' : SmartPolling.W) : fresh_batch w w' [].
Proof. split; [constructor | intros e H; inversion H]. Qed.

(** One iteration of the loop, case by case. *)
Lemma fetch_loop_known (srv : Imap.server) (email_id : string)
    (rest : list string) (emails : list email_data) (w : SmartPolling.W) :
  email_id ∈ processed w ->
  SmartPolling.fetch_loop srv (email_id :: rest) emails w
    = SmartPolling.fetch_loop srv rest emails w.
Proof.
  intros Hin. cbn [SmartPolling.fetch_loop].
  unfold mbind at 1, M_bind, bind, get_self.
  destruct (decide (email_id ∈ SmartPolling.processed_emails (self w)));
    [reflexivity | contradiction].
Qed.

Lemma fetch_loop_unknown (srv : Imap.server) (email_id : string)
    (rest : list string) (emails : list email_data) (w : SmartPolling.W) :
  email_id ∉ processed w ->
  SmartPolling.fetch_loop srv (email_id :: rest) emails w =
    match Imap.fetch srv email_id with
    | Returns (Imap.OK, Returns m) =>
        SmartPolling.fetch_loop srv rest (emails ++ [email_of email_id m])
          (after_admit email_id m w)
    | Returns (Imap.OK, Raises e) => (after_fetch email_id w, Raises e)
    | Returns (Imap.OK, Blocked) => (after_fetch email_id w, Blocked)
    | Returns (Imap.NO, _) =>
        SmartPolling.fetch_loop srv rest emails (after_fetch email_id w)
    | Raises e => (after_fetch email_id w, Raises e)
    | Blocked => (after_fetch email_id w, Blocked)
    end.
Proof.
  intros Hout. cbn [SmartPolling.fetch_loop].
  unfold mbind at 1, M_bind, bind, get_self.
  destruct (decide (email_id ∈ SmartPolling.processed_emails (self w)));
    [contradiction|].
  unfold mail_fetch, send, call, modify, mbind, M_bind, bind. cbn.
  destruct (Imap.fetch srv email_id) as [[[|] [m|e|]]|e|]; reflexivity.
Qed.

Lemma fetch_loop_spec (srv : Imap.server) (email_ids : list string) :
  forall (emails : list email_data) (w : SmartPolling.W),
    let r := SmartPolling.fetch_loop srv email_ids emails w in
    processed_grows w r.1 /\
    forall out, r.2 = Returns out ->
      exists new, out = (emails ++ new)%list /\ fresh_batch w r.1 new.
Proof.
  induction email_ids as [|email_id rest IH]; intros emails w.
  - cbn. split; [reflexivity|]. intros out [= <-]. exists [].
    split; [by rewrite app_nil_r | apply fresh_batch_nil].
  - destruct (decide (email_id ∈ processed w)) as [Hin|Hout].
    + rewrite fetch_loop_known by exact Hin. apply IH.
    + rewrite fetch_loop_unknown by exact Hout.
      assert (Hf : processed (after_fetch email_id w) = processed w)
        by reflexivity.
      destruct (Imap.fetch srv email_id) as [[[|] [m|e|]]|e|]; cbn zeta.
      * specialize (IH (emails ++ [email_of email_id m])%list
                       (after_admit email_id m w)).
        cbn zeta in IH. destruct IH as [Hg Hr].
        set (r := SmartPolling.fetch_loop srv rest _ _) in *.
        assert (Ha : processed (after_admit email_id m w)
                     = processed w ∪ {[email_id]}) by reflexivity.
        unfold processed_grows in *. rewrite Ha in Hg.
        split; [set_solver|].
        intros out Hout'. destruct (Hr out Hout') as (new & -> & Hnd & Hnew).
        exists (email_of email_id m :: new). split.
        { by rewrite <- app_assoc. }
        split.
        { rewrite fmap_cons. apply NoDup_cons. split; [|exact Hnd].
          intros Hmem.
          apply list_elem_of_fmap in Hmem as (e & Heq & He).
          pose proof (Hnew e He) as [Hnot _]. apply Hnot.
          rewrite Ha, <- Heq. apply elem_of_union_r, elem_of_singleton.
          reflexivity. }
        { intros e He. apply elem_of_cons in He as [->|He].
          - split; [exact Hout|]. apply Hg, elem_of_union_r, elem_of_singleton.
            reflexivity.
          - pose proof (Hnew e He) as [Hnot Hyes]. split; [|exact Hyes].
            rewrite Ha in Hnot. intros Hw. apply Hnot, elem_of_union_l, Hw. }
      * split; [unfold processed_grows; cbn; set_solver | intros out [=]].
      * split; [unfold processed_grows; cbn; set_solver | intros out [=]].
      * specialize (IH emails (after_fetch email_id w)). cbn zeta in IH.
        exact IH.
      * specialize (IH emails (after_fetch email_id w)). cbn zeta in IH.
        exact IH.
      * specialize (IH emails (after_fetch email_id w)). cbn zeta in IH.
        exact IH.
      * split; [unfold processed_grows; cbn; set_solver | intros out [=]].
      * split; [unfold processed_grows; cbn; set_solver | intros out [=]].
Qed.

Ltac run_monad :=
  unfold mbind, mret, M_bind, M_ret, bind, ret, try_except, call, modify;
  cbn.

Ltac grows_same := unfold processed_grows, processed; cbn; reflexivity.

Lemma get_new_emails_spec (srv : Imap.server) (since_date : string)
    (w : SmartPolling.W) :
  let r := SmartPolling.get_new_emails srv since_date w in
  processed_grows w r.1 /\
  forall out, r.2 = Returns out -> fresh_batch w r.1 out.
Proof.
  unfold SmartPolling.get_new_emails. unfold_prims. run_monad.
  destruct (Imap.connect srv) as [[]|?|]; cbn;
    [|split; [grows_same | intros ? [= <-]; apply fresh_batch_nil]
     |split; [grows_same | intros ? [=]]].
  destruct (Imap.login srv) as [[]|?|]; cbn;
    [|split; [grows_same | intros ? [= <-]; apply fresh_batch_nil]
     |split; [grows_same | intros ? [=]]].
  destruct (Imap.select srv "INBOX") as [?|?|]; cbn;
    [|split; [grows_same | intros ? [= <-]; apply fresh_batch_nil]
     |split; [grows_same | intros ? [=]]].
  destruct (Imap.search srv) as [[[|] email_ids]|?|]; cbn;
    [|split; [grows_same | intros ? [= <-]; apply fresh_batch_nil]
     |split; [grows_same | intros ? [= <-]; apply fresh_batch_nil]
     |split; [grows_same | intros ? [=]]].
  match goal with
  | |- context [SmartPolling.fetch_loop srv email_ids [] ?w3] =>
      pose proof (fetch_loop_spec srv email_ids [] w3) as [Hg Hr];
      destruct (SmartPolling.fetch_loop srv email_ids [] w3)
        as [w4 [emails|?|]]
  end; cbn in *;
    [|split; [exact Hg | intros ? [= <-]; apply fresh_batch_nil]
     |split; [exact Hg | intros ? [=]]].
  destruct (Hr emails eq_refl) as (new & -> & Hnd & Hnew).
  destruct (Imap.close srv) as [[]|?|]; cbn;
    [|split; [exact Hg | intros ? [= <-]; apply fresh_batch_nil]
     |split; [exact Hg | intros ? [=]]].
  destruct (Imap.logout srv) as [[]|?|]; cbn;
    [|split; [exact Hg | intros ? [= <-]; apply fresh_batch_nil]
     |split; [exact Hg | intros ? [=]]].
  split; [exact Hg|]. intros out [= <-]. split; [exact Hnd | exact Hnew].
Qed.

Lemma fresh_batch_app (w w' w'' : SmartPolling.W) (l1 l2 : list email_data) :
  processed_grows w w' -> processed_grows w' w'' ->
  fresh_batch w w' l1 -> fresh_batch w' w'' l2 ->
  fresh_batch w w'' (l1 ++ l2).
Proof.
  unfold processed_grows. intros H1 H2 [Hn1 Hf1] [Hn2 Hf2]. split.
  - rewrite fmap_app. apply NoDup_app. split; [exact Hn1|].
    split; [|exact Hn2].
    intros x Hx1 Hx2.
    apply list_elem_of_fmap in Hx1 as (e1 & -> & He1).
    apply list_elem_of_fmap in Hx2 as (e2 & Heq & He2).
    pose proof (Hf1 e1 He1) as [_ Hin]. pose proof (Hf2 e2 He2) as [Hout _].
    apply Hout. rewrite <- Heq. exact Hin.
  - intros e He. apply elem_of_app in He as [He|He].
    + pose proof (Hf1 e He) as [Ha Hb]. split; [exact Ha | apply H2, Hb].
    + pose proof (Hf2 e He) as [Ha Hb]. split; [|exact Hb].
      intros Hw. apply Ha, H1, Hw.
Qed.

Lemma drains_spec (cycles : list (Imap.server * string)) :
  forall w : SmartPolling.W,
    let r := SmartPolling.drains cycles w in
    processed_grows w r.1 /\ fresh_batch w r.1 r.2.
Proof.
  induction cycles as [|[srv since_date] rest IH]; intros w.
  - cbn. split; [reflexivity | apply fresh_batch_nil].
  - cbn [SmartPolling.drains].
    pose proof (get_new_emails_spec srv since_date w) as [Hg Hr].
    destruct (SmartPolling.get_new_emails srv since_date w)
      as [w' [emails|?|]]; cbn in Hg, Hr.
    + pose proof (IH w') as [Hg' Hr'].
      destruct (SmartPolling.drains rest w') as [w'' later]; cbn in *.
      split; [etransitivity; eassumption|].
      eapply fresh_batch_app; eauto.
    + pose proof (IH w') as [Hg' [Hn' Hf']]. cbn zeta.
      split; [etransitivity; eassumption|].
      split; [exact Hn'|]. intros x Hx. pose proof (Hf' x Hx) as [Ha Hb].
      split; [|exact Hb]. intros Hw. apply Ha, Hg, Hw.
    + pose proof (IH w') as [Hg' [Hn' Hf']]. cbn zeta.
      split; [etransitivity; eassumption|].
      split; [exact Hn'|]. intros x Hx. pose proof (Hf' x Hx) as [Ha Hb].
      split; [|exact Hb]. intros Hw. apply Ha, Hg, Hw.
Qed.

(** C1, as stated, fails in [get_new_emails]: a ref that is not in the
    processed set but whose fetch answers NO is neither admitted nor
    inserted, so its first check does not "succeed" and a later check of
    the same ref can. *)
Lemma unfetched_ref_not_admitted :
  let w := fresh_world "support@example.com" 0%Q in
  let refused := answering (Imap.OK, ["42"])
                   (fun _ => Returns (Imap.NO, Returns hello)) in
  let granted := answering (Imap.OK, ["42"])
                   (fun _ => Returns (Imap.OK, Returns hello)) in
  let first := SmartPolling.get_new_emails refused "01-Jan-2025" w in
  let second := SmartPolling.get_new_emails granted "01-Jan-2025" first.1 in
  ("42" ∉ processed w) /\
  first.2 = Returns [] /\
  ("42" ∉ processed first.1) /\
  second.2 = Returns [email_of "42" hello].
Proof.
  cbv zeta. split; [|split; [|split]].
  - apply (proj1 (bool_decide_eq_false _)). vm_compute. reflexivity.
  - vm_compute. reflexivity.
  - apply (proj1 (bool_decide_eq_false _)). vm_compute. reflexivity.
  - vm_compute. reflexivity.
Qed.

(** ** A drain that fails part-way *)

Lemma passes_grows (srv : Imap.server) (w w' : SmartPolling.W)
    (email_id : string) :
  processed_grows w w' -> passes srv w email_id -> passes srv w' email_id.
Proof.
  intros Hg [H|[H|H]]; [left; apply Hg, H | right; left; exact H
                       | right; right; exact H].
Qed.

Lemma raising_ref_not_in_prefix (srv : Imap.server) (w : SmartPolling.W)
    (pre : list string) (bad : string) :
  fetch_raises srv bad -> bad ∉ processed w ->
  Forall (passes srv w) pre -> bad ∉ pre.
Proof.
  intros Hbad Hnew Hpre Hin.
  rewrite Forall_forall in Hpre. specialize (Hpre bad Hin).
  destruct Hpre as [H|[[p H]|[m H]]]; [contradiction| |];
    destruct Hbad as [[e He]|[e He]]; congruence.
Qed.

Lemma fetch_loop_raises (srv : Imap.server) (pre : list string)
    (bad : string) (post : list string) :
  fetch_raises srv bad ->
  forall (emails : list email_data) (w : SmartPolling.W),
    Forall (passes srv w) pre ->
    bad ∉ processed w ->
    let r := SmartPolling.fetch_loop srv (pre ++ bad :: post) emails w in
    (exists e, r.2 = Raises e) /\
    processed_grows w r.1 /\
    forall email_id m,
      email_id ∈ pre ->
      Imap.fetch srv email_id = Returns (Imap.OK, Returns m) ->
      email_id ∈ processed r.1.
Proof.
  intros Hbad. induction pre as [|x pre IH]; intros emails w Hpre Hnew.
  - cbn [app]. rewrite fetch_loop_unknown by exact Hnew.
    destruct Hbad as [[e ->]|[e ->]]; cbn.
    + split; [eauto|]. split; [grows_same|]. intros ? ? Hin. inversion Hin.
    + split; [eauto|]. split; [grows_same|]. intros ? ? Hin. inversion Hin.
  - pose proof (raising_ref_not_in_prefix srv w (x :: pre) bad Hbad Hnew Hpre)
      as Hnotin.
    apply not_elem_of_cons in Hnotin as [Hne Hnotin].
    apply Forall_cons in Hpre as [Hx Hpre]. cbn [app].
    destruct (decide (x ∈ processed w)) as [Hin|Hout].
    + rewrite fetch_loop_known by exact Hin.
      destruct (IH emails w Hpre Hnew) as (He & Hg & Hm).
      split; [exact He|]. split; [exact Hg|].
      intros email_id m Hmem Hf.
      apply elem_of_cons in Hmem as [->|Hmem]; [apply Hg, Hin | eauto].
    + rewrite fetch_loop_unknown by exact Hout.
      destruct Hx as [Hx|[[p Hx]|[m Hx]]]; [contradiction| |]; rewrite Hx.
      * assert (Hsame : processed_grows w (after_fetch x w)) by grows_same.
        destruct (IH emails (after_fetch x w)) as (He & Hg & Hm).
        { eapply Forall_impl; [exact Hpre|].
          intros a Ha. eapply passes_grows; eauto. }
        { exact Hnew. }
        split; [exact He|]. split; [exact Hg|].
        intros email_id m Hmem Hf.
        apply elem_of_cons in Hmem as [->|Hmem]; [congruence | eauto].
      * assert (Hadm : processed_grows w (after_admit x m w)).
        { unfold processed_grows. cbn. apply union_subseteq_l. }
        destruct (IH (emails ++ [email_of x m])%list (after_admit x m w))
          as (He & Hg & Hm).
        { eapply Forall_impl; [exact Hpre|].
          intros a Ha. eapply passes_grows; eauto. }
        { cbn. intros Hb. apply elem_of_union in Hb as [Hb|Hb];
            [contradiction|]. apply elem_of_singleton in Hb. congruence. }
        split; [exact He|].
        split; [etransitivity; eassumption|].
        intros email_id m' Hmem Hf.
        apply elem_of_cons in Hmem as [->|Hmem]; [|eauto].
        apply Hg. cbn. apply elem_of_union_r, elem_of_singleton. reflexivity.
Qed.

(** C10: when the fetch (or the parsing) of one ref raises after the refs
    before it went through, the drain returns the empty list, the refs
    fetched before the failure stay in the processed set, and no later
    drain ever returns them. *)
Theorem failed_drain_keeps_processed_refs
    (srv : Imap.server) (since_date : string) (w : SmartPolling.W)
    (st : Imap.status) (pre : list string) (bad : string)
    (post : list string) :
  Imap.connect srv = Returns tt ->
  Imap.login srv = Returns tt ->
  Imap.select srv "INBOX" = Returns st ->
  Imap.search srv = Returns (Imap.OK, (pre ++ bad :: post)%list) ->
  Forall (passes srv w) pre ->
  bad ∉ processed w ->
  fetch_raises srv bad ->
  let r := SmartPolling.get_new_emails srv since_date w in
  r.2 = Returns [] /\
  forall email_id m,
    email_id ∈ pre ->
    Imap.fetch srv email_id = Returns (Imap.OK, Returns m) ->
    (email_id ∈ processed r.1) /\
    forall cycles e,
      e ∈ (SmartPolling.drains cycles r.1).2 -> id e <> email_id.
Proof.
  intros Hc Hl Hs Hq Hpre Hnew Hbad.
  unfold SmartPolling.get_new_emails. unfold_prims. run_monad.
  rewrite Hc, Hl, Hs, Hq. cbn.
  match goal with
  | |- context [SmartPolling.fetch_loop srv _ [] ?w3] =>
      pose proof (fetch_loop_raises srv pre bad post Hbad [] w3 Hpre Hnew)
        as ([e He] & Hg & Hm);
      destruct (SmartPolling.fetch_loop srv (pre ++ bad :: post) [] w3)
        as [w4 [emails|e'|]]; cbn in He, Hg, Hm; try discriminate
  end.
  cbn. split; [reflexivity|].
  intros email_id m Hin Hf. specialize (Hm email_id m Hin Hf).
  split; [exact Hm|].
  intros cycles x Hx Heq.
  match goal with
  | _ : x ∈ (SmartPolling.drains cycles ?w5).2 |- _ =>
      pose proof (drains_spec cycles w5) as [_ [_ Hfresh]];
      destruct (Hfresh x Hx) as [Hnot _]
  end.
  apply Hnot. rewrite Heq. exact Hm.
Qed.

Lemma failed_drain_keeps_processed_refs_witness :
  let srv := answering (Imap.OK, ["41"; "42"])
               (fun i => if String.eqb i "41"
                         then Returns (Imap.OK, Returns hello)
                         else Raises Exception) in
  let r := SmartPolling.get_new_emails srv "01-Jan-2025"
             (fresh_world "support@example.com" 0%Q) in
  r.2 = Returns [] /\ ("41" ∈ processed r.1).
Proof.
  cbv zeta.
  destruct (failed_drain_keeps_processed_refs
              (answering (Imap.OK, ["41"; "42"])
                 (fun i => if String.eqb i "41"
                           then Returns (Imap.OK, Returns hello)
                           else Raises Exception))
              "01-Jan-2025" (fresh_world "support@example.com" 0%Q)
              Imap.OK ["41"] "42" []) as [Hr Hp].
  - reflexivity.
  - reflexivity.
  - reflexivity.
  - reflexivity.
  - constructor; [|constructor]. right. right. exists hello. reflexivity.
  - apply (proj1 (bool_decide_eq_false _)). vm_compute. reflexivity.
  - left. exists Exception. reflexivity.
  - split; [exact Hr|].
    apply (Hp "41" hello); [apply list_elem_of_here | reflexivity].
Defined.

(** ** What goes on the wire *)

Global Instance wire_adds_preorder {P} (ok : Imap.op -> Prop) :
  PreOrder (@wire_adds P ok).
Proof.
  split.
  - intros w. exists []. split; [by rewrite app_nil_r | constructor].
  - intros a b c (t1 & H1 & F1) (t2 & H2 & F2). exists (t1 ++ t2)%list.
    split; [by rewrite H2, H1, app_assoc | by apply Forall_app].
Qed.

Ltac frame_wire ok_tac :=
  unfold wire_adds; cbn;
  first
    [ exists []; split; [by rewrite app_nil_r | constructor]
    | eexists [_]; split;
      [reflexivity | constructor; [ok_tac | constructor]] ].

Lemma save_reply_as_draft_appends_to_Drafts {P} (address : P -> string)
    (srv : Imap.server) (e : email_data) (reply_body : string) :
  respects (wire_adds append_to_Drafts)
    (save_reply_as_draft address srv e reply_body).
Proof.
  unfold save_reply_as_draft.
  respects_auto ltac:(frame_wire ltac:(cbn; auto)).
Qed.

(** C9: the fallback selects "DRAFT", but the draft is still appended to
    "Drafts": on every server each APPEND names "Drafts", and on a server
    where only "DRAFT" can be selected the method reports success after
    sending APPEND "Drafts". When SELECT "Drafts" answers NO without
    raising, "DRAFT" is not even tried. When neither folder can be
    selected nothing is appended and the method returns False. *)
Theorem draft_is_always_appended_to_Drafts :
  (forall (srv : Imap.server) (e : email_data) (reply_body : string)
          (w : SmartPolling.W),
     exists t,
       wire (SmartPolling.save_reply_as_draft srv e reply_body w).1
         = (wire w ++ t)%list /\
       forall mailbox flags message,
         Imap.Append mailbox flags message ∈ t -> mailbox = "Drafts") /\
  (let e := email_of "42" hello in
   let w := fresh_world "support@example.com" 0%Q in
   let r := SmartPolling.save_reply_as_draft only_DRAFT e "text" w in
   r.2 = Returns true /\
   wire r.1 =
     [Imap.Connect; Imap.Login; Imap.Select "Drafts"; Imap.Select "DRAFT";
      Imap.Append "Drafts" "\Draft"
        (build_reply "support@example.com" e "text");
      Imap.Close; Imap.Logout]) /\
  (let e := email_of "42" hello in
   let w := fresh_world "support@example.com" 0%Q in
   let r := SmartPolling.save_reply_as_draft Drafts_answers_NO e "text" w in
   r.2 = Returns true /\
   wire r.1 =
     [Imap.Connect; Imap.Login; Imap.Select "Drafts";
      Imap.Append "Drafts" "\Draft"
        (build_reply "support@example.com" e "text");
      Imap.Close; Imap.Logout]) /\
  (let e := email_of "42" hello in
   let w := fresh_world "support@example.com" 0%Q in
   let r := SmartPolling.save_reply_as_draft no_drafts_folder e "text" w in
   r.2 = Returns false /\
   wire r.1 =
     [Imap.Connect; Imap.Login; Imap.Select "Drafts"; Imap.Select "DRAFT";
      Imap.Close; Imap.Logout]).
Proof.
  split; [|split; [|split]].
  - intros srv e reply_body w.
    destruct (save_reply_as_draft_appends_to_Drafts
                SmartPolling.email_address srv e reply_body w)
      as (t & Ht & Hok).
    exists t. split; [exact Ht|].
    intros mailbox flags message Hin.
    rewrite Forall_forall in Hok. apply (Hok _ Hin).
  - cbv zeta. split; vm_compute; reflexivity.
  - cbv zeta. split; vm_compute; reflexivity.
  - cbv zeta. split; vm_compute; reflexivity.
Qed.

(** C7: the session is not torn down on the error paths. After a search
    answered NO, and after a fetch that raises, [get_new_emails] returns
    with the session still logged in and neither CLOSE nor LOGOUT sent;
    [save_reply_as_draft] of zoho_faiss.py does the same when neither
    drafts folder can be selected, where the one of
    zoho_smart_processing.py closes and logs out. *)
Theorem session_left_open_on_error_paths :
  (let r := SmartPolling.get_new_emails
              (answering (Imap.NO, []) (fun _ => Raises Exception))
              "01-Jan-2025" (fresh_world "support@example.com" 0%Q) in
   r.2 = Returns [] /\ sessions r.1 = 1 /\
   wire r.1 = [Imap.Connect; Imap.Login; Imap.Select "INBOX";
               Imap.Search "(UNSEEN SINCE 01-Jan-2025)"]) /\
  (let r := SmartPolling.get_new_emails
              (answering (Imap.OK, ["42"]) (fun _ => Raises Exception))
              "01-Jan-2025" (fresh_world "support@example.com" 0%Q) in
   r.2 = Returns [] /\ sessions r.1 = 1 /\
   wire r.1 = [Imap.Connect; Imap.Login; Imap.Select "INBOX";
               Imap.Search "(UNSEEN SINCE 01-Jan-2025)"; Imap.Fetch "42"]) /\
  (let r := Faiss.save_reply_as_draft no_drafts_folder (email_of "42" hello)
              "text"
              (mkWorld (Faiss.mkProcessor "support@example.com" ∅)
                       0 [] [] [] []) in
   r.2 = Returns false /\ sessions r.1 = 1 /\
   wire r.1 = [Imap.Connect; Imap.Login; Imap.Select "Drafts";
               Imap.Select "DRAFT"]) /\
  (let r := SmartPolling.save_reply_as_draft no_drafts_folder
              (email_of "42" hello) "text"
              (fresh_world "support@example.com" 0%Q) in
   r.2 = Returns false /\ sessions r.1 = 0) /\
  (let r := SmartPolling.get_new_emails
              (answering (Imap.OK, ["42"])
                 (fun _ => Returns (Imap.OK, Returns hello)))
              "01-Jan-2025" (fresh_world "support@example.com" 0%Q) in
   r.2 = Returns [email_of "42" hello] /\ sessions r.1 = 0).
Proof.
  cbv zeta. repeat split; vm_compute; reflexivity.
Qed.

(** ** The work queue *)

(** C6, as stated, fails: the queue built by [__init__] has no capacity at
    which [put] blocks. *)
Lemma queue_has_no_capacity :
  ~ exists K : nat,
      forall (q : Queue (option email_data)) (x : option email_data),
        maxsize q = maxsize (SmartPolling.email_queue
                               (SmartPolling.init "support@example.com" 0%Q)) ->
        List.length (items q) = K ->
        put q x = Blocks.
Proof.
  intros [K H].
  specialize (H (mkQueue 0 (repeat None K)) None eq_refl
                (repeat_length _ _)).
  discriminate H.
Qed.

Global Instance keeps_queue_preorder : PreOrder keeps_queue.
Proof.
  split; [intros w; split; reflexivity|].
  intros a b c [H1 H2] [H3 H4]. split; congruence.
Qed.

Ltac frame_keeps := unfold keeps_queue, queue_of; cbn; split; reflexivity.

Lemma same_self_keeps_queue (w w' : SmartPolling.W) :
  same_self w w' -> keeps_queue w w'.
Proof. unfold same_self, keeps_queue, queue_of. intros ->. by split. Qed.

Lemma save_reply_as_draft_keeps_queue (srv : Imap.server) (e : email_data)
    (reply_body : string) :
  respects keeps_queue (SmartPolling.save_reply_as_draft srv e reply_body).
Proof.
  eapply respects_weaken; [apply same_self_keeps_queue|].
  apply save_reply_as_draft_same_self.
Qed.

Lemma fetch_loop_keeps_queue (srv : Imap.server) (email_ids : list string) :
  forall emails, respects keeps_queue
                   (SmartPolling.fetch_loop srv email_ids emails).
Proof.
  induction email_ids as [|email_id rest IH]; intros emails;
    cbn [SmartPolling.fetch_loop].
  - apply respects_ret; apply _.
  - unfold SmartPolling.mark_processed. respects_auto frame_keeps.
Qed.

Lemma get_new_emails_keeps_queue (srv : Imap.server) (since_date : string) :
  respects keeps_queue (SmartPolling.get_new_emails srv since_date).
Proof.
  pose proof (fetch_loop_keeps_queue srv) as Hloop.
  unfold SmartPolling.get_new_emails. respects_auto frame_keeps.
Qed.

#[export] Hint Resolve save_reply_as_draft_keeps_queue
  get_new_emails_keeps_queue : respects.

(** ** Invariants of the running system *)

Global Instance preserves_preorder {S} (I : S -> Prop) :
  PreOrder (preserves I).
Proof. split; [intros s H; exact H | intros a b c H1 H2 H; auto]. Qed.

Lemma keeps_queue_unbounded (w w' : SmartPolling.W) :
  keeps_queue w w' -> preserves unbounded w w'.
Proof. unfold preserves, unbounded. intros [_ ->]. auto. Qed.

Lemma keeps_queue_live (w w' : SmartPolling.W) :
  keeps_queue w w' -> preserves live w w'.
Proof. unfold preserves, live, unbounded. intros [-> ->]. auto. Qed.

Lemma adjust_polling_interval_frame (now : Q) (found : list email_data)
    (p : SmartPolling.processor) :
  SmartPolling.running (SmartPolling.adjust_polling_interval now found p)
    = SmartPolling.running p /\
  SmartPolling.email_queue (SmartPolling.adjust_polling_interval now found p)
    = SmartPolling.email_queue p /\
  SmartPolling.processed_emails
    (SmartPolling.adjust_polling_interval now found p)
    = SmartPolling.processed_emails p.
Proof.
  unfold SmartPolling.adjust_polling_interval.
  destruct (truthy_list found); [by cbn|].
  destruct (Qltb _ _); by cbn.
Qed.

Lemma adjust_keeps_queue (now : Q) (found : list email_data) :
  respects keeps_queue
    (set_self (SmartPolling.adjust_polling_interval now found)).
Proof.
  intros w. unfold keeps_queue, queue_of. cbn.
  destruct (adjust_polling_interval_frame now found (self w)) as (-> & -> & _).
  by split.
Qed.

Lemma queue_get_unbounded :
  respects (preserves unbounded) SmartPolling.queue_get.
Proof.
  intros w. unfold preserves, unbounded, queue_of, SmartPolling.queue_get,
    get_item.
  destruct (items (SmartPolling.email_queue (self w))); cbn; auto.
Qed.

Lemma queue_put_unbounded (x : option email_data) :
  respects (preserves unbounded) (SmartPolling.queue_put x).
Proof.
  intros w. unfold preserves, unbounded, queue_of, SmartPolling.queue_put, put.
  destruct (full (SmartPolling.email_queue (self w))); cbn; auto.
Qed.

Lemma queue_get_live : respects (preserves live) SmartPolling.queue_get.
Proof.
  intros w. unfold preserves, live, unbounded, queue_of,
    SmartPolling.queue_get, get_item.
  destruct (items (SmartPolling.email_queue (self w))) eqn:E; cbn.
  - rewrite E. auto.
  - intros (Hr & Hm & Hq). apply Forall_cons in Hq as [_ Hq]. auto.
Qed.

Lemma queue_put_live (e : email_data) :
  respects (preserves live) (SmartPolling.queue_put (Some e)).
Proof.
  intros w. unfold preserves, live, unbounded, queue_of,
    SmartPolling.queue_put, put.
  destruct (full (SmartPolling.email_queue (self w))); cbn; auto.
  intros (Hr & Hm & Hq). repeat split; auto.
  apply Forall_app. split; [exact Hq|]. constructor; [eauto | constructor].
Qed.

(** Both loop bodies keep any property of the flag and the queue that
    survives a [get] and a [put] of a message. *)
Section LoopBodies.
Variable I : SmartPolling.W -> Prop.
Hypothesis I_frame : forall w w', keeps_queue w w' -> preserves I w w'.
Hypothesis I_get : respects (preserves I) SmartPolling.queue_get.
Hypothesis I_put :
  forall e, respects (preserves I) (SmartPolling.queue_put (Some e)).

Ltac frame_I :=
  apply I_frame;
  first [frame_keeps | exact (adjust_keeps_queue _ _ _)].

Lemma draft_preserves (srv : Imap.server) (e : email_data)
    (reply_body : string) :
  respects (preserves I) (SmartPolling.save_reply_as_draft srv e reply_body).
Proof.
  eapply respects_weaken; [exact I_frame|].
  apply save_reply_as_draft_keeps_queue.
Qed.

Lemma drain_preserves (srv : Imap.server) (since_date : string) :
  respects (preserves I) (SmartPolling.get_new_emails srv since_date).
Proof.
  eapply respects_weaken; [exact I_frame|].
  apply get_new_emails_keeps_queue.
Qed.

Lemma worker_body_preserves (srv : Imap.server) (fault : outcome unit) :
  respects (preserves I) (SmartPolling.email_processor_worker_body srv fault).
Proof.
  pose proof draft_preserves as Hd.
  unfold SmartPolling.email_processor_worker_body.
  respects_auto frame_I.
Qed.

Lemma polling_body_preserves (srv : Imap.server) (since_date : string)
    (now processing_time : Q) (fault : outcome unit) :
  respects (preserves I)
    (SmartPolling.smart_polling_body srv since_date now processing_time
       fault).
Proof.
  pose proof drain_preserves as Hd.
  unfold SmartPolling.smart_polling_body.
  respects_auto frame_I.
Qed.

End LoopBodies.

Section ReturnsIn.
Context {S A : Type} (Q : A -> Prop).

Lemma returns_in_ret (a : A) : Q a -> returns_in Q (mret a : M S A).
Proof. intros H s a' [= <-]. exact H. Qed.

Lemma returns_in_bind {B} (m : M S B) (k : B -> M S A) :
  (forall b, returns_in Q (k b)) -> returns_in Q (m ≫= k).
Proof.
  intros Hk s a. unfold mbind, M_bind, bind.
  destruct (m s) as [s' [b|e|]]; cbn; try discriminate. apply Hk.
Qed.

Lemma returns_in_try_except (m : M S A) (h : exn -> M S A) :
  returns_in Q m -> (forall e, returns_in Q (h e)) ->
  returns_in Q (try_except m h).
Proof.
  intros Hm Hh s a. unfold try_except. specialize (Hm s).
  destruct (m s) as [s' [b|e|]]; cbn in *; try discriminate.
  - apply Hm.
  - apply Hh.
Qed.

End ReturnsIn.

Lemma worker_body_no_raise (srv : Imap.server) (fault : outcome unit) :
  no_raise (SmartPolling.email_processor_worker_body srv fault).
Proof.
  apply no_raise_try_except. intros [| |].
  - apply no_raise_ret.
  - apply no_raise_bind; [apply no_raise_modify | intros; apply no_raise_ret].
  - apply no_raise_bind; [apply no_raise_modify | intros; apply no_raise_ret].
Qed.

Lemma polling_body_no_raise (srv : Imap.server) (since_date : string)
    (now processing_time : Q) (fault : outcome unit) :
  no_raise (SmartPolling.smart_polling_body srv since_date now
              processing_time fault).
Proof.
  apply no_raise_try_except. intros e.
  apply no_raise_bind; [apply no_raise_modify | intros; apply no_raise_modify].
Qed.

(** Without a shutdown signal in the queue the worker never breaks out of
    its loop. *)
Lemma worker_body_continues (srv : Imap.server) (fault : outcome unit)
    (w : SmartPolling.W) :
  Forall is_Some (items (queue_of w)) ->
  forall c, (SmartPolling.email_processor_worker_body srv fault w).2
            = Returns c -> c = SmartPolling.Continue.
Proof.
  intros Hq c. unfold SmartPolling.email_processor_worker_body.
  assert (Hh : forall ex,
             returns_in (S:=SmartPolling.W) (fun c => c = SmartPolling.Continue)
               match ex with
               | QueueEmpty => mret SmartPolling.Continue
               | _ => log ERROR "Error in email processor worker";;
                      mret SmartPolling.Continue
               end).
  { intros [| |]; [by apply returns_in_ret| |];
      apply returns_in_bind; intros; by apply returns_in_ret. }
  unfold try_except at 1. unfold mbind at 1, M_bind, bind.
  unfold SmartPolling.queue_get, get_item, queue_of in *.
  destruct (items (SmartPolling.email_queue (self w))) as [|x rest]; cbn.
  - intros [= <-]. reflexivity.
  - apply Forall_cons in Hq as [[e ->] _].
    match goal with
    | |- context [(?m ≫= ?k) ?s] =>
        pose proof (returns_in_bind (fun c => c = SmartPolling.Continue) m k)
          as Hk;
        specialize (fun H => Hk H s); destruct ((m ≫= k) s) as [s' [c'|ex|]]
    end; cbn in *.
    + intros [= <-]. apply Hk; [|reflexivity].
      intros []. apply returns_in_bind. intros saved.
      apply returns_in_bind. intros _. by apply returns_in_ret.
    + apply Hh.
    + discriminate.
Qed.

Lemma stop_monitoring_unbounded :
  respects (preserves unbounded) SmartPolling.stop_monitoring.
Proof.
  pose proof queue_put_unbounded as Hp.
  unfold SmartPolling.stop_monitoring.
  respects_auto ltac:(unfold preserves, unbounded, queue_of; cbn; auto).
Qed.

Lemma step_unbounded (sys : SmartPolling.system) (t : SmartPolling.tick) :
  unbounded (SmartPolling.state sys) ->
  unbounded (SmartPolling.state (SmartPolling.step sys t)).
Proof.
  intros H. destruct t as [srv fault|srv since_date now pt fault|]; cbn.
  - destruct (SmartPolling.worker sys); try exact H.
    destruct (negb _); [exact H|].
    pose proof (worker_body_preserves unbounded keeps_queue_unbounded
                  queue_get_unbounded srv fault
                  (SmartPolling.state sys) H) as Hb.
    destruct (SmartPolling.email_processor_worker_body srv fault _)
      as [w [[]|?|]]; exact Hb.
  - destruct (SmartPolling.poller sys); try exact H.
    destruct (negb _); [exact H|].
    pose proof (polling_body_preserves unbounded keeps_queue_unbounded
                  (fun e => queue_put_unbounded (Some e)) srv since_date now
                  pt fault (SmartPolling.state sys) H) as Hb.
    destruct (SmartPolling.smart_polling_body srv since_date now pt fault _)
      as [w [[]|?|]]; exact Hb.
  - apply stop_monitoring_unbounded, H.
Qed.

Lemma run_unbounded (ticks : list SmartPolling.tick) :
  forall sys, unbounded (SmartPolling.state sys) ->
              unbounded (SmartPolling.state (SmartPolling.run ticks sys)).
Proof.
  induction ticks as [|t ticks IH]; intros sys H; [exact H|].
  apply IH, step_unbounded, H.
Qed.

Lemma for_each_put_unbounded (new_emails : list email_data) :
  forall w : SmartPolling.W,
    unbounded w ->
    let r := for_each new_emails
               (fun e => SmartPolling.queue_put (Some e)) w in
    r.2 = Returns tt /\
    items (queue_of r.1) = (items (queue_of w) ++ (Some <$> new_emails))%list /\
    unbounded r.1.
Proof.
  induction new_emails as [|e rest IH]; intros w Hw.
  - cbn. by rewrite app_nil_r.
  - cbn [for_each]. unfold bind.
    unfold SmartPolling.queue_put at 1 3 5, put, full.
    unfold unbounded, queue_of in Hw. rewrite Hw. cbn.
    match goal with
    | |- context [for_each rest ?f ?w1] =>
        pose proof (IH w1 eq_refl) as (Hr & Hi & Hu);
        destruct (for_each rest f w1) as [w2 o]
    end.
    cbn in Hr, Hi, Hu. subst o. cbn. split; [reflexivity|].
    split; [|exact Hu].
    rewrite Hi. unfold queue_of. cbn. rewrite <- app_assoc. reflexivity.
Qed.

(** C6 (amended): the queue is the unbounded [queue.Queue()]; in every
    reachable state its [maxsize] is 0, so enqueuing any batch of messages
    returns without blocking and leaves every message in the queue, in
    order, behind the items already there. *)
Theorem enqueue_never_blocks_nor_drops
    (address : string) (now : Q) (ticks : list SmartPolling.tick)
    (new_emails : list email_data) :
  let w := SmartPolling.state
             (SmartPolling.run ticks
                (SmartPolling.start_monitoring (fresh_world address now))) in
  let r := for_each new_emails
             (fun e => SmartPolling.queue_put (Some e)) w in
  maxsize (queue_of w) = 0 /\
  r.2 = Returns tt /\
  items (queue_of r.1) = (items (queue_of w) ++ (Some <$> new_emails))%list.
Proof.
  cbv zeta.
  assert (H : unbounded
                (SmartPolling.state
                   (SmartPolling.run ticks
                      (SmartPolling.start_monitoring
                         (fresh_world address now))))).
  { apply run_unbounded. reflexivity. }
  split; [exact H|].
  destruct (for_each_put_unbounded new_emails _ H) as (Hr & Hi & _).
  split; assumption.
Qed.

(** ** Errors do not end the loops *)

Lemma step_live (sys : SmartPolling.system) (t : SmartPolling.tick) :
  t <> SmartPolling.StopSignal ->
  live (SmartPolling.state sys) -> both_in_loop sys ->
  live (SmartPolling.state (SmartPolling.step sys t)) /\
  both_in_loop (SmartPolling.step sys t).
Proof.
  intros Ht Hl [Hw Hp].
  assert (Hrun : SmartPolling.running (self (SmartPolling.state sys)) = true)
    by apply Hl.
  destruct t as [srv fault|srv since_date now pt fault|]; [| |congruence];
    unfold SmartPolling.step.
  - destruct (SmartPolling.worker sys) eqn:E;
      [|congruence|split; [exact Hl | split; [rewrite E; discriminate
                                            | exact Hp]]].
    rewrite Hrun. cbn [negb].
    pose proof (worker_body_preserves live keeps_queue_live queue_get_live
                  srv fault (SmartPolling.state sys) Hl) as Hb.
    pose proof (worker_body_no_raise srv fault (SmartPolling.state sys)) as Hn.
    pose proof (worker_body_continues srv fault (SmartPolling.state sys)
                  (proj2 (proj2 Hl))) as Hc.
    destruct (SmartPolling.email_processor_worker_body srv fault _)
      as [w [c|ex|]]; cbn in Hb, Hn, Hc.
    + rewrite (Hc c eq_refl).
      split; [exact Hb | split; [discriminate | exact Hp]].
    + exfalso. apply (Hn ex). reflexivity.
    + split; [exact Hb | split; [discriminate | exact Hp]].
  - destruct (SmartPolling.poller sys) eqn:E;
      [|congruence|split; [exact Hl | split; [exact Hw
                                            | rewrite E; discriminate]]].
    rewrite Hrun. cbn [negb].
    pose proof (polling_body_preserves live keeps_queue_live queue_put_live
                  srv since_date now pt fault (SmartPolling.state sys) Hl)
      as Hb.
    pose proof (polling_body_no_raise srv since_date now pt fault
                  (SmartPolling.state sys)) as Hn.
    destruct (SmartPolling.smart_polling_body srv since_date now pt fault _)
      as [w [[]|ex|]]; cbn in Hb, Hn.
    + split; [exact Hb | split; [exact Hw | discriminate]].
    + exfalso. apply (Hn ex). reflexivity.
    + split; [exact Hb | split; [exact Hw | discriminate]].
Qed.

Lemma run_live (ticks : list SmartPolling.tick) :
  SmartPolling.StopSignal ∉ ticks ->
  forall sys, live (SmartPolling.state sys) -> both_in_loop sys ->
              live (SmartPolling.state (SmartPolling.run ticks sys)) /\
              both_in_loop (SmartPolling.run ticks sys).
Proof.
  induction ticks as [|t ticks IH]; intros Hno sys Hl Hb; [by split|].
  apply not_elem_of_cons in Hno as [Hne Hno].
  destruct (step_live sys t) as [Hl' Hb']; auto.
  apply (IH Hno _ Hl' Hb').
Qed.

Lemma after_get_head (w : SmartPolling.W) (e : email_data)
    (rest : list (option email_data)) :
  items (queue_of w) = Some e :: rest ->
  SmartPolling.queue_get w = (after_get w, Returns (Some e)) /\
  items (queue_of (after_get w)) = rest.
Proof.
  unfold after_get, SmartPolling.queue_get, get_item, queue_of.
  intros ->. cbn. split; reflexivity.
Qed.

Lemma worker_body_draft (srv : Imap.server) (w w2 : SmartPolling.W)
    (e : email_data) (rest : list (option email_data)) (saved : bool) :
  items (queue_of w) = Some e :: rest ->
  SmartPolling.save_reply_as_draft srv e (create_standard_reply e)
    (after_get w) = (w2, Returns saved) ->
  SmartPolling.email_processor_worker_body srv (Returns tt) w
    = ((log (if saved then INFO else ERROR)
            (if saved
             then "Successfully processed email: " ++ subject e
             else "Failed to process email: " ++ subject e) w2).1,
       Returns SmartPolling.Continue).
Proof.
  intros Hq Hs. destruct (after_get_head w e rest Hq) as [Hg _].
  unfold SmartPolling.email_processor_worker_body, try_except, mbind, M_bind,
    bind, call.
  rewrite Hg, Hs. destruct saved; reflexivity.
Qed.

Lemma worker_body_fault (srv : Imap.server) (w : SmartPolling.W)
    (e : email_data) (rest : list (option email_data)) (ex : exn) :
  items (queue_of w) = Some e :: rest ->
  SmartPolling.email_processor_worker_body srv (Raises ex) w
    = ((log ERROR "Error in email processor worker" (after_get w)).1,
       Returns SmartPolling.Continue) \/
  (ex = QueueEmpty /\
   SmartPolling.email_processor_worker_body srv (Raises ex) w
     = (after_get w, Returns SmartPolling.Continue)).
Proof.
  intros Hq. destruct (after_get_head w e rest Hq) as [Hg _].
  unfold SmartPolling.email_processor_worker_body, try_except, mbind, M_bind,
    bind, call.
  rewrite Hg. destruct ex; [right; split; reflexivity | left | left];
    reflexivity.
Qed.

(** C8, as stated, fails for a failed draft append: when the server
    answers NO to APPEND, [save_reply_as_draft] returns True, and the
    worker logs the message as successfully processed; no record of the
    failure is written. *)
Lemma refused_append_is_logged_as_success :
  let found := SmartPolling.run
                 [SmartPolling.PollerTick append_refused "01-Jan-2025" 5%Q
                    1%Q (Returns tt)]
                 (SmartPolling.start_monitoring
                    (fresh_world "support@example.com" 0%Q)) in
  let r := SmartPolling.email_processor_worker_body append_refused
             (Returns tt) (SmartPolling.state found) in
  items (queue_of (SmartPolling.state found)) = [Some (email_of "42" hello)] /\
  Imap.append append_refused "Drafts" = Returns Imap.NO /\
  r.2 = Returns SmartPolling.Continue /\
  last (wire r.1) = Some Imap.Logout /\
  Imap.Append "Drafts" "\Draft"
    (build_reply "support@example.com" (email_of "42" hello)
       (create_standard_reply (email_of "42" hello))) ∈ wire r.1 /\
  last (logs r.1)
    = Some (INFO, "Successfully processed email: Need help") /\
  Forall (fun l => l.1 <> ERROR) (logs r.1).
Proof.
  cbv zeta. split; [vm_compute; reflexivity|]. split; [reflexivity|].
  split; [vm_compute; reflexivity|]. split; [vm_compute; reflexivity|].
  split; [|split; [vm_compute; reflexivity|]].
  - assert (Hw : wire (SmartPolling.email_processor_worker_body append_refused
                         (Returns tt)
                         (SmartPolling.state
                            (SmartPolling.run
                               [SmartPolling.PollerTick append_refused
                                  "01-Jan-2025" 5%Q 1%Q (Returns tt)]
                               (SmartPolling.start_monitoring
                                  (fresh_world "support@example.com" 0%Q))))).1
                 = [Imap.Connect; Imap.Login; Imap.Select "INBOX";
                    Imap.Search "(UNSEEN SINCE 01-Jan-2025)";
                    Imap.Fetch "42"; Imap.Close; Imap.Logout;
                    Imap.Connect; Imap.Login; Imap.Select "Drafts";
                    Imap.Append "Drafts" "\Draft"
                      (build_reply "support@example.com" (email_of "42" hello)
                         (create_standard_reply (email_of "42" hello)));
                    Imap.Close; Imap.Logout])
      by (vm_compute; reflexivity).
    rewrite Hw. do 10 apply list_elem_of_further. apply list_elem_of_here.
  - assert (Hl : (fun l : level * string => l.1) <$>
                 logs (SmartPolling.email_processor_worker_body append_refused
                         (Returns tt)
                         (SmartPolling.state
                            (SmartPolling.run
                               [SmartPolling.PollerTick append_refused
                                  "01-Jan-2025" 5%Q 1%Q (Returns tt)]
                               (SmartPolling.start_monitoring
                                  (fresh_world "support@example.com" 0%Q))))).1
                 = [INFO; DEBUG; INFO; INFO])
      by (vm_compute; reflexivity).
    apply Forall_forall. intros l Hin Herr.
    assert (Hmem : l.1 ∈ [INFO; DEBUG; INFO; INFO]).
    { rewrite <- Hl. apply list_elem_of_fmap. exists l. split; [reflexivity|exact Hin]. }
    rewrite Herr in Hmem.
    repeat (apply elem_of_cons in Hmem as [Hmem|Hmem]; [discriminate|]).
    inversion Hmem.
Qed.

(** C8 (amended): as long as no stop signal arrives, whatever the servers
    answer and whatever is raised, neither loop ends and the flag stays
    set. For a queued message the worker logs what [save_reply_as_draft]
    reports, a failure when it returns False (the connection failed or an
    exception was raised) and a success when it returns True, and goes on
    with the rest of the queue; an exception in the worker body (other
    than queue.Empty) is logged as an error and the item is not put back;
    an exception in the polling body is logged and followed by a 30 second
    sleep, after which the loop goes on. *)
Theorem errors_never_stop_the_loops
    (address : string) (now : Q) (ticks : list SmartPolling.tick) :
  SmartPolling.StopSignal ∉ ticks ->
  let sys := SmartPolling.run ticks
               (SmartPolling.start_monitoring (fresh_world address now)) in
  SmartPolling.worker sys <> SmartPolling.Exited /\
  SmartPolling.poller sys <> SmartPolling.Exited /\
  SmartPolling.running (self (SmartPolling.state sys)) = true /\
  (forall srv e rest saved,
     items (queue_of (SmartPolling.state sys)) = Some e :: rest ->
     (SmartPolling.save_reply_as_draft srv e (create_standard_reply e)
        (after_get (SmartPolling.state sys))).2 = Returns saved ->
     let r := SmartPolling.email_processor_worker_body srv (Returns tt)
                (SmartPolling.state sys) in
     r.2 = Returns SmartPolling.Continue /\
     items (queue_of r.1) = rest /\
     last (logs r.1)
       = Some (if saved
               then (INFO, "Successfully processed email: " ++ subject e)
               else (ERROR, "Failed to process email: " ++ subject e))) /\
  (forall srv e rest ex,
     items (queue_of (SmartPolling.state sys)) = Some e :: rest ->
     let r := SmartPolling.email_processor_worker_body srv (Raises ex)
                (SmartPolling.state sys) in
     r.2 = Returns SmartPolling.Continue /\
     items (queue_of r.1) = rest /\
     (ex <> QueueEmpty ->
      last (logs r.1) = Some (ERROR, "Error in email processor worker"))) /\
  (forall srv since_date now' processing_time ex,
     let r := SmartPolling.smart_polling_body srv since_date now'
                processing_time (Raises ex) (SmartPolling.state sys) in
     r.2 <> Blocked ->
     r.2 = Returns tt /\
     last (slept r.1) = Some 30%Q /\
     last (logs r.1) = Some (ERROR, "Error in smart polling loop")).
Proof.
  intros Hno sys.
  destruct (run_live ticks Hno
              (SmartPolling.start_monitoring (fresh_world address now)))
    as [Hl [Hw Hp]].
  { repeat split. constructor. }
  { split; discriminate. }
  fold sys in Hl, Hw, Hp.
  split; [exact Hw|]. split; [exact Hp|]. split; [apply Hl|].
  generalize (SmartPolling.state sys). clear. intros w.
  split; [|split].
  - intros srv e rest saved Hq Hs.
    destruct (SmartPolling.save_reply_as_draft srv e (create_standard_reply e)
                (after_get w)) as [w2 o] eqn:Hd.
    cbn in Hs. subst o.
    rewrite (worker_body_draft srv w w2 e rest saved Hq Hd). cbn.
    split; [reflexivity|].
    split; [|destruct saved; apply last_snoc].
    pose proof (save_reply_as_draft_keeps_queue srv e
                  (create_standard_reply e) (after_get w)) as [_ Hk].
    rewrite Hd in Hk. cbn in Hk. unfold queue_of in *. cbn.
    rewrite Hk. apply (after_get_head w e rest Hq).
  - intros srv e rest ex Hq.
    destruct (worker_body_fault srv w e rest ex Hq) as [->|[-> ->]]; cbn.
    + split; [reflexivity|]. split; [|intros _; apply last_snoc].
      apply (after_get_head w e rest Hq).
    + split; [reflexivity|]. split; [|congruence].
      apply (after_get_head w e rest Hq).
  - intros srv since_date now' pt ex.
    unfold SmartPolling.smart_polling_body, try_except, mbind, M_bind, bind,
      call.
    destruct (SmartPolling.get_new_emails srv since_date w)
      as [w1 [emails|ex1|]]; cbn.
    + destruct (for_each emails _ w1) as [w2 [[]|ex2|]]; cbn.
      * intros _. split; [reflexivity|].
        split; [apply last_snoc | apply last_snoc].
      * intros _. split; [reflexivity|].
        split; [apply last_snoc | apply last_snoc].
      * intros H. congruence.
    + intros _. split; [reflexivity|].
      split; [apply last_snoc | apply last_snoc].
    + intros H. congruence.
Qed.

Lemma errors_never_stop_the_loops_witness :
  let failing := answering (Imap.NO, []) (fun _ => Raises Exception) in
  let ticks :=
    [SmartPolling.PollerTick failing "01-Jan-2025" 5%Q (1 # 10)%Q
       (Raises Exception);
     SmartPolling.WorkerTick failing (Raises Exception)] in
  let sys := SmartPolling.run ticks
               (SmartPolling.start_monitoring
                  (fresh_world "support@example.com" 0%Q)) in
  SmartPolling.worker sys <> SmartPolling.Exited /\
  SmartPolling.poller sys <> SmartPolling.Exited.
Proof.
  cbv zeta.
  destruct (errors_never_stop_the_loops "support@example.com" 0%Q
              [SmartPolling.PollerTick
                 (answering (Imap.NO, []) (fun _ => Raises Exception))
                 "01-Jan-2025" 5%Q (1 # 10)%Q (Raises Exception);
               SmartPolling.WorkerTick
                 (answering (Imap.NO, []) (fun _ => Raises Exception))
                 (Raises Exception)])
    as (Hw & Hp & _).
  - intros H. apply elem_of_cons in H as [H|H]; [discriminate|].
    apply elem_of_cons in H as [H|H]; [discriminate|]. inversion H.
  - split; assumption.
Defined.

(** ** The push-mode watcher and its fallback *)

Global Instance quiet_preorder : PreOrder quiet.
Proof.
  split.
  - intros w. split; [reflexivity | auto].
  - intros a b c [H1 H2] [H3 H4]. split; [etransitivity; eassumption | auto].
Qed.

Ltac frame_quiet :=
  split; [frame_wire ltac:(unfold not_idle; discriminate)
        | cbn; intros Hflag; first [exact Hflag | discriminate Hflag]].

Lemma draft_quiet (srv : Imap.server) (e : email_data) (reply_body : string) :
  respects quiet (Idle.save_reply_as_draft srv e reply_body).
Proof.
  unfold Idle.save_reply_as_draft, save_reply_as_draft.
  respects_auto frame_quiet.
Qed.

Lemma process_new_email_quiet (srv : Imap.server) (email_id : string) :
  respects quiet (Idle.process_new_email srv email_id).
Proof.
  pose proof draft_quiet as Hd.
  unfold Idle.process_new_email. respects_auto frame_quiet.
Qed.

Lemma recent_loop_quiet (srv : Imap.server) (email_ids : list string) :
  respects quiet (Idle.recent_loop srv email_ids).
Proof.
  pose proof process_new_email_quiet as Hp.
  induction email_ids as [|email_id rest IH]; cbn [Idle.recent_loop].
  - apply respects_ret; apply _.
  - unfold Idle.mark_processed. respects_auto frame_quiet.
Qed.

Lemma process_recent_emails_quiet (srv : Imap.server) :
  respects quiet (Idle.process_recent_emails srv).
Proof.
  pose proof recent_loop_quiet as Hl.
  unfold Idle.process_recent_emails. respects_auto frame_quiet.
Qed.

Lemma fallback_segment_quiet (i : Idle.input) :
  respects quiet (Idle.guarded i (Idle.fallback_segment i)).
Proof.
  pose proof process_recent_emails_quiet as Hp.
  unfold Idle.guarded, Idle.fallback_segment, Idle.fallback_polling_body,
    Idle.reconnect_handler.
  respects_auto frame_quiet.
Qed.

Lemma stop_monitoring_quiet (srv : Imap.server) (sent : outcome unit) :
  respects quiet (Idle.stop_monitoring srv sent).
Proof.
  unfold Idle.stop_monitoring. respects_auto frame_quiet.
Qed.

(** The fallback body catches everything, so the reconnect handler of the
    outer [try] is never entered from it. *)
Lemma fallback_segment_stays (i : Idle.input) (w : Idle.W) :
  (Idle.exec (Idle.guarded i (Idle.fallback_segment i)) w).1 = Idle.Fallback \/
  (Idle.exec (Idle.guarded i (Idle.fallback_segment i)) w).1 = Idle.Finished.
Proof.
  assert (Hn : no_raise (Idle.fallback_polling_body (Idle.srv i)
                           (Idle.fault i))).
  { apply no_raise_try_except. intros e.
    apply no_raise_bind; [apply no_raise_modify|].
    intros; apply no_raise_modify. }
  unfold Idle.exec, Idle.guarded, Idle.fallback_segment, try_except, mbind,
    M_bind, bind, mret, M_ret, ret.
  specialize (Hn w).
  destruct (Idle.fallback_polling_body (Idle.srv i) (Idle.fault i) w)
    as [w' [[]|e|]]; cbn in *.
  - left. reflexivity.
  - exfalso. apply (Hn e). reflexivity.
  - right. reflexivity.
Qed.

Lemma idle_step_in_fallback (st : Idle.pc * Idle.W) (i : Idle.input) :
  in_fallback st ->
  in_fallback (Idle.idle_step st i) /\ quiet st.2 (Idle.idle_step st i).2.
Proof.
  intros Hin. unfold Idle.idle_step.
  set (w := if Idle.stop i
            then (Idle.stop_monitoring (Idle.srv i) (Idle.sent i) st.2).1
            else st.2).
  assert (Hw : quiet st.2 w).
  { subst w. destruct (Idle.stop i); [apply stop_monitoring_quiet|reflexivity]. }
  destruct st as [pc w0]. unfold in_fallback in Hin. cbn [fst snd] in *.
  destruct Hin as [Hpc|[Hpc|[Hpc Hr]]]; subst pc.
  - destruct (Idle.running (self w)) eqn:Hlive.
    + pose proof (fallback_segment_quiet i w) as Hq.
      pose proof (fallback_segment_stays i w) as Hs.
      unfold Idle.exec in *.
      destruct (Idle.guarded i (Idle.fallback_segment i) w) as [w' o].
      split.
      * destruct o as [next|e|]; cbn in *;
          destruct Hs as [Hs|Hs]; unfold in_fallback; cbn; auto.
      * destruct o as [next|e|]; cbn in *; etransitivity; eassumption.
    + split; [right; right; split; [reflexivity|exact Hlive] | exact Hw].
  - split; [right; left; reflexivity | exact Hw].
  - assert (Hlive : Idle.running (self w) = false).
    { destruct (Idle.running (self w)) eqn:E; [|reflexivity].
      destruct Hw as [_ Hm]. rewrite (Hm E) in Hr. discriminate. }
    rewrite Hlive. split; [right; left; reflexivity | exact Hw].
Qed.

Lemma idle_run_in_fallback (inputs : list Idle.input) :
  forall st, in_fallback st ->
             in_fallback (Idle.idle_run inputs st) /\
             quiet st.2 (Idle.idle_run inputs st).2.
Proof.
  induction inputs as [|i inputs IH]; intros st Hin.
  - split; [exact Hin | reflexivity].
  - destruct (idle_step_in_fallback st i Hin) as [Hin' Hq].
    destruct (IH _ Hin') as [Hin'' Hq'].
    split; [exact Hin''|]. cbn. etransitivity; eassumption.
Qed.

(** C3: once [idle_loop] has entered [fallback_polling], whatever happens
    afterwards no IDLE command is sent again: the loop stays in the
    fallback until the flag is cleared, and then returns. *)
Theorem fallback_is_permanent
    (w0 : Idle.W) (before after : list Idle.input) :
  let st1 := Idle.idle_run before (Idle.start_monitoring w0) in
  let st2 := Idle.idle_run after st1 in
  st1.1 = Idle.Fallback ->
  (exists t, wire st2.2 = (wire st1.2 ++ t)%list /\ Imap.Idle ∉ t) /\
  (st2.1 = Idle.Fallback \/ st2.1 = Idle.Finished \/
   (st2.1 = Idle.Outer /\ Idle.running (self st2.2) = false)).
Proof.
  intros st1 st2 Hpc.
  destruct (idle_run_in_fallback after st1) as [Hin [(t & Ht & Hok) _]].
  { left. exact Hpc. }
  split; [|exact Hin].
  exists t. split; [exact Ht|].
  intros Hmem. rewrite Forall_forall in Hok. apply (Hok _ Hmem). reflexivity.
Qed.

Lemma fallback_is_permanent_witness :
  let unsupported :=
    Idle.mkInput false
      (answering (Imap.OK, []) (fun _ => Raises Exception))
      (Returns tt) (Returns false) (Returns false) (Returns false)
      (Returns tt) (Returns tt) in
  let w0 := mkWorld (Idle.init "support@example.com") 0 [] [] [] [] in
  let st1 := Idle.idle_run [unsupported; unsupported]
               (Idle.start_monitoring w0) in
  let st2 := Idle.idle_run [unsupported; unsupported; unsupported] st1 in
  st1.1 = Idle.Fallback /\
  (exists t, wire st2.2 = (wire st1.2 ++ t)%list /\ Imap.Idle ∉ t).
Proof.
  cbv zeta. split; [reflexivity|].
  apply (fallback_is_permanent
           (mkWorld (Idle.init "support@example.com") 0 [] [] [] [])
           [Idle.mkInput false
              (answering (Imap.OK, []) (fun _ => Raises Exception))
              (Returns tt) (Returns false) (Returns false) (Returns false)
              (Returns tt) (Returns tt);
            Idle.mkInput false
              (answering (Imap.OK, []) (fun _ => Raises Exception))
              (Returns tt) (Returns false) (Returns false) (Returns false)
              (Returns tt) (Returns tt)]).
  reflexivity.
Defined.

(** ** Template selection *)

Lemma rstrip_keeps_head (c : ascii) (s : string) :
  isspace c = false -> rstrip (String c s) <> EmptyString.
Proof.
  intros Hc. cbn [rstrip]. destruct (rstrip s); [rewrite Hc|]; discriminate.
Qed.

Lemma lstrip_whitespace_only (s : string) :
  if whitespace_only s then lstrip s = EmptyString
  else exists c s', lstrip s = String c s' /\ isspace c = false.
Proof.
  induction s as [|c s IH]; cbn; [reflexivity|].
  destruct (isspace c) eqn:Hc; cbn; [exact IH|]. eauto.
Qed.

Lemma strip_truthy (s : string) :
  truthy_str (strip s) = negb (whitespace_only s).
Proof.
  unfold strip. pose proof (lstrip_whitespace_only s) as H.
  destruct (whitespace_only s); cbn.
  - rewrite H. reflexivity.
  - destruct H as (c & s' & -> & Hc).
    pose proof (rstrip_keeps_head c s' Hc) as Hne.
    destruct (rstrip (String c s')); [contradiction | reflexivity].
Qed.

(** The scan returns a row of least distance. *)
Lemma scan_spec (ds : list Q) :
  forall (i best_i : nat) (best_d : Q),
    let r := FaissLib.scan i best_i best_d ds in
    (r.1 <= best_d)%Q /\
    Forall (fun d => (r.1 <= d)%Q) ds /\
    ((r.2 = best_i /\ r.1 = best_d) \/
     (i <= r.2 < i + List.length ds /\ ds !! (r.2 - i) = Some r.1)).
Proof.
  induction ds as [|d ds IH]; intros i best_i best_d.
  - cbn. split; [apply Qle_refl|]. split; [constructor | left; by split].
  - cbn [FaissLib.scan]. destruct (Qltb d best_d) eqn:E.
    + apply Qltb_true in E.
      destruct (IH (S i) i d) as (H1 & H2 & H3). cbv zeta.
      split; [eapply Qle_trans; [exact H1 | apply Qlt_le_weak, E]|].
      split; [constructor; assumption|]. right.
      destruct H3 as [[-> ->]|[Hr Hl]].
      * split; [cbn; lia|]. by rewrite Nat.sub_diag.
      * split; [cbn; lia|].
        replace (_ - i) with (S (FaissLib.scan (S i) i d ds).2 - S i)%nat
          by lia.
        destruct Hr as [Hr _].
        replace (S (FaissLib.scan (S i) i d ds).2 - S i)%nat
          with (S ((FaissLib.scan (S i) i d ds).2 - S i)) by lia.
        exact Hl.
    + apply Qltb_false in E.
      destruct (IH (S i) best_i best_d) as (H1 & H2 & H3). cbv zeta.
      split; [exact H1|].
      split; [constructor; [eapply Qle_trans; eassumption | exact H2]|].
      destruct H3 as [H3|[Hr Hl]]; [left; exact H3 | right].
      split; [cbn; lia|].
      replace (_ - i) with (S ((FaissLib.scan (S i) best_i best_d ds).2 - S i))
        by lia.
      exact Hl.
Qed.

(** [search] on a non-empty index: the label is a valid row and no row is
    nearer to the query. *)
Lemma search_spec (index : list (list Q)) (query : list Q) :
  index <> [] ->
  let r := FaissLib.search index query in
  exists k : nat,
    r.2 = Z.of_nat k /\
    (FaissLib.l2_sqr query <$> index) !! k = Some r.1 /\
    forall j d, (FaissLib.l2_sqr query <$> index) !! j = Some d ->
                (r.1 <= d)%Q.
Proof.
  intros Hne. cbv zeta.
  destruct index as [|row rows]; [contradiction|].
  assert (Heq : FaissLib.search (row :: rows) query =
                let '(best_d, best_i) :=
                  FaissLib.scan 1 0 (FaissLib.l2_sqr query row)
                    (FaissLib.l2_sqr query <$> rows) in
                (best_d, Z.of_nat best_i)) by reflexivity.
  rewrite Heq. clear Heq. rewrite fmap_cons.
  pose proof (scan_spec (FaissLib.l2_sqr query <$> rows) 1 0
                (FaissLib.l2_sqr query row)) as (H1 & H2 & H3).
  cbv zeta in H1, H2, H3.
  destruct (FaissLib.scan 1 0 (FaissLib.l2_sqr query row)
              (FaissLib.l2_sqr query <$> rows)) as [best_d best_i].
  cbn [fst snd] in *.
  exists best_i. split; [reflexivity|]. split.
  - destruct H3 as [[-> ->]|[Hr Hl]]; [reflexivity|].
    destruct best_i as [|k]; [lia|]. cbn.
    replace (S k - 1) with k in Hl by lia. exact Hl.
  - intros [|j] d Hd; cbn in Hd.
    + injection Hd as <-. exact H1.
    + rewrite Forall_forall in H2. apply H2.
      eapply list_elem_of_lookup_2. exact Hd.
Qed.

Lemma getitem_lookup {A} (l : list A) (k : nat) (x : A) :
  l !! k = Some x -> getitem l (Z.of_nat k) = Returns x.
Proof.
  intros H. unfold getitem.
  pose proof (lookup_lt_Some _ _ _ H) as Hlt.
  destruct (Z.ltb_spec (Z.of_nat k) 0) as [Hneg|_]; [lia|].
  destruct (Z.leb_spec 0 (Z.of_nat k)) as [_|Hneg]; [|lia].
  destruct (Z.ltb_spec (Z.of_nat k) (Z.of_nat (List.length l))) as [_|Hge];
    [|lia].
  cbn. rewrite Nat2Z.id.
  rewrite <- (nth_lookup_Some _ _ x _ H) at 1.
  destruct (nth_error l k) eqn:E.
  - apply nth_error_nth with (d:=x) in E. rewrite nth_lookup in *.
    rewrite E. reflexivity.
  - apply nth_error_None in E. lia.
Qed.

(** [select_template] of zoho_faiss.py does what C5 says: a body that is
    empty or all whitespace gets the general reply (the third template)
    and the model is not called; any other body is encoded once and gets a
    template whose embedding is at least distance from it. *)
Theorem faiss_select_template_spec
    (encode : string -> list Q) (email_body : string) (w : Faiss.W) :
  let r := Faiss.select_template encode email_body w in
  if whitespace_only email_body then
    (exists general,
       Faiss.EMAIL_TEMPLATES !! 2 = Some general /\
       r.2 = Returns general) /\
    encoded r.1 = encoded w
  else
    encoded r.1 = (encoded w ++ [email_body])%list /\
    exists k template,
      Faiss.EMAIL_TEMPLATES !! k = Some template /\
      r.2 = Returns template /\
      forall j other,
        Faiss.EMAIL_TEMPLATES !! j = Some other ->
        (distance encode email_body template
           <= distance encode email_body other)%Q.
Proof.
  cbv zeta. unfold Faiss.select_template. rewrite strip_truthy.
  destruct (whitespace_only email_body); cbn [negb].
  - cbn. split; [|reflexivity]. eexists. split; reflexivity.
  - unfold Faiss.model_encode, record_encode, log.
    with_strategy opaque [FaissLib.search getitem Faiss.EMAIL_TEMPLATES]
      run_monad.
    pose proof (search_spec (Faiss.faiss_index encode) (encode email_body))
      as Hs.
    destruct Hs as (k & Hk & Hd & Hmin); [discriminate|].
    destruct (FaissLib.search (Faiss.faiss_index encode) (encode email_body))
      as [d label].
    cbn [fst snd] in *. subst label.
    unfold Faiss.faiss_index in Hd, Hmin.
    change (List.map encode Faiss.EMAIL_TEMPLATES)
      with (encode <$> Faiss.EMAIL_TEMPLATES) in Hd, Hmin.
    rewrite <- list_fmap_compose in Hd, Hmin.
    rewrite list_lookup_fmap in Hd.
    destruct (Faiss.EMAIL_TEMPLATES !! k) as [template|] eqn:Ht;
      [|discriminate].
    cbn in Hd. injection Hd as Hd.
    rewrite (getitem_lookup _ _ _ Ht). cbn.
    split; [reflexivity|].
    exists k, template. split; [exact Ht|]. split; [reflexivity|].
    intros j other Hj. unfold distance.
    rewrite Hd. apply (Hmin j).
    rewrite list_lookup_fmap, Hj. reflexivity.
Qed.

(** C5 fails in gmail_auto_reply_with_faiss.py: [select_template] has no
    guard, so on an empty body it calls the model and returns the nearest
    template, here the first one and not the general reply; on the same
    input and the same model zoho_faiss.py returns its general reply
    without calling the model. *)
Theorem gmail_select_template_encodes_empty_body :
  (let r := Gmail.select_template keyed_encode ""
              (mkWorld tt 0 [] [] [] []) in
   encoded r.1 = [""] /\
   exists meeting,
     r.2 = Returns meeting /\
     Gmail.EMAIL_TEMPLATES !! 0 = Some meeting /\
     Gmail.EMAIL_TEMPLATES !! 2 <> Some meeting) /\
  (let r := Faiss.select_template keyed_encode ""
              (mkWorld (Faiss.mkProcessor "support@example.com" ∅)
                       0 [] [] [] []) in
   encoded r.1 = [] /\
   exists general,
     r.2 = Returns general /\
     Faiss.EMAIL_TEMPLATES !! 2 = Some general).
Proof.
  cbv zeta. split; (split; [vm_compute; reflexivity|]).
  - eexists. split; [vm_compute; reflexivity|].
    split; [vm_compute; reflexivity | vm_compute; discriminate].
  - eexists. split; vm_compute; reflexivity.
Qed.

(** ** Deduplication in [process_recent_emails] *)

Lemma fetches_app (x : string) (t1 t2 : list Imap.op) :
  fetches x (t1 ++ t2) = fetches x t1 + fetches x t2.
Proof. unfold fetches. rewrite List.filter_app, length_app. reflexivity. Qed.

Lemma fetches_none (x : string) (t : list Imap.op) :
  Forall not_fetch t -> fetches x t = 0.
Proof.
  unfold fetches. induction 1 as [|o t Ho _ IH]; [reflexivity|].
  cbn. rewrite (Ho x). exact IH.
Qed.

Global Instance calm_preorder : PreOrder calm.
Proof.
  split.
  - intros w. split; reflexivity.
  - intros a b c [H1 H2] [H3 H4]. split; etransitivity; eassumption.
Qed.

Ltac frame_calm :=
  split; [frame_wire ltac:(intros ?; reflexivity) | frame_self].

Lemma draft_calm (srv : Imap.server) (e : email_data) (reply_body : string) :
  respects calm (Idle.save_reply_as_draft srv e reply_body).
Proof.
  unfold Idle.save_reply_as_draft, save_reply_as_draft.
  respects_auto frame_calm.
Qed.

(** [process_new_email] sends FETCH for its ref, then no other FETCH; it
    leaves the attributes alone and lets no exception out. *)
Lemma process_new_email_spec (srv : Imap.server) (email_id : string)
    (w : Idle.W) :
  let r := Idle.process_new_email srv email_id w in
  calm (idle_after_fetch email_id w) r.1 /\ (forall e, r.2 <> Raises e).
Proof.
  cbv zeta. split.
  - pose proof draft_calm as Hd.
    set (rest :=
           try_except
             (r ← call (Imap.fetch srv email_id);
              if negb (Imap.is_ok r.1) then mret tt
              else
                m ← call r.2;
                let email_data := email_of email_id m in
                log INFO ("Processing new email from " ++ sender email_data
                          ++ ": " ++ subject email_data);;
                let reply_body := create_standard_reply email_data in
                _ ← Idle.save_reply_as_draft srv email_data reply_body;
                mret tt)
             (fun _ => log ERROR ("Error processing email " ++ email_id))
           : M Idle.W unit).
    assert (Hrest : respects calm rest)
      by (subst rest; respects_auto frame_calm).
    change (Idle.process_new_email srv email_id w)
      with (rest (idle_after_fetch email_id w)).
    apply Hrest.
  - apply (no_raise_try_except
             _ (fun _ => log ERROR ("Error processing email " ++ email_id))).
    intros e. apply no_raise_modify.
Qed.

Lemma dispatch_once_refl (x : string) (b : bool) (w : Idle.W) :
  dispatch_once x b w w.
Proof.
  split; [reflexivity|]. exists []. rewrite app_nil_r.
  repeat split; cbn; auto; lia.
Qed.

Lemma dispatch_once_trans (x : string) (b : bool) (w w1 w2 : Idle.W) :
  dispatch_once x true w w1 -> dispatch_once x b w1 w2 ->
  dispatch_once x b w w2.
Proof.
  intros (Hs1 & t1 & Hw1 & Hc1 & Hk1 & Hf1) (Hs2 & t2 & Hw2 & Hc2 & Hk2 & Hf2).
  split; [etransitivity; eassumption|].
  exists (t1 ++ t2)%list. rewrite fetches_app.
  split; [by rewrite Hw2, Hw1, app_assoc|].
  assert (Hcase : fetches x t1 = 0 \/ fetches x t1 = 1) by lia.
  destruct Hcase as [H0|H1].
  - rewrite H0. cbn. split; [exact Hc2|]. split.
    + intros Hx. apply Hk2, Hs1, Hx.
    + exact Hf2.
  - specialize (Hf1 eq_refl H1). rewrite (Hk2 Hf1), H1.
    split; [lia|]. split.
    + intros Hx. specialize (Hk1 Hx). lia.
    + intros _ _. apply Hs2, Hf1.
Qed.

Lemma dispatch_once_calm (x : string) (b : bool) (w w' : Idle.W) :
  calm w w' -> dispatch_once x b w w'.
Proof.
  intros [(t & Ht & Hnf) Hself]. unfold same_self in Hself.
  split; [unfold idle_processed; by rewrite Hself|].
  exists t. rewrite (fetches_none x t Hnf).
  repeat split; auto; lia.
Qed.

Lemma dispatch_once_unfinished (x : string) (b : bool) (w w' : Idle.W) :
  dispatch_once x b w w' -> dispatch_once x false w w'.
Proof.
  intros (Hs & t & Hw & Hc & Hk & _). split; [exact Hs|].
  exists t. repeat split; auto. discriminate.
Qed.

Lemma recent_loop_known (srv : Imap.server) (email_id : string)
    (rest : list string) (w : Idle.W) :
  email_id ∈ idle_processed w ->
  Idle.recent_loop srv (email_id :: rest) w = Idle.recent_loop srv rest w.
Proof.
  intros Hin. cbn [Idle.recent_loop].
  unfold mbind, M_bind, bind, get_self.
  destruct (decide (email_id ∈ Idle.processed_emails (self w)));
    [reflexivity | contradiction].
Qed.

Lemma recent_loop_unknown (srv : Imap.server) (email_id : string)
    (rest : list string) (w : Idle.W) :
  email_id ∉ idle_processed w ->
  Idle.recent_loop srv (email_id :: rest) w =
    match Idle.process_new_email srv email_id w with
    | (w1, Returns _) =>
        Idle.recent_loop srv rest (Idle.mark_processed email_id w1).1
    | (w1, Raises e) => (w1, Raises e)
    | (w1, Blocked) => (w1, Blocked)
    end.
Proof.
  intros Hout. cbn [Idle.recent_loop].
  unfold mbind, M_bind, bind, get_self.
  destruct (decide (email_id ∈ Idle.processed_emails (self w)));
    [contradiction|].
  destruct (Idle.process_new_email srv email_id w) as [w1 [[]|e|]];
    reflexivity.
Qed.

(** One dispatch: FETCH of the ref, the reply, then the insertion. *)
Lemma dispatch_step (srv : Imap.server) (x y : string) (w : Idle.W) :
  y ∉ idle_processed w ->
  let r := Idle.process_new_email srv y w in
  dispatch_once x false w r.1 /\
  dispatch_once x true w (Idle.mark_processed y r.1).1.
Proof.
  intros Hy. cbv zeta.
  destruct (process_new_email_spec srv y w) as [[(t & Ht & Hnf) Hself] _].
  destruct (Idle.process_new_email srv y w) as [w1 o]. cbn [fst] in *.
  unfold same_self in Hself. cbn in Ht, Hself.
  assert (Hcount : fetches x (Imap.Fetch y :: t)
                   = if String.eqb x y then 1 else 0).
  { change (Imap.Fetch y :: t) with ([Imap.Fetch y] ++ t)%list.
    rewrite fetches_app, (fetches_none x t Hnf). unfold fetches. cbn.
    destruct (String.eqb x y); reflexivity. }
  assert (Hwire : wire w1 = (wire w ++ Imap.Fetch y :: t)%list).
  { rewrite Ht, <- app_assoc. reflexivity. }
  assert (Hknown : x ∈ idle_processed w -> fetches x (Imap.Fetch y :: t) = 0).
  { intros Hx. rewrite Hcount.
    destruct (String.eqb_spec x y) as [->|]; [contradiction | reflexivity]. }
  split.
  - split; [unfold idle_processed; by rewrite Hself|].
    exists (Imap.Fetch y :: t). split; [exact Hwire|].
    split; [rewrite Hcount; destruct (String.eqb x y); lia|].
    split; [exact Hknown | discriminate].
  - split.
    + unfold idle_processed. cbn. rewrite Hself. apply union_subseteq_l.
    + exists (Imap.Fetch y :: t). split; [exact Hwire|].
      split; [rewrite Hcount; destruct (String.eqb x y); lia|].
      split; [exact Hknown|].
      intros _. rewrite Hcount.
      destruct (String.eqb_spec x y) as [->|]; [|discriminate].
      intros _. unfold idle_processed. cbn.
      apply elem_of_union_r, elem_of_singleton. reflexivity.
Qed.

Lemma recent_loop_spec (srv : Imap.server) (x : string)
    (email_ids : list string) :
  forall w : Idle.W,
    let r := Idle.recent_loop srv email_ids w in
    dispatch_once x (returned r.2) w r.1 /\ (forall e, r.2 <> Raises e).
Proof.
  induction email_ids as [|y rest IH]; intros w.
  - cbn. split; [apply dispatch_once_refl | discriminate].
  - destruct (decide (y ∈ idle_processed w)) as [Hin|Hout].
    + rewrite recent_loop_known by exact Hin. apply IH.
    + rewrite recent_loop_unknown by exact Hout.
      destruct (dispatch_step srv x y w Hout) as [Hblocked Hdone].
      destruct (process_new_email_spec srv y w) as [_ Hnr].
      destruct (Idle.process_new_email srv y w) as [w1 [[]|e|]];
        cbn [fst snd] in *.
      * destruct (IH (Idle.mark_processed y w1).1) as [Hrest Hn]. cbv zeta.
        split; [|exact Hn]. eapply dispatch_once_trans; eassumption.
      * exfalso. apply (Hnr e). reflexivity.
      * split; [exact Hblocked | discriminate].
Qed.

Lemma process_recent_emails_spec (srv : Imap.server) (x : string)
    (w : Idle.W) :
  let r := Idle.process_recent_emails srv w in
  dispatch_once x (returned r.2) w r.1 /\ (forall e, r.2 <> Raises e).
Proof.
  cbv zeta. unfold Idle.process_recent_emails, mail_search, send, log.
  run_monad.
  assert (Hsent : forall w',
             dispatch_once x true w w' ->
             dispatch_once x true w
               (mkWorld (self w') (sessions w') (wire w')
                  (logs w' ++ [(ERROR, "Error processing recent emails")])
                  (slept w') (encoded w'))).
  { intros w' H. eapply dispatch_once_trans; [exact H|].
    apply dispatch_once_calm. frame_calm. }
  set (w1 := mkWorld (self w) (sessions w)
               (wire w ++ [Imap.Search "UNSEEN"]) (logs w) (slept w)
               (encoded w)).
  assert (H1 : dispatch_once x true w w1).
  { apply dispatch_once_calm. subst w1. frame_calm. }
  destruct (Imap.search srv) as [[[|] email_ids]|e|]; cbn.
  - pose proof (recent_loop_spec srv x email_ids w1) as [Hloop Hn].
    destruct (Idle.recent_loop srv email_ids w1) as [w2 [[]|e|]];
      cbn [fst snd returned] in *.
    + split; [|discriminate]. eapply dispatch_once_trans; eassumption.
    + exfalso. apply (Hn e). reflexivity.
    + split; [|discriminate]. eapply dispatch_once_trans; eassumption.
  - split; [exact H1 | discriminate].
  - split; [exact (Hsent w1 H1) | discriminate].
  - split; [|discriminate]. eapply dispatch_once_unfinished. exact H1.
Qed.

Lemma polls_spec (x : string) (cycles : list Imap.server) :
  forall w : Idle.W,
    let r := polls cycles w in
    dispatch_once x (returned r.2) w r.1 /\ (forall e, r.2 <> Raises e).
Proof.
  induction cycles as [|srv rest IH]; intros w.
  - cbn. split; [apply dispatch_once_refl | discriminate].
  - cbn [polls]. unfold mbind, M_bind, bind.
    pose proof (process_recent_emails_spec srv x w) as [H1 Hn1].
    destruct (Idle.process_recent_emails srv w) as [w1 [[]|e|]];
      cbn [fst snd returned] in *.
    + destruct (IH w1) as [H2 Hn2]. cbv zeta.
      split; [|exact Hn2]. eapply dispatch_once_trans; eassumption.
    + exfalso. apply (Hn1 e). reflexivity.
    + split; [exact H1 | discriminate].
Qed.

(** C1 (amended): in [get_new_emails] a ref already in the processed set
    is skipped without a fetch; a ref not in the set whose fetch answers OK
    and parses is appended to the batch and inserted; a ref whose fetch
    answers NO is skipped and not inserted; and over any sequence of
    drains the dispatched messages have pairwise distinct refs, none of
    which was in the processed set at the start. In
    [process_recent_emails] a ref already in the set is skipped, a ref not
    in the set is handed to [process_new_email] and inserted when that
    returns, and over any sequence of polls each ref is fetched for
    processing at most once, and never if it was in the set at the start. *)
Theorem no_ref_dispatched_twice
    (cycles : list (Imap.server * string)) (w : SmartPolling.W)
    (servers : list Imap.server) (iw : Idle.W) (x : string) :
  (forall srv email_id rest emails,
     email_id ∈ processed w ->
     SmartPolling.fetch_loop srv (email_id :: rest) emails w
       = SmartPolling.fetch_loop srv rest emails w) /\
  (forall srv email_id rest emails m,
     email_id ∉ processed w ->
     Imap.fetch srv email_id = Returns (Imap.OK, Returns m) ->
     SmartPolling.fetch_loop srv (email_id :: rest) emails w
       = SmartPolling.fetch_loop srv rest (emails ++ [email_of email_id m])
           (after_admit email_id m w) /\
     email_id ∈ processed (after_admit email_id m w)) /\
  (forall srv email_id rest emails parse,
     email_id ∉ processed w ->
     Imap.fetch srv email_id = Returns (Imap.NO, parse) ->
     SmartPolling.fetch_loop srv (email_id :: rest) emails w
       = SmartPolling.fetch_loop srv rest emails (after_fetch email_id w) /\
     email_id ∉ processed (after_fetch email_id w)) /\
  NoDup (id <$> (SmartPolling.drains cycles w).2) /\
  (forall e, e ∈ (SmartPolling.drains cycles w).2 ->
     (id e ∉ processed w) /\
     (id e ∈ processed (SmartPolling.drains cycles w).1)) /\
  (forall srv email_id rest,
     email_id ∈ idle_processed iw ->
     Idle.recent_loop srv (email_id :: rest) iw
       = Idle.recent_loop srv rest iw) /\
  (forall srv email_id rest w1,
     email_id ∉ idle_processed iw ->
     Idle.process_new_email srv email_id iw = (w1, Returns tt) ->
     Idle.recent_loop srv (email_id :: rest) iw
       = Idle.recent_loop srv rest (Idle.mark_processed email_id w1).1 /\
     email_id ∈ idle_processed (Idle.mark_processed email_id w1).1) /\
  (exists t,
     wire (polls servers iw).1 = (wire iw ++ t)%list /\
     fetches x t <= 1 /\
     (x ∈ idle_processed iw -> fetches x t = 0)).
Proof.
  split; [|split; [|split; [|split; [|split; [|split; [|split]]]]]].
  - intros. by apply fetch_loop_known.
  - intros srv email_id rest emails m Hout Hf.
    rewrite fetch_loop_unknown by exact Hout. rewrite Hf.
    split; [reflexivity|]. apply elem_of_union_r, elem_of_singleton.
    reflexivity.
  - intros srv email_id rest emails parse Hout Hf.
    rewrite fetch_loop_unknown by exact Hout. rewrite Hf.
    split; [reflexivity | exact Hout].
  - apply (drains_spec cycles w).
  - apply (drains_spec cycles w).
  - intros. by apply recent_loop_known.
  - intros srv email_id rest w1 Hout Hp.
    rewrite recent_loop_unknown by exact Hout. rewrite Hp.
    split; [reflexivity|]. unfold idle_processed. cbn.
    apply elem_of_union_r, elem_of_singleton. reflexivity.
  - destruct (polls_spec x servers iw) as [(_ & t & Ht & Hc & Hk & _) _].
    exists t. auto.
Qed.

(** * Further properties of the code *)

(** ** What the methods leave alone *)

Global Instance io_only_preorder {P} : PreOrder (@io_only P).
Proof.
  split; [intros w; by repeat split|].
  intros a b c (H1 & H2 & H3) (H4 & H5 & H6). repeat split; congruence.
Qed.

Global Instance drain_frame_preorder : PreOrder drain_frame.
Proof.
  split; [intros w; by repeat split|].
  intros a b c (H1 & H2 & H3) (H4 & H5 & H6). repeat split; congruence.
Qed.

Ltac frame_io := unfold io_only; cbn; repeat split; reflexivity.
Ltac frame_drain := unfold drain_frame; cbn; repeat split; reflexivity.

Lemma save_reply_as_draft_io_only {P} (address : P -> string)
    (srv : Imap.server) (e : email_data) (reply_body : string) :
  respects io_only (save_reply_as_draft address srv e reply_body).
Proof. unfold save_reply_as_draft. respects_auto frame_io. Qed.

Lemma fetch_loop_drain_frame (srv : Imap.server) (email_ids : list string) :
  forall emails, respects drain_frame
                   (SmartPolling.fetch_loop srv email_ids emails).
Proof.
  induction email_ids as [|email_id rest IH]; intros emails;
    cbn [SmartPolling.fetch_loop].
  - apply respects_ret; apply _.
  - unfold SmartPolling.mark_processed. respects_auto frame_drain.
Qed.

Lemma get_new_emails_drain_frame (srv : Imap.server) (since_date : string) :
  respects drain_frame (SmartPolling.get_new_emails srv since_date).
Proof.
  pose proof (fetch_loop_drain_frame srv) as Hloop.
  unfold SmartPolling.get_new_emails. respects_auto frame_drain.
Qed.

Lemma drain_frame_fields (w w' : SmartPolling.W) :
  drain_frame w w' ->
  SmartPolling.current_interval (self w') = SmartPolling.current_interval (self w) /\
  SmartPolling.min_interval (self w') = SmartPolling.min_interval (self w) /\
  SmartPolling.max_interval (self w') = SmartPolling.max_interval (self w) /\
  SmartPolling.last_email_time (self w') = SmartPolling.last_email_time (self w) /\
  SmartPolling.running (self w') = SmartPolling.running (self w) /\
  SmartPolling.email_queue (self w') = SmartPolling.email_queue (self w).
Proof.
  intros [H _]. destruct (self w), (self w'). cbn in H.
  injection H as -> -> -> -> -> -> ->. repeat split; reflexivity.
Qed.

(** ** The polling interval over a whole run *)

Global Instance same_intervals_preorder : PreOrder same_intervals.
Proof.
  split; [intros w; by repeat split|].
  intros a b c (H1 & H2 & H3) (H4 & H5 & H6). repeat split; congruence.
Qed.

Ltac frame_intervals := unfold same_intervals; cbn; repeat split; reflexivity.

Lemma same_intervals_in_bounds (w w' : SmartPolling.W) :
  same_intervals w w' -> preserves interval_in_bounds w w'.
Proof.
  unfold preserves, interval_in_bounds. intros (-> & -> & ->). auto.
Qed.

Lemma draft_same_intervals (srv : Imap.server) (e : email_data)
    (reply_body : string) :
  respects same_intervals (SmartPolling.save_reply_as_draft srv e reply_body).
Proof.
  eapply respects_weaken; [|apply save_reply_as_draft_same_self].
  unfold same_self, same_intervals. intros s s' ->. by repeat split.
Qed.

Lemma drain_same_intervals (srv : Imap.server) (since_date : string) :
  respects same_intervals (SmartPolling.get_new_emails srv since_date).
Proof.
  eapply respects_weaken; [|apply get_new_emails_drain_frame].
  intros s s' H. destruct (drain_frame_fields s s' H) as (? & ? & ? & _).
  by repeat split.
Qed.

Lemma queue_get_same_intervals :
  respects same_intervals SmartPolling.queue_get.
Proof.
  intros w. unfold SmartPolling.queue_get, get_item.
  destruct (items (SmartPolling.email_queue (self w))); frame_intervals.
Qed.

Lemma queue_put_same_intervals (x : option email_data) :
  respects same_intervals (SmartPolling.queue_put x).
Proof.
  intros w. unfold SmartPolling.queue_put, put.
  destruct (full (SmartPolling.email_queue (self w))); frame_intervals.
Qed.

Lemma adjust_in_bounds (now : Q) (found : list email_data) :
  respects (preserves interval_in_bounds)
    (set_self (SmartPolling.adjust_polling_interval now found)).
Proof.
  intros w (Hmin & Hmax & Hlo & Hhi). unfold interval_in_bounds. cbn.
  set (p := self w) in *.
  assert (Hlo' : (SmartPolling.min_interval p
                  <= SmartPolling.current_interval p)%Q) by (rewrite Hmin; exact Hlo).
  assert (Hhi' : (SmartPolling.current_interval p
                  <= SmartPolling.max_interval p)%Q) by (rewrite Hmax; exact Hhi).
  assert (Hmm : (SmartPolling.min_interval p <= SmartPolling.max_interval p)%Q)
    by (eapply Qle_trans; eassumption).
  unfold SmartPolling.adjust_polling_interval.
  destruct (truthy_list found).
  - cbn. destruct (py_max_bounds (SmartPolling.min_interval p)
                     (SmartPolling.max_interval p)
                     (SmartPolling.current_interval p * (1 # 2)))
      as [H1 H2]; [exact Hmm | lra |].
    repeat split; try assumption.
    + rewrite <- Hmin. exact H1.
    + rewrite <- Hmax. exact H2.
  - destruct (Qltb _ _); [|repeat split; assumption].
    cbn. destruct (py_min_bounds (SmartPolling.min_interval p)
                     (SmartPolling.max_interval p)
                     (SmartPolling.current_interval p * (6 # 5)))
      as [H1 H2]; [exact Hmm | lra |].
    repeat split; try assumption.
    + rewrite <- Hmin. exact H1.
    + rewrite <- Hmax. exact H2.
Qed.

Lemma worker_body_in_bounds (srv : Imap.server) (fault : outcome unit) :
  respects (preserves interval_in_bounds)
    (SmartPolling.email_processor_worker_body srv fault).
Proof.
  eapply respects_weaken; [apply same_intervals_in_bounds|].
  pose proof draft_same_intervals as Hd.
  pose proof queue_get_same_intervals as Hg.
  unfold SmartPolling.email_processor_worker_body.
  respects_auto frame_intervals.
Qed.

Lemma polling_body_in_bounds (srv : Imap.server) (since_date : string)
    (now processing_time : Q) (fault : outcome unit) :
  respects (preserves interval_in_bounds)
    (SmartPolling.smart_polling_body srv since_date now processing_time fault).
Proof.
  assert (Hd : respects (preserves interval_in_bounds)
                 (SmartPolling.get_new_emails srv since_date)).
  { eapply respects_weaken; [apply same_intervals_in_bounds|].
    apply drain_same_intervals. }
  assert (Hp : forall x, respects (preserves interval_in_bounds)
                           (SmartPolling.queue_put x)).
  { intros x. eapply respects_weaken; [apply same_intervals_in_bounds|].
    apply queue_put_same_intervals. }
  pose proof adjust_in_bounds as Ha.
  unfold SmartPolling.smart_polling_body.
  repeat first
    [ solve [auto 2 with respects nocore]
    | apply respects_bind; solve_preorder; [|intros ?]
    | apply respects_try_except; solve_preorder; [|intros ?]
    | apply respects_for_each; solve_preorder; intros ?
    | apply respects_call; solve_preorder
    | apply respects_ret; solve_preorder
    | apply (respects_weaken same_intervals);
      [apply same_intervals_in_bounds
      |unfold log, sleep, get_self; first
         [apply respects_modify; [apply _|intros ?; frame_intervals]
         |intros ?; frame_intervals]] ].
Qed.

Lemma stop_monitoring_in_bounds :
  respects (preserves interval_in_bounds) SmartPolling.stop_monitoring.
Proof.
  eapply respects_weaken; [apply same_intervals_in_bounds|].
  pose proof queue_put_same_intervals as Hp.
  unfold SmartPolling.stop_monitoring. respects_auto frame_intervals.
Qed.

Lemma step_in_bounds (sys : SmartPolling.system) (t : SmartPolling.tick) :
  interval_in_bounds (SmartPolling.state sys) ->
  interval_in_bounds (SmartPolling.state (SmartPolling.step sys t)).
Proof.
  intros H. destruct t as [srv fault|srv since_date now pt fault|]; cbn.
  - destruct (SmartPolling.worker sys); try exact H.
    destruct (negb _); [exact H|].
    pose proof (worker_body_in_bounds srv fault (SmartPolling.state sys) H)
      as Hb.
    destruct (SmartPolling.email_processor_worker_body srv fault _)
      as [w [[]|?|]]; exact Hb.
  - destruct (SmartPolling.poller sys); try exact H.
    destruct (negb _); [exact H|].
    pose proof (polling_body_in_bounds srv since_date now pt fault
                  (SmartPolling.state sys) H) as Hb.
    destruct (SmartPolling.smart_polling_body srv since_date now pt fault _)
      as [w [[]|?|]]; exact Hb.
  - apply stop_monitoring_in_bounds, H.
Qed.

(** X1: from [__init__] on, whatever the threads and the servers do, the
    bounds stay 10 and 300 and the polling interval stays between them. *)
Theorem polling_interval_stays_in_bounds
    (address : string) (now : Q) (ticks : list SmartPolling.tick) :
  let p := self (SmartPolling.state
                   (SmartPolling.run ticks
                      (SmartPolling.start_monitoring
                         (fresh_world address now)))) in
  (SmartPolling.min_interval p == 10)%Q /\
  (SmartPolling.max_interval p == 300)%Q /\
  (10 <= SmartPolling.current_interval p)%Q /\
  (SmartPolling.current_interval p <= 300)%Q.
Proof.
  cbv zeta.
  assert (H0 : interval_in_bounds
                 (SmartPolling.state
                    (SmartPolling.start_monitoring (fresh_world address now)))).
  { unfold interval_in_bounds. cbn. repeat split; try reflexivity; lra. }
  revert H0.
  generalize (SmartPolling.start_monitoring (fresh_world address now)).
  induction ticks as [|t ticks IH]; intros sys H; [exact H|].
  apply IH, step_in_bounds, H.
Qed.

(** ** The pause between two polls *)

Lemma queue_put_same_slept (x : option email_data) (w : SmartPolling.W) :
  slept (SmartPolling.queue_put x w).1 = slept w.
Proof.
  unfold SmartPolling.queue_put, put.
  destruct (full (SmartPolling.email_queue (self w))); reflexivity.
Qed.

Lemma for_each_put_same_slept (new_emails : list email_data) :
  forall w : SmartPolling.W,
    slept (for_each new_emails
             (fun e => SmartPolling.queue_put (Some e)) w).1 = slept w.
Proof.
  induction new_emails as [|e rest IH]; intros w; [reflexivity|].
  cbn [for_each]. unfold bind.
  pose proof (queue_put_same_slept (Some e) w) as Hp.
  destruct (SmartPolling.queue_put (Some e) w) as [w1 [[]|?|]];
    cbn [fst snd] in *; [|exact Hp..].
  rewrite IH. exact Hp.
Qed.

Lemma py_max_lower (a b : Q) : (a <= Py.max a b)%Q.
Proof.
  unfold Py.max. destruct (Qltb a b) eqn:E.
  - apply Qltb_true in E. apply Qlt_le_weak, E.
  - apply Qle_refl.
Qed.

(** X2: an iteration of the polling loop never lets an exception out; when
    it comes back it has slept exactly once, for at least one second
    (30 seconds after an error), and when it hangs it has not slept. *)
Theorem polling_body_sleeps_once
    (srv : Imap.server) (since_date : string) (now processing_time : Q)
    (fault : outcome unit) (w : SmartPolling.W) :
  let r := SmartPolling.smart_polling_body srv since_date now
             processing_time fault w in
  match r.2 with
  | Returns _ =>
      exists t, slept r.1 = (slept w ++ [t])%list /\ (1 <= t)%Q /\
                (t == 30 \/
                 t == Py.max 1 (SmartPolling.current_interval (self r.1)
                                - processing_time))%Q
  | Raises _ => False
  | Blocked => slept r.1 = slept w
  end.
Proof.
  cbv zeta.
  unfold SmartPolling.smart_polling_body, try_except, mbind, M_bind, bind.
  destruct (get_new_emails_drain_frame srv since_date w) as (_ & Hs1 & _).
  destruct (SmartPolling.get_new_emails srv since_date w) as [w1 [new|e|]];
    cbn [fst snd] in *.
  - pose proof (for_each_put_same_slept new w1) as Hs2.
    destruct (for_each new _ w1) as [w2 [[]|e|]]; cbn [fst snd] in *.
    + unfold set_self, get_self, log, sleep, modify, call. cbn.
      destruct fault as [[]|e|]; cbn.
      * eexists. split; [rewrite Hs2, Hs1; reflexivity|].
        split; [apply py_max_lower | right; reflexivity].
      * eexists. split; [rewrite Hs2, Hs1; reflexivity|].
        split; [discriminate | left; reflexivity].
      * congruence.
    + unfold log, sleep, modify. cbn. eexists.
      split; [rewrite Hs2, Hs1; reflexivity|].
      split; [discriminate | left; reflexivity].
    + congruence.
  - unfold log, sleep, modify. cbn. eexists.
    split; [rewrite Hs1; reflexivity|].
    split; [discriminate | left; reflexivity].
  - exact Hs1.
Qed.

(** ** What a drain returns when the server answers *)

Lemma fetch_loop_complete (srv : Imap.server) (email_ids : list string) :
  forall (emails : list email_data) (w : SmartPolling.W),
    Forall (passes srv w) email_ids ->
    exists new w',
      SmartPolling.fetch_loop srv email_ids emails w
        = (w', Returns (emails ++ new)%list) /\
      (id <$> new) `sublist_of` email_ids /\
      (forall i m, i ∈ email_ids -> i ∉ processed w ->
                   Imap.fetch srv i = Returns (Imap.OK, Returns m) ->
                   email_of i m ∈ new) /\
      (forall e, e ∈ new ->
                 exists m, Imap.fetch srv (id e) = Returns (Imap.OK, Returns m)
                           /\ e = email_of (id e) m) /\
      processed w' = processed w ∪ list_to_set (id <$> new) /\
      sessions w' = sessions w.
Proof.
  induction email_ids as [|x rest IH]; intros emails w Hpass.
  - exists [], w. cbn. rewrite app_nil_r.
    split; [reflexivity|]. split; [constructor|].
    split; [intros i m Hin; inversion Hin|].
    split; [intros e Hin; inversion Hin|].
    split; [|reflexivity]. symmetry. apply (right_id_L ∅ (∪)).
  - apply Forall_cons in Hpass as [Hx Hrest].
    destruct (decide (x ∈ processed w)) as [Hin|Hout].
    + rewrite fetch_loop_known by exact Hin.
      destruct (IH emails w Hrest) as (new & w' & Hrun & Hsub & Hall & Hfrom
                                       & Hset & Hses).
      exists new, w'. split; [exact Hrun|].
      split; [apply sublist_cons, Hsub|].
      split; [|auto].
      intros i m Hi Hnew Hf.
      apply elem_of_cons in Hi as [->|Hi]; [contradiction | eauto].
    + rewrite fetch_loop_unknown by exact Hout.
      destruct Hx as [Hx|[[p Hx]|[m Hx]]]; [contradiction| |]; rewrite Hx.
      * destruct (IH emails (after_fetch x w)) as
          (new & w' & Hrun & Hsub & Hall & Hfrom & Hset & Hses).
        { eapply Forall_impl; [exact Hrest|]. intros a Ha.
          eapply passes_grows; [|exact Ha]. grows_same. }
        exists new, w'. split; [exact Hrun|].
        split; [apply sublist_cons, Hsub|].
        split; [|auto].
        intros i m Hi Hnew Hf.
        apply elem_of_cons in Hi as [->|Hi]; [congruence|].
        apply (Hall i m Hi Hnew Hf).
      * destruct (IH (emails ++ [email_of x m])%list (after_admit x m w)) as
          (new & w' & Hrun & Hsub & Hall & Hfrom & Hset & Hses).
        { eapply Forall_impl; [exact Hrest|]. intros a Ha.
          eapply passes_grows; [|exact Ha].
          unfold processed_grows. cbn. apply union_subseteq_l. }
        exists (email_of x m :: new), w'.
        split; [rewrite Hrun, <- app_assoc; reflexivity|].
        split; [rewrite fmap_cons; apply sublist_skip, Hsub|].
        split; [|split; [|split]].
        -- intros i m' Hi Hnew Hf.
           destruct (decide (i = x)) as [->|Hne].
           ++ assert (m' = m) as -> by congruence. apply list_elem_of_here.
           ++ apply elem_of_cons in Hi as [->|Hi]; [congruence|].
              apply list_elem_of_further, (Hall i m' Hi); [|exact Hf].
              cbn. intros Hb. apply elem_of_union in Hb as [Hb|Hb];
                [contradiction|]. apply elem_of_singleton in Hb. congruence.
        -- intros e He. apply elem_of_cons in He as [->|He]; [|auto].
           exists m. split; [exact Hx | reflexivity].
        -- rewrite Hset, fmap_cons, list_to_set_cons. cbn.
           rewrite <- (assoc_L (∪)). reflexivity.
        -- exact Hses.
Qed.

(** X3: against a server that answers every command (each listed ref is
    already processed, or its fetch answers NO, or it is fetched and
    parsed), [get_new_emails] returns exactly the unprocessed refs whose
    fetch succeeded: each one listed, in the order of the listing, none
    left out, each built from what was fetched. They are the refs added
    to the processed set, and the session is closed and logged out. *)
Theorem get_new_emails_complete
    (srv : Imap.server) (since_date : string) (w : SmartPolling.W)
    (email_ids : list string) (selected : Imap.status) :
  Imap.connect srv = Returns tt ->
  Imap.login srv = Returns tt ->
  Imap.select srv "INBOX" = Returns selected ->
  Imap.search srv = Returns (Imap.OK, email_ids) ->
  Forall (passes srv w) email_ids ->
  Imap.close srv = Returns tt ->
  Imap.logout srv = Returns tt ->
  let r := SmartPolling.get_new_emails srv since_date w in
  exists out,
    r.2 = Returns out /\
    (id <$> out) `sublist_of` email_ids /\
    (forall i m, i ∈ email_ids -> i ∉ processed w ->
                 Imap.fetch srv i = Returns (Imap.OK, Returns m) ->
                 email_of i m ∈ out) /\
    (forall e, e ∈ out ->
               exists m, Imap.fetch srv (id e) = Returns (Imap.OK, Returns m)
                         /\ e = email_of (id e) m) /\
    processed r.1 = processed w ∪ list_to_set (id <$> out) /\
    sessions r.1 = sessions w /\
    exists t, wire r.1 = (t ++ [Imap.Close; Imap.Logout])%list.
Proof.
  intros Hc Hl Hsel Hsearch Hpass Hclose Hlogout. cbv zeta.
  unfold SmartPolling.get_new_emails. unfold_prims. run_monad.
  rewrite Hc, Hl. cbn. rewrite Hsel. cbn. rewrite Hsearch. cbn.
  match goal with
  | |- context [SmartPolling.fetch_loop srv email_ids [] ?w3] =>
      destruct (fetch_loop_complete srv email_ids [] w3) as
        (new & w' & Hrun & Hsub & Hall & Hfrom & Hset & Hses);
      [eapply Forall_impl; [exact Hpass|]; intros a Ha;
       eapply passes_grows; [|exact Ha]; grows_same|]
  end.
  rewrite Hrun. cbn. rewrite Hclose. cbn. rewrite Hlogout. cbn.
  exists new. split; [reflexivity|]. split; [exact Hsub|].
  split; [exact Hall|]. split; [exact Hfrom|]. split; [exact Hset|].
  split; [rewrite Hses; reflexivity|].
  eexists. rewrite <- app_assoc. reflexivity.
Qed.

Lemma get_new_emails_complete_witness :
  let srv := answering (Imap.OK, ["41"; "42"; "43"])
               (fun i => if String.eqb i "42"
                         then Returns (Imap.NO, Returns hello)
                         else Returns (Imap.OK, Returns hello)) in
  let w := fresh_world "support@example.com" 0%Q in
  exists out,
    (SmartPolling.get_new_emails srv "01-Jan-2025" w).2 = Returns out /\
    (id <$> out) `sublist_of` ["41"; "42"; "43"].
Proof.
  cbv zeta.
  destruct (get_new_emails_complete
              (answering (Imap.OK, ["41"; "42"; "43"])
                 (fun i => if String.eqb i "42"
                           then Returns (Imap.NO, Returns hello)
                           else Returns (Imap.OK, Returns hello)))
              "01-Jan-2025" (fresh_world "support@example.com" 0%Q)
              ["41"; "42"; "43"] Imap.OK)
    as (out & Hout & Hsub & _); try reflexivity.
  - repeat apply Forall_cons_2; [| |  |apply Forall_nil_2].
    + right; right. exists hello. reflexivity.
    + right; left. exists (Returns hello). reflexivity.
    + right; right. exists hello. reflexivity.
  - exists out. split; [exact Hout | exact Hsub].
Defined.

(** ** Once the flag is down *)

Lemma stop_monitoring_halted (w0 w : SmartPolling.W) :
  wire w = wire w0 -> processed w = processed w0 ->
  items (queue_of w0) `prefix_of` items (queue_of w) ->
  halted w0 (SmartPolling.stop_monitoring w).1.
Proof.
  intros Hw Hp Hq.
  unfold SmartPolling.stop_monitoring, SmartPolling.queue_put, halted,
    mbind, M_bind, bind, set_self, log, modify, put, queue_of.
  cbn. destruct (full (SmartPolling.email_queue (self w))); cbn.
  - repeat split; assumption.
  - repeat split; try assumption.
    etransitivity; [exact Hq|]. apply prefix_app_r. reflexivity.
Qed.

Lemma step_halted (w0 : SmartPolling.W) (sys : SmartPolling.system)
    (t : SmartPolling.tick) :
  halted w0 (SmartPolling.state sys) ->
  halted w0 (SmartPolling.state (SmartPolling.step sys t)).
Proof.
  intros (Hr & Hw & Hp & Hq).
  destruct t as [srv fault|srv since_date now pt fault|]; cbn.
  - destruct (SmartPolling.worker sys); try (repeat split; assumption).
    rewrite Hr. cbn. repeat split; assumption.
  - destruct (SmartPolling.poller sys); try (repeat split; assumption).
    rewrite Hr. cbn. repeat split; assumption.
  - apply stop_monitoring_halted; assumption.
Qed.

Lemma run_halted (w0 : SmartPolling.W) (ticks : list SmartPolling.tick) :
  forall sys, halted w0 (SmartPolling.state sys) ->
              halted w0 (SmartPolling.state (SmartPolling.run ticks sys)).
Proof.
  induction ticks as [|t ticks IH]; intros sys H; [exact H|].
  apply (IH (SmartPolling.step sys t)), step_halted, H.
Qed.

(** X4: from a state in which [running] is False and both threads are at
    the head of their loops (as it is once [stop_monitoring] has run and
    the iterations then under way have ended), no iteration starts again,
    whatever is scheduled: the flag stays down, no IMAP command is sent, no
    ref is recorded, the messages in the queue stay there unanswered, and
    each thread leaves its loop the next time it tests the flag. *)
Theorem no_iteration_starts_once_the_flag_is_down
    (sys : SmartPolling.system) (ticks : list SmartPolling.tick) :
  SmartPolling.running (self (SmartPolling.state sys)) = false ->
  let w := SmartPolling.state sys in
  let sys' := SmartPolling.run ticks sys in
  SmartPolling.running (self (SmartPolling.state sys')) = false /\
  wire (SmartPolling.state sys') = wire w /\
  processed (SmartPolling.state sys') = processed w /\
  items (queue_of w) `prefix_of` items (queue_of (SmartPolling.state sys')) /\
  (forall srv fault,
     SmartPolling.worker
       (SmartPolling.step sys' (SmartPolling.WorkerTick srv fault))
       <> SmartPolling.Alive) /\
  (forall srv since_date now processing_time fault,
     SmartPolling.poller
       (SmartPolling.step sys'
          (SmartPolling.PollerTick srv since_date now processing_time fault))
       <> SmartPolling.Alive).
Proof.
  intros Hdown. cbv zeta.
  assert (H : halted (SmartPolling.state sys)
                (SmartPolling.state (SmartPolling.run ticks sys))).
  { apply run_halted. repeat split; [exact Hdown | reflexivity]. }
  destruct H as (Hr & Hw & Hp & Hq).
  repeat split; try assumption.
  - intros srv fault. cbn.
    destruct (SmartPolling.worker (SmartPolling.run ticks sys)) eqn:E;
      [rewrite Hr; cbn; discriminate | rewrite E; discriminate..].
  - intros srv since_date now pt fault. cbn.
    destruct (SmartPolling.poller (SmartPolling.run ticks sys)) eqn:E;
      [rewrite Hr; cbn; discriminate | rewrite E; discriminate..].
Qed.

Lemma no_iteration_starts_once_the_flag_is_down_witness :
  let srv := answering (Imap.OK, ["42"])
               (fun _ => Returns (Imap.OK, Returns hello)) in
  let sys := SmartPolling.run
               [SmartPolling.PollerTick srv "01-Jan-2025" 5%Q 1%Q (Returns tt);
                SmartPolling.StopSignal]
               (SmartPolling.start_monitoring
                  (fresh_world "support@example.com" 0%Q)) in
  let sys' := SmartPolling.run
                [SmartPolling.WorkerTick srv (Returns tt);
                 SmartPolling.PollerTick srv "01-Jan-2025" 9%Q 1%Q
                   (Returns tt)] sys in
  items (queue_of (SmartPolling.state sys))
    = [Some (email_of "42" hello); None] /\
  wire (SmartPolling.state sys') = wire (SmartPolling.state sys).
Proof.
  cbv zeta. split; [vm_compute; reflexivity|].
  apply (no_iteration_starts_once_the_flag_is_down
           (SmartPolling.run
              [SmartPolling.PollerTick
                 (answering (Imap.OK, ["42"])
                    (fun _ => Returns (Imap.OK, Returns hello)))
                 "01-Jan-2025" 5%Q 1%Q (Returns tt);
               SmartPolling.StopSignal]
              (SmartPolling.start_monitoring
                 (fresh_world "support@example.com" 0%Q)))).
  vm_compute. reflexivity.
Defined.

(** ** Progress when the environment answers *)

Section NeverHangs.
Context {S : Type}.

Lemma never_hangs_ret {A} (a : A) : never_hangs (mret a : M S A).
Proof. intros s. discriminate. Qed.

Lemma never_hangs_modify (f : S -> S) : never_hangs (modify f).
Proof. intros s. discriminate. Qed.

Lemma never_hangs_call {A} (o : outcome A) :
  o <> Blocked -> never_hangs (call o : M S A).
Proof. intros H s. exact H. Qed.

Lemma never_hangs_bind {A B} (m : M S A) (k : A -> M S B) :
  never_hangs m -> (forall a, never_hangs (k a)) -> never_hangs (m ≫= k).
Proof.
  intros Hm Hk s. unfold mbind, M_bind, bind. specialize (Hm s).
  destruct (m s) as [s' [a|e|]]; cbn in *; [apply Hk | discriminate | congruence].
Qed.

(** The continuation only has to be considered for the values the call
    can return. *)
Lemma never_hangs_bind_call {A B} (pre : M S unit) (o : outcome A)
    (k : A -> M S B) :
  never_hangs pre -> o <> Blocked ->
  (forall a, o = Returns a -> never_hangs (k a)) ->
  never_hangs ((pre;; call o) ≫= k).
Proof.
  intros Hpre Ho Hk s. unfold mbind, M_bind, bind, call.
  specialize (Hpre s).
  destruct (pre s) as [s' [[]|e|]]; cbn in *; [|discriminate | congruence].
  destruct o as [a|e|]; cbn; [by apply Hk | discriminate | congruence].
Qed.

Lemma never_hangs_try_except {A} (m : M S A) (h : exn -> M S A) :
  never_hangs m -> (forall e, never_hangs (h e)) ->
  never_hangs (try_except m h).
Proof.
  intros Hm Hh s. unfold try_except. specialize (Hm s).
  destruct (m s) as [s' [a|e|]]; cbn in *; [discriminate | apply Hh | congruence].
Qed.

Lemma never_hangs_for_each {X} (l : list X) (body : X -> M S unit) :
  (forall x, never_hangs (body x)) -> never_hangs (for_each l body).
Proof.
  intros Hb. induction l as [|x l IH]; cbn [for_each].
  - apply (never_hangs_ret tt).
  - apply (never_hangs_bind (body x) (fun _ => for_each l body));
      [apply Hb | intros _; exact IH].
Qed.

End NeverHangs.

Create HintDb hangs discriminated.

Ltac never_hangs_step :=
  first
    [ solve [auto 2 with hangs nocore]
    | apply never_hangs_ret
    | apply never_hangs_modify
    | solve [intros ?; discriminate]
    | apply never_hangs_call; solve [auto 3 with hangs nocore]
    | apply never_hangs_bind; [|intros ?]
    | apply never_hangs_try_except; [|intros ?]
    | apply never_hangs_for_each; intros ?
    | match goal with
      | |- never_hangs (match ?x with _ => _ end) => destruct x
      end ].

Ltac never_hangs_auto := unfold_prims; repeat never_hangs_step.

Section Responsive.
Variable srv : Imap.server.
Hypothesis Hsrv : responsive srv.

Lemma responsive_connect : Imap.connect srv <> Blocked.
Proof. apply Hsrv. Qed.
Lemma responsive_login : Imap.login srv <> Blocked.
Proof. apply Hsrv. Qed.
Lemma responsive_select mailbox : Imap.select srv mailbox <> Blocked.
Proof. apply Hsrv. Qed.
Lemma responsive_search : Imap.search srv <> Blocked.
Proof. apply Hsrv. Qed.
Lemma responsive_fetch email_id : Imap.fetch srv email_id <> Blocked.
Proof. apply Hsrv. Qed.
Lemma responsive_parse email_id r :
  Imap.fetch srv email_id = Returns r -> r.2 <> Blocked.
Proof.
  destruct Hsrv as (_ & _ & _ & _ & Hf & _). destruct (Hf email_id) as [_ Hp].
  destruct r as [st o]. cbn. intros Hr Ho. subst o. apply (Hp st Hr).
Qed.
Lemma responsive_as_string : Imap.as_string srv <> Blocked.
Proof. apply Hsrv. Qed.
Lemma responsive_append mailbox : Imap.append srv mailbox <> Blocked.
Proof. apply Hsrv. Qed.
Lemma responsive_close : Imap.close srv <> Blocked.
Proof. apply Hsrv. Qed.
Lemma responsive_logout : Imap.logout srv <> Blocked.
Proof. apply Hsrv. Qed.

Hint Resolve responsive_connect responsive_login responsive_select
  responsive_search responsive_fetch responsive_as_string
  responsive_append responsive_close responsive_logout : hangs.

Lemma connect_imap_never_hangs {P} :
  never_hangs (connect_imap (P:=P) srv).
Proof. never_hangs_auto. Qed.

Lemma save_reply_as_draft_never_hangs {P} (address : P -> string)
    (e : email_data) (reply_body : string) :
  never_hangs (save_reply_as_draft address srv e reply_body).
Proof. unfold save_reply_as_draft. never_hangs_auto. Qed.

Lemma fetch_loop_never_hangs (email_ids : list string) :
  forall emails, never_hangs (SmartPolling.fetch_loop srv email_ids emails).
Proof.
  induction email_ids as [|email_id rest IH]; intros emails;
    cbn [SmartPolling.fetch_loop].
  - apply never_hangs_ret.
  - apply never_hangs_bind; [intros s; discriminate | intros p].
    destruct (decide _); [apply IH|].
    unfold mail_fetch.
    apply never_hangs_bind_call;
      [apply never_hangs_modify | apply responsive_fetch | intros r Hr].
    destruct (negb _); [apply IH|].
    pose proof (responsive_parse email_id r Hr) as Hp.
    apply never_hangs_bind; [apply never_hangs_call, Hp | intros m].
    unfold SmartPolling.mark_processed. never_hangs_auto.
Qed.

Lemma get_new_emails_never_hangs (since_date : string) :
  never_hangs (SmartPolling.get_new_emails srv since_date).
Proof.
  pose proof fetch_loop_never_hangs as Hloop.
  pose proof (@connect_imap_never_hangs SmartPolling.processor) as Hc.
  unfold SmartPolling.get_new_emails.
  apply never_hangs_bind; [exact Hc | intros [[]|]];
    [|apply never_hangs_ret].
  never_hangs_auto.
Qed.

End Responsive.

Lemma worker_body_never_hangs (srv : Imap.server) (fault : outcome unit)
    (w : SmartPolling.W) :
  responsive srv -> fault <> Blocked ->
  (SmartPolling.email_processor_worker_body srv fault w).2 <> Blocked.
Proof.
  intros Hsrv Hf.
  pose proof (save_reply_as_draft_never_hangs srv Hsrv
                SmartPolling.email_address) as Hd.
  unfold SmartPolling.email_processor_worker_body, try_except, mbind, M_bind,
    bind, SmartPolling.queue_get, get_item.
  destruct (items (SmartPolling.email_queue (self w))) as [|[e|] rest]; cbn.
  - discriminate.
  - unfold call. destruct fault as [[]|ex|]; cbn; [|destruct ex; discriminate
                                                   |congruence].
    match goal with
    | |- context [SmartPolling.save_reply_as_draft srv e ?body ?w1] =>
        specialize (Hd e body w1); unfold SmartPolling.save_reply_as_draft;
        destruct (save_reply_as_draft SmartPolling.email_address srv e body w1)
          as [w2 [[|]|ex|]]
    end; cbn in *; try discriminate; try congruence.
    destruct ex; discriminate.
  - discriminate.
Qed.

Lemma polling_body_never_hangs (srv : Imap.server) (since_date : string)
    (now processing_time : Q) (fault : outcome unit) (w : SmartPolling.W) :
  responsive srv -> fault <> Blocked -> unbounded w ->
  (SmartPolling.smart_polling_body srv since_date now processing_time
     fault w).2 <> Blocked.
Proof.
  intros Hsrv Hf Hu.
  pose proof (get_new_emails_never_hangs srv Hsrv since_date w) as Hg.
  pose proof (get_new_emails_keeps_queue srv since_date w) as Hk.
  apply keeps_queue_unbounded in Hk. specialize (Hk Hu).
  unfold SmartPolling.smart_polling_body, try_except, mbind, M_bind, bind.
  destruct (SmartPolling.get_new_emails srv since_date w) as [w1 [new|e|]];
    cbn [fst snd] in *; [| discriminate | congruence].
  destruct (for_each_put_unbounded new w1 Hk) as (Hr & _ & _).
  destruct (for_each new _ w1) as [w2 o]. cbn in Hr. subst o.
  unfold set_self, get_self, log, sleep, modify, call. cbn.
  destruct fault as [[]|e|]; cbn; [discriminate | discriminate | congruence].
Qed.

Lemma step_alive (sys : SmartPolling.system) (t : SmartPolling.tick) :
  answered t ->
  live (SmartPolling.state sys) -> both_alive sys ->
  live (SmartPolling.state (SmartPolling.step sys t)) /\
  both_alive (SmartPolling.step sys t).
Proof.
  intros Ht Hl [Hw Hp].
  assert (Hrun : SmartPolling.running (self (SmartPolling.state sys)) = true)
    by apply Hl.
  destruct (step_live sys t) as [Hl' _];
    [intros ->; exact Ht | exact Hl
    | split; [rewrite Hw | rewrite Hp]; discriminate |].
  split; [exact Hl'|]. clear Hl'.
  destruct t as [srv fault|srv since_date now pt fault|]; [| |destruct Ht];
    destruct Ht as [Hsrv Hf]; unfold SmartPolling.step, both_alive.
  - rewrite Hw, Hrun. cbn [negb].
    pose proof (worker_body_never_hangs srv fault (SmartPolling.state sys)
                  Hsrv Hf) as Hb.
    pose proof (worker_body_no_raise srv fault (SmartPolling.state sys)) as Hn.
    pose proof (worker_body_continues srv fault (SmartPolling.state sys)
                  (proj2 (proj2 Hl))) as Hc.
    destruct (SmartPolling.email_processor_worker_body srv fault _)
      as [w [c|ex|]]; cbn in Hb, Hn, Hc.
    + rewrite (Hc c eq_refl). split; [reflexivity | exact Hp].
    + exfalso. apply (Hn ex). reflexivity.
    + congruence.
  - rewrite Hp, Hrun. cbn [negb].
    pose proof (polling_body_never_hangs srv since_date now pt fault
                  (SmartPolling.state sys) Hsrv Hf (proj1 (proj2 Hl))) as Hb.
    pose proof (polling_body_no_raise srv since_date now pt fault
                  (SmartPolling.state sys)) as Hn.
    destruct (SmartPolling.smart_polling_body srv since_date now pt fault _)
      as [w [[]|ex|]]; cbn in Hb, Hn.
    + split; [exact Hw | reflexivity].
    + exfalso. apply (Hn ex). reflexivity.
    + congruence.
Qed.

(** X5: as long as every call is answered (by a value or an exception) and
    no stop signal arrives, both threads are still in their loops after any
    number of iterations, with the flag set: no answer of the server, and
    no exception, ends or hangs the monitor. *)
Theorem answered_run_keeps_both_threads_alive
    (address : string) (now : Q) (ticks : list SmartPolling.tick) :
  Forall answered ticks ->
  let sys := SmartPolling.run ticks
               (SmartPolling.start_monitoring (fresh_world address now)) in
  SmartPolling.worker sys = SmartPolling.Alive /\
  SmartPolling.poller sys = SmartPolling.Alive /\
  SmartPolling.running (self (SmartPolling.state sys)) = true.
Proof.
  intros Hticks. cbv zeta.
  assert (H0 : live (SmartPolling.state
                       (SmartPolling.start_monitoring (fresh_world address now)))
               /\ both_alive
                    (SmartPolling.start_monitoring (fresh_world address now))).
  { split; [|split; reflexivity].
    split; [reflexivity|]. split; [reflexivity | constructor]. }
  revert H0.
  generalize (SmartPolling.start_monitoring (fresh_world address now)).
  induction Hticks as [|t ticks Ht _ IH]; intros sys [Hl Hb].
  - cbn. destruct Hb as [Hw Hp]. split; [exact Hw|]. split; [exact Hp|].
    apply Hl.
  - apply IH, step_alive; assumption.
Qed.

Lemma answered_run_keeps_both_threads_alive_witness :
  let srv := answering (Imap.OK, ["42"])
               (fun _ => Returns (Imap.OK, Returns hello)) in
  let ticks := [SmartPolling.PollerTick srv "01-Jan-2025" 5%Q 1%Q (Returns tt);
                SmartPolling.WorkerTick srv (Raises Exception);
                SmartPolling.WorkerTick srv (Returns tt)] in
  let sys := SmartPolling.run ticks
               (SmartPolling.start_monitoring
                  (fresh_world "support@example.com" 0%Q)) in
  SmartPolling.worker sys = SmartPolling.Alive /\
  SmartPolling.poller sys = SmartPolling.Alive /\
  SmartPolling.running (self (SmartPolling.state sys)) = true.
Proof.
  cbv zeta.
  apply (answered_run_keeps_both_threads_alive "support@example.com" 0%Q).
  assert (Hsrv : responsive
                   (answering (Imap.OK, ["42"])
                      (fun _ => Returns (Imap.OK, Returns hello)))).
  { unfold responsive. cbn. repeat split; discriminate. }
  repeat apply Forall_cons_2; [| | |apply Forall_nil_2];
    (split; [exact Hsrv | discriminate]).
Defined.

(** ** The push-mode watcher once the flag is down *)

Global Instance winding_down_preorder : PreOrder winding_down.
Proof.
  split.
  - intros w. split; [reflexivity | auto].
  - intros a b c (H1 & H2 & H3) (H4 & H5 & H6).
    split; [etransitivity; eassumption|]. split; [congruence | auto].
Qed.

Ltac frame_winding :=
  split; [frame_wire ltac:(unfold teardown; auto)
         | split; [reflexivity | cbn; auto]].

Lemma stop_monitoring_winding_down (srv : Imap.server) (sent : outcome unit) :
  respects winding_down (Idle.stop_monitoring srv sent).
Proof. unfold Idle.stop_monitoring. respects_auto frame_winding. Qed.

Lemma stop_monitoring_clears_flag (srv : Imap.server) (sent : outcome unit)
    (w : Idle.W) :
  Idle.running (self (Idle.stop_monitoring srv sent w).1) = false.
Proof.
  unfold Idle.stop_monitoring, mbind, M_bind, bind, set_self, modify.
  cbn [fst snd].
  set (w1 := mkWorld (Idle.set_running false (self w)) (sessions w) (wire w)
               (logs w) (slept w) (encoded w)).
  assert (Hrest : forall m : M Idle.W unit,
             respects winding_down m -> Idle.running (self (m w1).1) = false).
  { intros m Hm. destruct (Hm w1) as (_ & _ & H). apply H. reflexivity. }
  unfold get_self. cbn [fst snd]. apply Hrest.
  destruct (Idle.mail (self w1)); respects_auto frame_winding.
Qed.

Lemma idle_step_flag_down (st : Idle.pc * Idle.W) (i : Idle.input) :
  Idle.stop i = true \/ Idle.running (self st.2) = false ->
  (Idle.idle_step st i).1 = unwind st.1 /\
  Idle.running (self (Idle.idle_step st i).2) = false /\
  winding_down st.2 (Idle.idle_step st i).2.
Proof.
  intros Hdown. unfold Idle.idle_step.
  set (w := if Idle.stop i
            then (Idle.stop_monitoring (Idle.srv i) (Idle.sent i) st.2).1
            else st.2).
  assert (Hw : winding_down st.2 w).
  { subst w. destruct (Idle.stop i);
      [apply stop_monitoring_winding_down | reflexivity]. }
  assert (Hflag : Idle.running (self w) = false).
  { subst w. destruct (Idle.stop i) eqn:E.
    - apply stop_monitoring_clears_flag.
    - destruct Hdown as [Hs|Hr]; [discriminate | exact Hr]. }
  rewrite Hflag. destruct st as [[] w0]; cbn; auto.
Qed.

Lemma idle_run_flag_down (inputs : list Idle.input) :
  forall st, Idle.running (self st.2) = false ->
    (Idle.idle_run inputs st).1 = Nat.iter (List.length inputs) unwind st.1 /\
    winding_down st.2 (Idle.idle_run inputs st).2.
Proof.
  induction inputs as [|i inputs IH]; intros st Hdown.
  - split; reflexivity.
  - destruct (idle_step_flag_down st i (or_intror Hdown)) as (Hpc & Hr & Hw).
    destruct (IH _ Hr) as [Hpc' Hw'].
    change (Idle.idle_run (i :: inputs) st)
      with (Idle.idle_run inputs (Idle.idle_step st i)).
    cbn [List.length].
    split; [|etransitivity; eassumption].
    rewrite Hpc'.
    etransitivity; [apply (f_equal (Nat.iter _ unwind) Hpc)|].
    symmetry. apply Nat.iter_succ_r.
Qed.

Lemma unwind_thrice (n : nat) (pc : Idle.pc) :
  3 <= n -> Nat.iter n unwind pc = Idle.Finished.
Proof.
  intros Hn. destruct n as [|[|[|n]]]; try lia. clear Hn.
  induction n as [|n IH]; [destruct pc; reflexivity|].
  change (Nat.iter (S (S (S (S n)))) unwind pc)
    with (unwind (Nat.iter (S (S (S n))) unwind pc)).
  rewrite IH. reflexivity.
Qed.

(** X6: from any of its loop heads, once [running] is False (as it is
    after [stop_monitoring] has run and the part of the loop then under
    way has ended), [idle_loop] starts no other wait, poll or reconnection
    and returns by the third loop head it reaches, whatever the
    environment answers; on the way no ref is recorded, and the only
    commands that can still be sent are the DONE, CLOSE and LOGOUT of
    further calls of [stop_monitoring]. *)
Theorem idle_loop_returns_once_the_flag_is_down
    (st : Idle.pc * Idle.W) (later : list Idle.input) :
  Idle.running (self st.2) = false ->
  3 <= List.length later ->
  let st' := Idle.idle_run later st in
  st'.1 = Idle.Finished /\
  Idle.running (self st'.2) = false /\
  Idle.processed_emails (self st'.2) = Idle.processed_emails (self st.2) /\
  exists t, wire st'.2 = (wire st.2 ++ t)%list /\
            Forall (fun o => o = Imap.Done \/ o = Imap.Close \/
                             o = Imap.Logout) t.
Proof.
  intros Hdown Hlen. cbv zeta.
  destruct (idle_run_flag_down later st Hdown) as [Hpc Hw].
  split; [|split; [|split]].
  - rewrite Hpc. apply unwind_thrice, Hlen.
  - destruct Hw as (_ & _ & H). apply H, Hdown.
  - apply Hw.
  - apply Hw.
Qed.

Lemma idle_loop_returns_once_the_flag_is_down_witness :
  let quiet_line :=
    Idle.mkInput false
      (answering (Imap.OK, []) (fun _ => Raises Exception))
      (Returns tt) (Returns true) (Returns false) (Returns false)
      (Returns tt) (Returns tt) in
  let w0 := mkWorld (Idle.init "support@example.com") 0 [] [] [] [] in
  let st := Idle.idle_run [quiet_line; quiet_line] (Idle.start_monitoring w0) in
  let stopped :=
    (st.1, (Idle.stop_monitoring (Idle.srv quiet_line) (Idle.sent quiet_line)
              st.2).1) in
  stopped.1 = Idle.Waiting /\
  (Idle.idle_run [quiet_line; quiet_line; quiet_line] stopped).1
    = Idle.Finished.
Proof.
  cbv zeta. split; [reflexivity|].
  apply (idle_loop_returns_once_the_flag_is_down
           ((Idle.idle_run
               [Idle.mkInput false
                  (answering (Imap.OK, []) (fun _ => Raises Exception))
                  (Returns tt) (Returns true) (Returns false) (Returns false)
                  (Returns tt) (Returns tt);
                Idle.mkInput false
                  (answering (Imap.OK, []) (fun _ => Raises Exception))
                  (Returns tt) (Returns true) (Returns false) (Returns false)
                  (Returns tt) (Returns tt)]
               (Idle.start_monitoring
                  (mkWorld (Idle.init "support@example.com") 0 [] [] [] []))).1,
            (Idle.stop_monitoring
               (answering (Imap.OK, []) (fun _ => Raises Exception))
               (Returns tt)
               (Idle.idle_run
                  [Idle.mkInput false
                     (answering (Imap.OK, []) (fun _ => Raises Exception))
                     (Returns tt) (Returns true) (Returns false)
                     (Returns false) (Returns tt) (Returns tt);
                   Idle.mkInput false
                     (answering (Imap.OK, []) (fun _ => Raises Exception))
                     (Returns tt) (Returns true) (Returns false)
                     (Returns false) (Returns tt) (Returns tt)]
                  (Idle.start_monitoring
                     (mkWorld (Idle.init "support@example.com") 0 [] [] []
                        []))).2).1)).
  - reflexivity.
  - cbn. lia.
Defined.

(** ** Progress of the push-mode watcher *)

Global Instance same_flag_preorder : PreOrder same_flag.
Proof.
  split; [intros w; reflexivity|].
  intros a b c H1 H2. unfold same_flag in *. congruence.
Qed.

Ltac frame_flag := unfold same_flag; cbn; reflexivity.

Lemma draft_same_flag (srv : Imap.server) (e : email_data)
    (reply_body : string) :
  respects same_flag (Idle.save_reply_as_draft srv e reply_body).
Proof.
  unfold Idle.save_reply_as_draft, save_reply_as_draft.
  respects_auto frame_flag.
Qed.

Lemma process_new_email_same_flag (srv : Imap.server) (email_id : string) :
  respects same_flag (Idle.process_new_email srv email_id).
Proof.
  pose proof draft_same_flag as Hd.
  unfold Idle.process_new_email. respects_auto frame_flag.
Qed.

Lemma recent_loop_same_flag (srv : Imap.server) (email_ids : list string) :
  respects same_flag (Idle.recent_loop srv email_ids).
Proof.
  pose proof process_new_email_same_flag as Hp.
  induction email_ids as [|email_id rest IH]; cbn [Idle.recent_loop].
  - apply respects_ret; apply _.
  - unfold Idle.mark_processed. respects_auto frame_flag.
Qed.

Lemma process_recent_emails_same_flag (srv : Imap.server) :
  respects same_flag (Idle.process_recent_emails srv).
Proof.
  pose proof recent_loop_same_flag as Hl.
  unfold Idle.process_recent_emails. respects_auto frame_flag.
Qed.

Lemma guarded_same_flag (i : Idle.input) (segment : M Idle.W Idle.pc) :
  respects same_flag segment ->
  respects same_flag (Idle.guarded i segment).
Proof.
  intros Hs. unfold Idle.guarded, Idle.reconnect_handler.
  respects_auto frame_flag.
Qed.

Lemma segment_same_flag (i : Idle.input) (pc : Idle.pc) :
  respects same_flag
    match pc with
    | Idle.Outer => Idle.outer_segment i
    | Idle.Inner => Idle.inner_segment i
    | Idle.Waiting => Idle.waiting_segment i
    | _ => Idle.fallback_segment i
    end.
Proof.
  pose proof process_recent_emails_same_flag as Hp.
  destruct pc;
    unfold Idle.outer_segment, Idle.inner_segment, Idle.waiting_segment,
      Idle.fallback_segment, Idle.fallback_polling_body;
    respects_auto frame_flag.
Qed.

Section AnsweredInput.
Variable i : Idle.input.
Hypothesis Hi : answered_input i.

Lemma answered_server : responsive (Idle.srv i).
Proof. apply Hi. Qed.

Lemma answered_sent : Idle.sent i <> Blocked.
Proof. apply Hi. Qed.
Lemma answered_idling : Idle.idling i <> Blocked.
Proof. apply Hi. Qed.
Lemma answered_ready : Idle.ready i <> Blocked.
Proof. apply Hi. Qed.
Lemma answered_exists : Idle.exists_ i <> Blocked.
Proof. apply Hi. Qed.
Lemma answered_completion : Idle.completion i <> Blocked.
Proof. apply Hi. Qed.
Lemma answered_fault : Idle.fault i <> Blocked.
Proof. apply Hi. Qed.

Hint Resolve answered_sent answered_idling answered_ready answered_exists
  answered_completion answered_fault : hangs.
Hint Resolve responsive_connect responsive_login responsive_select
  responsive_search responsive_fetch responsive_as_string
  responsive_append responsive_close responsive_logout : hangs.

Lemma process_new_email_never_hangs (email_id : string) :
  never_hangs (Idle.process_new_email (Idle.srv i) email_id).
Proof.
  pose proof (save_reply_as_draft_never_hangs (Idle.srv i) answered_server
                Idle.email_address) as Hd.
  unfold Idle.process_new_email.
  apply never_hangs_try_except; [|intros e; never_hangs_auto].
  unfold mail_fetch.
  apply never_hangs_bind_call;
    [apply never_hangs_modify | apply responsive_fetch, answered_server | intros r Hr].
  destruct (negb _); [apply never_hangs_ret|].
  pose proof (responsive_parse (Idle.srv i) answered_server email_id r Hr) as Hp.
  apply never_hangs_bind; [apply never_hangs_call, Hp | intros m].
  cbv zeta. unfold Idle.save_reply_as_draft. never_hangs_auto.
Qed.

Lemma recent_loop_never_hangs (email_ids : list string) :
  never_hangs (Idle.recent_loop (Idle.srv i) email_ids).
Proof.
  pose proof process_new_email_never_hangs as Hp.
  induction email_ids as [|email_id rest IH]; cbn [Idle.recent_loop].
  - apply never_hangs_ret.
  - unfold Idle.mark_processed. never_hangs_auto.
Qed.

Lemma process_recent_emails_never_hangs :
  never_hangs (Idle.process_recent_emails (Idle.srv i)).
Proof.
  pose proof recent_loop_never_hangs as Hl.
  pose proof answered_server as Hsrv.
  unfold Idle.process_recent_emails. never_hangs_auto.
Qed.

Lemma reconnect_handler_never_hangs :
  never_hangs (Idle.reconnect_handler i).
Proof.
  pose proof answered_server as Hsrv.
  unfold Idle.reconnect_handler. never_hangs_auto.
Qed.

Lemma segment_never_hangs (pc : Idle.pc) :
  never_hangs
    match pc with
    | Idle.Outer => Idle.outer_segment i
    | Idle.Inner => Idle.inner_segment i
    | Idle.Waiting => Idle.waiting_segment i
    | _ => Idle.fallback_segment i
    end.
Proof.
  pose proof process_recent_emails_never_hangs as Hp.
  pose proof (@connect_imap_never_hangs (Idle.srv i) answered_server Idle.processor)
    as Hc.
  pose proof answered_server as Hsrv.
  destruct pc;
    unfold Idle.outer_segment, Idle.inner_segment, Idle.waiting_segment,
      Idle.fallback_segment, Idle.fallback_polling_body.
  - apply never_hangs_bind; [exact Hc | intros m]. never_hangs_auto.
  - never_hangs_auto.
  - never_hangs_auto.
  - never_hangs_auto.
  - never_hangs_auto.
Qed.

End AnsweredInput.

Lemma reconnect_handler_no_raise (i : Idle.input) :
  no_raise (Idle.reconnect_handler i).
Proof.
  unfold Idle.reconnect_handler.
  apply no_raise_bind; [apply no_raise_modify | intros _].
  apply no_raise_bind; [intros s e; discriminate | intros p].
  apply no_raise_bind.
  - destruct (Idle.mail p); [|apply no_raise_ret].
    apply no_raise_try_except. intros e. apply no_raise_ret.
  - intros _. apply no_raise_bind; [apply no_raise_modify | intros _].
    apply no_raise_ret.
Qed.

Lemma reconnect_handler_returns (i : Idle.input) :
  returns_in (fun pc => pc <> Idle.Finished) (Idle.reconnect_handler i).
Proof.
  unfold Idle.reconnect_handler.
  repeat (apply returns_in_bind; intros ?).
  apply returns_in_ret. discriminate.
Qed.

Lemma segment_returns (i : Idle.input) (pc : Idle.pc) :
  returns_in (fun pc => pc <> Idle.Finished)
    match pc with
    | Idle.Outer => Idle.outer_segment i
    | Idle.Inner => Idle.inner_segment i
    | Idle.Waiting => Idle.waiting_segment i
    | _ => Idle.fallback_segment i
    end.
Proof.
  destruct pc;
    unfold Idle.outer_segment, Idle.inner_segment, Idle.waiting_segment,
      Idle.fallback_segment;
    repeat first
      [ apply returns_in_ret; discriminate
      | apply returns_in_bind; intros ?
      | apply returns_in_try_except; [|intros ?]
      | match goal with
        | |- returns_in _ (match ?x with _ => _ end) => destruct x
        end ].
Qed.

Lemma exec_guarded_goes_on (i : Idle.input) (pc : Idle.pc) (w : Idle.W) :
  answered_input i ->
  let segment :=
    match pc with
    | Idle.Outer => Idle.outer_segment i
    | Idle.Inner => Idle.inner_segment i
    | Idle.Waiting => Idle.waiting_segment i
    | _ => Idle.fallback_segment i
    end in
  (Idle.exec (Idle.guarded i segment) w).1 <> Idle.Finished /\
  Idle.running (self (Idle.exec (Idle.guarded i segment) w).2)
    = Idle.running (self w).
Proof.
  intros Hi segment.
  assert (Hh : never_hangs (Idle.guarded i segment)).
  { apply never_hangs_try_except;
      [apply segment_never_hangs, Hi
      |intros e; apply reconnect_handler_never_hangs, Hi]. }
  assert (Hn : no_raise (Idle.guarded i segment)).
  { apply no_raise_try_except. intros e. apply reconnect_handler_no_raise. }
  assert (Hr : returns_in (fun pc => pc <> Idle.Finished)
                 (Idle.guarded i segment)).
  { apply returns_in_try_except;
      [apply segment_returns | intros e; apply reconnect_handler_returns]. }
  pose proof (guarded_same_flag i segment (segment_same_flag i pc) w) as Hf.
  specialize (Hh w). specialize (Hn w). specialize (Hr w).
  unfold Idle.exec, same_flag in *.
  destruct (Idle.guarded i segment w) as [w' [next|e|]]; cbn in *.
  - split; [apply Hr; reflexivity | exact Hf].
  - exfalso. apply (Hn e). reflexivity.
  - congruence.
Qed.

Lemma idle_step_goes_on (st : Idle.pc * Idle.W) (i : Idle.input) :
  answered_input i ->
  st.1 <> Idle.Finished -> Idle.running (self st.2) = true ->
  (Idle.idle_step st i).1 <> Idle.Finished /\
  Idle.running (self (Idle.idle_step st i).2) = true.
Proof.
  intros Hi Hpc Hrun. unfold Idle.idle_step.
  destruct Hi as [Hstop Hrest]. rewrite Hstop. cbv zeta. rewrite Hrun.
  assert (Hi : answered_input i) by (split; assumption).
  destruct st as [pc w]. cbn [fst snd] in *.
  destruct pc; try congruence.
  - destruct (exec_guarded_goes_on i Idle.Outer w Hi) as [H1 H2].
    split; [exact H1 | rewrite H2; exact Hrun].
  - destruct (exec_guarded_goes_on i Idle.Inner w Hi) as [H1 H2].
    split; [exact H1 | rewrite H2; exact Hrun].
  - destruct (exec_guarded_goes_on i Idle.Waiting w Hi) as [H1 H2].
    split; [exact H1 | rewrite H2; exact Hrun].
  - destruct (exec_guarded_goes_on i Idle.Fallback w Hi) as [H1 H2].
    split; [exact H1 | rewrite H2; exact Hrun].
Qed.

(** X7: as long as [stop_monitoring] is not called and every call is
    answered (by a value or an exception), [idle_loop] never returns: after
    any number of steps it is at one of its loop heads with the flag set.
    No server answer and no exception makes the watcher give up. *)
Theorem idle_loop_goes_on_while_answered
    (w0 : Idle.W) (inputs : list Idle.input) :
  Forall answered_input inputs ->
  let st := Idle.idle_run inputs (Idle.start_monitoring w0) in
  st.1 <> Idle.Finished /\ Idle.running (self st.2) = true.
Proof.
  intros Hin. cbv zeta.
  assert (H0 : (Idle.start_monitoring w0).1 <> Idle.Finished /\
               Idle.running (self (Idle.start_monitoring w0).2) = true)
    by (split; [discriminate | reflexivity]).
  revert H0. generalize (Idle.start_monitoring w0).
  induction Hin as [|i inputs Hi _ IH]; intros st [Hpc Hrun].
  - split; assumption.
  - apply IH, idle_step_goes_on; assumption.
Qed.

Lemma idle_loop_goes_on_while_answered_witness :
  let failing :=
    Idle.mkInput false
      (answering (Imap.OK, ["42"]) (fun _ => Raises Exception))
      (Raises Exception) (Returns true) (Returns true) (Returns true)
      (Raises SocketTimeout) (Raises Exception) in
  let w0 := mkWorld (Idle.init "support@example.com") 0 [] [] [] [] in
  (Idle.idle_run [failing; failing; failing; failing]
     (Idle.start_monitoring w0)).1 <> Idle.Finished.
Proof.
  cbv zeta.
  apply (idle_loop_goes_on_while_answered
           (mkWorld (Idle.init "support@example.com") 0 [] [] [] [])).
  assert (Hi : answered_input
                 (Idle.mkInput false
                    (answering (Imap.OK, ["42"]) (fun _ => Raises Exception))
                    (Raises Exception) (Returns true) (Returns true)
                    (Returns true) (Raises SocketTimeout) (Raises Exception))).
  { unfold answered_input, responsive. cbn. repeat split; discriminate. }
  repeat apply Forall_cons_2; [| | | |apply Forall_nil_2]; exact Hi.
Defined.

(** ** What [process_recent_emails] records *)

Lemma recent_loop_marks_all (srv : Imap.server) (email_ids : list string) :
  forall w : Idle.W,
    let r := Idle.recent_loop srv email_ids w in
    r.2 = Returns tt ->
    forall x, x ∈ email_ids -> x ∈ idle_processed r.1.
Proof.
  induction email_ids as [|y rest IH]; intros w; cbv zeta.
  - intros _ x Hx. inversion Hx.
  - destruct (decide (y ∈ idle_processed w)) as [Hin|Hout].
    + rewrite recent_loop_known by exact Hin. intros Hr x Hx.
      apply elem_of_cons in Hx as [->|Hx]; [|apply (IH w Hr x Hx)].
      destruct (recent_loop_spec srv y rest w) as [[Hsub _] _].
      apply Hsub, Hin.
    + rewrite recent_loop_unknown by exact Hout.
      destruct (Idle.process_new_email srv y w) as [w1 [[]|e|]];
        [|discriminate..].
      intros Hr x Hx.
      apply elem_of_cons in Hx as [->|Hx]; [|apply (IH _ Hr x Hx)].
      destruct (recent_loop_spec srv y rest (Idle.mark_processed y w1).1)
        as [[Hsub _] _].
      apply Hsub. unfold idle_processed. cbn.
      apply elem_of_union_r, elem_of_singleton. reflexivity.
Qed.

(** X8: when [process_recent_emails] comes back from a search that
    answered OK, every listed ref is in the processed set, whether its
    fetch, its parsing or its draft succeeded or failed; and in all later
    polls, whatever the servers list, such a ref is never fetched again.
    A message whose reply failed is not retried. *)
Theorem listed_refs_are_recorded_even_on_failure
    (srv : Imap.server) (w : Idle.W) (email_ids : list string) (x : string)
    (later : list Imap.server) :
  Imap.search srv = Returns (Imap.OK, email_ids) ->
  x ∈ email_ids ->
  let r := Idle.process_recent_emails srv w in
  r.2 = Returns tt ->
  x ∈ idle_processed r.1 /\
  exists t, wire (polls later r.1).1 = (wire r.1 ++ t)%list /\
            fetches x t = 0.
Proof.
  intros Hsearch Hx. cbv zeta. intros Hret.
  assert (Hin : x ∈ idle_processed (Idle.process_recent_emails srv w).1).
  { revert Hret.
    unfold Idle.process_recent_emails, mail_search, send, log.
    run_monad. rewrite Hsearch. cbn.
    match goal with
    | |- context [Idle.recent_loop srv email_ids ?w1] =>
        pose proof (recent_loop_marks_all srv email_ids w1) as Hall;
        pose proof (recent_loop_spec srv x email_ids w1) as [_ Hn];
        destruct (Idle.recent_loop srv email_ids w1) as [w2 [[]|e|]]
    end; cbn [fst snd] in *.
    - intros _. apply (Hall eq_refl x Hx).
    - exfalso. apply (Hn e). reflexivity.
    - discriminate. }
  split; [exact Hin|].
  destruct (polls_spec x later (Idle.process_recent_emails srv w).1)
    as [(_ & t & Ht & _ & Hknown & _) _].
  exists t. split; [exact Ht | apply Hknown, Hin].
Qed.

Lemma listed_refs_are_recorded_even_on_failure_witness :
  let srv := answering (Imap.OK, ["42"]) (fun _ => Raises Exception) in
  let w := mkWorld (Idle.init "support@example.com") 0 [] [] [] [] in
  let r := Idle.process_recent_emails srv w in
  wire r.1 = [Imap.Search "UNSEEN"; Imap.Fetch "42"] /\
  "42" ∈ idle_processed r.1 /\
  exists t, wire (polls [srv; srv] r.1).1 = (wire r.1 ++ t)%list /\
            fetches "42" t = 0.
Proof.
  cbv zeta. split; [reflexivity|].
  apply (listed_refs_are_recorded_even_on_failure
           (answering (Imap.OK, ["42"]) (fun _ => Raises Exception))
           (mkWorld (Idle.init "support@example.com") 0 [] [] [] [])
           ["42"] "42"
           [answering (Imap.OK, ["42"]) (fun _ => Raises Exception);
            answering (Imap.OK, ["42"]) (fun _ => Raises Exception)]).
  - reflexivity.
  - apply list_elem_of_here.
  - reflexivity.
Defined.

(** ** What a saved draft means *)

Ltac split_outcome o :=
  let a := fresh "a" in
  let ex := fresh "ex" in
  destruct o as [a|ex|]; cbn.

(** X9: [save_reply_as_draft] lets no exception out, and when it returns
    True it has logged in, selected a drafts folder, appended exactly the
    reply built from the original message to "Drafts" with the flag
    \Draft, closed and logged out, so that no session is left open. *)
Theorem draft_saved_means_appended_and_closed {P : Type}
    (address : P -> string) (srv : Imap.server) (e : email_data)
    (reply_body : string) (w : world P) :
  let r := save_reply_as_draft address srv e reply_body w in
  (forall ex, r.2 <> Raises ex) /\
  (r.2 = Returns true ->
   sessions r.1 = sessions w /\
   exists selects,
     (selects = [Imap.Select "Drafts"] \/
      selects = [Imap.Select "Drafts"; Imap.Select "DRAFT"]) /\
     wire r.1 =
       (wire w ++ [Imap.Connect; Imap.Login] ++ selects ++
        [Imap.Append "Drafts" "\Draft"
           (build_reply (address (self w)) e reply_body);
         Imap.Close; Imap.Logout])%list).
Proof.
  cbv zeta. unfold save_reply_as_draft. unfold_prims. run_monad.
  split_outcome (Imap.connect srv);
    [|split; [discriminate | discriminate]..].
  split_outcome (Imap.login srv);
    [|split; [discriminate | discriminate]..].
  split_outcome (Imap.select srv "Drafts").
  - split_outcome (Imap.as_string srv); [|split; discriminate..].
    split_outcome (Imap.append srv "Drafts"); [|split; discriminate..].
    split_outcome (Imap.close srv); [|split; discriminate..].
    split_outcome (Imap.logout srv); [|split; discriminate..].
    split; [discriminate|]. intros _. split; [reflexivity|].
    exists [Imap.Select "Drafts"]. split; [left; reflexivity|].
    cbn. rewrite <- !app_assoc. reflexivity.
  - split_outcome (Imap.select srv "DRAFT").
    + split_outcome (Imap.as_string srv); [|split; discriminate..].
      split_outcome (Imap.append srv "Drafts"); [|split; discriminate..].
      split_outcome (Imap.close srv); [|split; discriminate..].
      split_outcome (Imap.logout srv); [|split; discriminate..].
      split; [discriminate|]. intros _. split; [reflexivity|].
      exists [Imap.Select "Drafts"; Imap.Select "DRAFT"].
      split; [right; reflexivity|].
      cbn. rewrite <- !app_assoc. reflexivity.
    + split_outcome (Imap.close srv); [|split; discriminate..].
      split_outcome (Imap.logout srv); split; discriminate.
    + split; discriminate.
  - split; discriminate.
Qed.

(** X10: the status of APPEND is not looked at. When the login succeeds,
    "Drafts" is selected and the server answers APPEND with any status, NO
    included, [save_reply_as_draft] returns True and logs the draft as
    saved. *)
Theorem draft_reported_saved_whatever_append_answers {P : Type}
    (address : P -> string) (srv : Imap.server) (e : email_data)
    (reply_body : string) (w : world P) (appended : Imap.status) :
  Imap.connect srv = Returns tt ->
  Imap.login srv = Returns tt ->
  Imap.select srv "Drafts" = Returns Imap.OK ->
  Imap.as_string srv = Returns tt ->
  Imap.append srv "Drafts" = Returns appended ->
  Imap.close srv = Returns tt ->
  Imap.logout srv = Returns tt ->
  let r := save_reply_as_draft address srv e reply_body w in
  r.2 = Returns true /\
  logs r.1 = (logs w ++ [(INFO, ("Draft reply saved for email from "
                                  ++ sender e)%string)])%list.
Proof.
  intros Hc Hl Hs Ha Hp Hcl Hlo. cbv zeta.
  unfold save_reply_as_draft. unfold_prims. run_monad.
  rewrite Hc, Hl. cbn. rewrite Hs. cbn. rewrite Ha. cbn. rewrite Hp. cbn.
  rewrite Hcl. cbn. rewrite Hlo. cbn. split; reflexivity.
Qed.

Lemma draft_reported_saved_whatever_append_answers_witness :
  (SmartPolling.save_reply_as_draft append_refused (email_of "42" hello)
     "text" (fresh_world "support@example.com" 0%Q)).2 = Returns true.
Proof.
  apply (draft_reported_saved_whatever_append_answers
           SmartPolling.email_address append_refused
           (email_of "42" hello) "text"
           (fresh_world "support@example.com" 0%Q) Imap.NO);
    reflexivity.
Defined.

(** ** One draft for each message taken from the queue *)

Global Arguments appends : simpl never.

Lemma appends_app (t1 t2 : list Imap.op) :
  appends (t1 ++ t2) = appends t1 + appends t2.
Proof. unfold appends. rewrite List.filter_app, length_app. reflexivity. Qed.

Lemma appends_none (t : list Imap.op) : Forall not_append t -> appends t = 0.
Proof.
  unfold appends. induction 1 as [|o t Ho _ IH]; [reflexivity|].
  cbn. rewrite Ho. exact IH.
Qed.

Lemma fetch_loop_sends_no_append (srv : Imap.server)
    (email_ids : list string) :
  forall emails, respects (wire_adds not_append)
                   (SmartPolling.fetch_loop srv email_ids emails).
Proof.
  induction email_ids as [|email_id rest IH]; intros emails;
    cbn [SmartPolling.fetch_loop].
  - apply respects_ret; apply _.
  - unfold SmartPolling.mark_processed.
    respects_auto ltac:(frame_wire ltac:(reflexivity)).
Qed.

Lemma get_new_emails_sends_no_append (srv : Imap.server)
    (since_date : string) :
  respects (wire_adds not_append) (SmartPolling.get_new_emails srv since_date).
Proof.
  pose proof (fetch_loop_sends_no_append srv) as Hloop.
  unfold SmartPolling.get_new_emails.
  respects_auto ltac:(frame_wire ltac:(reflexivity)).
Qed.

Ltac one_draft :=
  eexists; split; [rewrite <- ?app_assoc; reflexivity|];
  split; [unfold appends; cbn; lia|];
  cbn [app];
  repeat (apply Forall_cons_2;
          [intros Happ; first [discriminate Happ | reflexivity]|]);
  apply Forall_nil_2.

(** One call of [save_reply_as_draft] sends at most one APPEND, and that
    one stores the reply built from its arguments. *)
Lemma save_reply_as_draft_one_draft {P : Type}
    (address : P -> string) (srv : Imap.server) (e : email_data)
    (reply_body : string) (w : world P) :
  let r := save_reply_as_draft address srv e reply_body w in
  exists t, wire r.1 = (wire w ++ t)%list /\ appends t <= 1 /\
            Forall (stores (build_reply (address (self w)) e reply_body)) t.
Proof.
  cbv zeta. unfold save_reply_as_draft, stores. unfold_prims. run_monad.
  repeat match goal with
         | |- context [match ?o with Returns _ => _ | _ => _ end] =>
             destruct o; cbn
         end;
    one_draft.
Qed.

Lemma for_each_put_frame (l : list email_data) :
  forall w0 : SmartPolling.W,
    let r := for_each l (fun e => SmartPolling.queue_put (Some e)) w0 in
    wire r.1 = wire w0 /\ processed r.1 = processed w0.
Proof.
  induction l as [|e l IH]; intros w0; [split; reflexivity|].
  cbn [for_each]. unfold bind, SmartPolling.queue_put at 1 3, put.
  destruct (full (SmartPolling.email_queue (self w0)));
    [split; reflexivity|]. cbn.
  match goal with
  | |- context [for_each l ?f ?w3] =>
      destruct (IH w3) as [H1 H2];
      destruct (for_each l f w3) as [w4 [[]|?|]]
  end; cbn in *; split; assumption.
Qed.

Lemma adjust_keeps_processed (now : Q) (found : list email_data)
    (p : SmartPolling.processor) :
  SmartPolling.processed_emails
    (SmartPolling.adjust_polling_interval now found p)
  = SmartPolling.processed_emails p /\
  SmartPolling.email_queue
    (SmartPolling.adjust_polling_interval now found p)
  = SmartPolling.email_queue p.
Proof.
  unfold SmartPolling.adjust_polling_interval.
  destruct (truthy_list found); [split; reflexivity|].
  destruct (Qltb _ _); split; reflexivity.
Qed.

(** What an iteration of the worker sends. *)
Lemma worker_body_one_draft (srv : Imap.server) (fault : outcome unit)
    (w : SmartPolling.W) :
  let r := SmartPolling.email_processor_worker_body srv fault w in
  exists t,
    wire r.1 = (wire w ++ t)%list /\
    appends t <= List.length (head_message w) /\
    forall e, head_message w = [e] ->
      Forall (stores (build_reply (SmartPolling.email_address (self w)) e
                        (create_standard_reply e))) t.
Proof.
  cbv zeta.
  assert (Hnil : forall (w3 : SmartPolling.W) (l : list email_data),
             wire w3 = wire w ->
             exists t,
               wire w3 = (wire w ++ t)%list /\
               appends t <= List.length l /\
               forall e, l = [e] ->
                 Forall (stores (build_reply
                                   (SmartPolling.email_address (self w)) e
                                   (create_standard_reply e))) t).
  { intros w3 l Hw3. exists []. rewrite app_nil_r.
    split; [exact Hw3|]. split; [unfold appends; cbn; lia|].
    intros e _. constructor. }
  unfold SmartPolling.email_processor_worker_body, try_except, mbind, M_bind,
    bind, SmartPolling.queue_get, get_item, head_message, queue_of.
  destruct (items (SmartPolling.email_queue (self w))) as [|[e|] rest] eqn:Hq;
    cbn [fst snd].
  - apply Hnil. reflexivity.
  - unfold call. destruct fault as [[]|ex|]; cbn [fst snd].
    + unfold set_self, modify. cbn [fst snd].
      match goal with
      | |- context [SmartPolling.save_reply_as_draft srv e ?body ?w1] =>
          pose proof (save_reply_as_draft_one_draft
                        SmartPolling.email_address srv e body w1)
            as (t & Ht & Hone & Hall);
          unfold SmartPolling.save_reply_as_draft;
          destruct (save_reply_as_draft SmartPolling.email_address srv e
                      body w1) as [w2 o]
      end.
      cbn [fst snd wire self SmartPolling.email_address
             SmartPolling.set_email_queue] in Ht, Hall.
      assert (Hdone : forall w3 : SmartPolling.W, wire w3 = wire w2 ->
                 exists t',
                   wire w3 = (wire w ++ t')%list /\
                   appends t' <= List.length [e] /\
                   forall e', [e] = [e'] ->
                     Forall (stores (build_reply
                                       (SmartPolling.email_address (self w))
                                       e' (create_standard_reply e'))) t').
      { intros w3 Hw3. exists t. split; [rewrite Hw3; exact Ht|].
        split; [exact Hone|]. intros e' [= <-]. exact Hall. }
      destruct o as [[|]|ex|]; cbn [fst snd];
        try (destruct ex; cbn [fst snd]);
        unfold log, modify; cbn [fst snd];
        apply Hdone; reflexivity.
    + unfold set_self, modify. cbn [fst snd].
      destruct ex; cbn [fst snd]; unfold log, modify; cbn [fst snd];
        apply Hnil; reflexivity.
    + unfold set_self, modify. cbn [fst snd]. apply Hnil. reflexivity.
  - unfold set_self, modify. cbn [fst snd]. apply Hnil. reflexivity.
Qed.

(** What an iteration of the worker does to the queue and to the
    processed set. *)
Lemma worker_body_queue (srv : Imap.server) (fault : outcome unit)
    (w : SmartPolling.W) :
  let r := SmartPolling.email_processor_worker_body srv fault w in
  processed r.1 = processed w /\
  maxsize (queue_of r.1) = maxsize (queue_of w) /\
  items (queue_of r.1) = tail (items (queue_of w)).
Proof.
  cbv zeta.
  unfold SmartPolling.email_processor_worker_body, try_except, mbind, M_bind,
    bind, SmartPolling.queue_get, get_item, processed, queue_of.
  destruct (items (SmartPolling.email_queue (self w))) as [|[e|] rest] eqn:Hq;
    cbn [fst snd].
  - cbn. rewrite Hq. repeat split.
  - unfold call. destruct fault as [[]|ex|]; cbn [fst snd].
    + unfold set_self, modify. cbn [fst snd].
      match goal with
      | |- context [SmartPolling.save_reply_as_draft srv e ?body ?w1] =>
          pose proof (save_reply_as_draft_same_self
                        SmartPolling.email_address srv e body w1) as Hself;
          unfold SmartPolling.save_reply_as_draft;
          destruct (save_reply_as_draft SmartPolling.email_address srv e
                      body w1) as [w2 o]
      end.
      unfold same_self in Hself. cbn [fst snd self] in Hself.
      destruct o as [[|]|ex|]; cbn [fst snd];
        try (destruct ex; cbn [fst snd]);
        unfold log, modify, mret, M_ret, ret; cbn;
        rewrite Hself; cbn; repeat split.
    + unfold set_self, modify. cbn [fst snd].
      destruct ex; cbn; repeat split.
    + cbn. repeat split.
  - cbn. repeat split.
Qed.

(** What an iteration of the poller sends, records and queues. *)
Lemma polling_body_batch (srv : Imap.server) (since_date : string)
    (now processing_time : Q) (fault : outcome unit) (w : SmartPolling.W) :
  unbounded w ->
  let r := SmartPolling.smart_polling_body srv since_date now processing_time
             fault w in
  (exists t, wire r.1 = (wire w ++ t)%list /\ appends t = 0) /\
  exists new,
    processed_grows w r.1 /\ fresh_batch w r.1 new /\
    items (queue_of r.1) = (items (queue_of w) ++ (Some <$> new))%list /\
    unbounded r.1.
Proof.
  intros Hu. cbv zeta.
  destruct (get_new_emails_spec srv since_date w) as [Hg Hfresh].
  destruct (get_new_emails_sends_no_append srv since_date w)
    as (t & Ht & Hnone).
  destruct (get_new_emails_keeps_queue srv since_date w) as [_ Hq].
  pose proof (get_new_emails_keeps_queue srv since_date w) as Hk.
  apply keeps_queue_unbounded in Hk. specialize (Hk Hu).
  apply appends_none in Hnone.
  unfold SmartPolling.smart_polling_body, try_except, mbind, M_bind, bind.
  destruct (SmartPolling.get_new_emails srv since_date w) as [w1 [new|e|]];
    cbn [fst snd] in *.
  - specialize (Hfresh new eq_refl).
    destruct (for_each_put_unbounded new w1 Hk) as (Hr & Hitems & Hu2).
    destruct (for_each_put_frame new w1) as [Hw Hp].
    destruct (for_each new _ w1) as [w2 o]. cbn [fst snd] in *.
    subst o.
    destruct (adjust_keeps_processed now new (self w2)) as [Hap Haq].
    assert (Hframe : forall w3 : SmartPolling.W,
               wire w3 = wire w2 -> processed w3 = processed w2 ->
               queue_of w3 = queue_of w2 ->
               (exists t', wire w3 = (wire w ++ t')%list /\ appends t' = 0) /\
               exists new',
                 processed_grows w w3 /\ fresh_batch w w3 new' /\
                 items (queue_of w3)
                   = (items (queue_of w) ++ (Some <$> new'))%list /\
                 unbounded w3).
    { intros w3 Hw3 Hp3 Hq3. split.
      - exists t. split; [rewrite Hw3, Hw; exact Ht | exact Hnone].
      - exists new. unfold processed_grows, fresh_batch, unbounded in *.
        rewrite Hp3, Hp, Hq3. split; [exact Hg|]. split; [exact Hfresh|].
        split; [rewrite Hitems, Hq; reflexivity | exact Hu2]. }
    unfold set_self, get_self, log, sleep, modify, call. cbn [fst snd].
    destruct fault as [[]|ex|]; cbn [fst snd]; apply Hframe;
      first [reflexivity | exact Hap | exact Haq].
  - unfold log, sleep, modify. cbn [fst snd]. split.
    + exists t. split; [exact Ht | exact Hnone].
    + exists []. split; [exact Hg|]. split; [apply fresh_batch_nil|].
      split; [|exact Hk]. rewrite app_nil_r.
      change (items (queue_of w1) = items (queue_of w)). rewrite Hq.
      reflexivity.
  - split.
    + exists t. split; [exact Ht | exact Hnone].
    + exists []. split; [exact Hg|]. split; [apply fresh_batch_nil|].
      split; [|exact Hk]. rewrite app_nil_r, Hq. reflexivity.
Qed.

Lemma pending_messages_app (q : list (option email_data))
    (new : list email_data) :
  omap (fun x => x) (q ++ (Some <$> new))%list
  = (omap (fun x : option email_data => x) q ++ new)%list.
Proof.
  rewrite omap_app. f_equal.
  induction new as [|e new IH]; [reflexivity|]. cbn. rewrite IH. reflexivity.
Qed.

Lemma each_ref_once_batch (prev new : list email_data)
    (w w' : SmartPolling.W) :
  each_ref_once prev w ->
  processed_grows w w' -> fresh_batch w w' new ->
  items (queue_of w') = (items (queue_of w) ++ (Some <$> new))%list ->
  unbounded w' ->
  each_ref_once prev w'.
Proof.
  intros (_ & Hnd & Hrec) Hg [Hnew Hfresh] Hq Hu.
  unfold each_ref_once, pending_messages. rewrite Hq, pending_messages_app.
  fold (pending_messages w). rewrite app_assoc.
  split; [exact Hu|]. split.
  - rewrite fmap_app. apply NoDup_app. split; [exact Hnd|].
    split; [|exact Hnew].
    intros x Hold Hx.
    apply list_elem_of_fmap in Hold as (e1 & -> & He1).
    apply list_elem_of_fmap in Hx as (e2 & Heq & He2).
    apply (proj1 (Hfresh e2 He2)). rewrite <- Heq. apply Hrec, He1.
  - intros e He. apply elem_of_app in He as [He|He].
    + apply Hg, Hrec, He.
    + apply (proj2 (Hfresh e He)).
Qed.

Lemma step_each_ref_once (prev : list email_data)
    (sys : SmartPolling.system) (t : SmartPolling.tick) :
  each_ref_once prev (SmartPolling.state sys) ->
  each_ref_once (prev ++ taken_by sys t)%list
    (SmartPolling.state (SmartPolling.step sys t)).
Proof.
  intros H.
  assert (Hsame : each_ref_once (prev ++ [])%list (SmartPolling.state sys))
    by (rewrite app_nil_r; exact H).
  destruct t as [srv fault|srv since_date now pt fault|];
    unfold taken_by, SmartPolling.step.
  - destruct (SmartPolling.worker sys); try exact Hsame.
    destruct (SmartPolling.running (self (SmartPolling.state sys)));
      cbn [negb]; [|exact Hsame].
    destruct (worker_body_queue srv fault (SmartPolling.state sys))
      as (Hp & Hm & Hq).
    assert (Hafter : each_ref_once
                       (prev ++ head_message (SmartPolling.state sys))%list
                       (SmartPolling.email_processor_worker_body srv fault
                          (SmartPolling.state sys)).1).
    { destruct H as (Hu & Hnd & Hrec).
      unfold each_ref_once, unbounded, pending_messages, head_message in *.
      rewrite Hp, Hm, Hq.
      destruct (items (queue_of (SmartPolling.state sys))) as [|[e|] rest];
        cbn [tail omap] in *.
      - rewrite app_nil_r. repeat split; assumption.
      - cbn in Hnd, Hrec |- *. rewrite <- app_assoc. cbn.
        repeat split; assumption.
      - rewrite app_nil_r. cbn in Hnd, Hrec. repeat split; assumption. }
    destruct (SmartPolling.email_processor_worker_body srv fault _)
      as [w [[]|?|]]; exact Hafter.
  - destruct (SmartPolling.poller sys); try exact Hsame.
    destruct (SmartPolling.running (self (SmartPolling.state sys)));
      cbn [negb]; [|exact Hsame].
    destruct (polling_body_batch srv since_date now pt fault
                (SmartPolling.state sys) (proj1 H))
      as (_ & new & Hg & Hfresh & Hq & Hu).
    pose proof (each_ref_once_batch prev new _ _ H Hg Hfresh Hq Hu) as Hafter.
    rewrite app_nil_r.
    destruct (SmartPolling.smart_polling_body srv since_date now pt fault _)
      as [w [[]|?|]]; exact Hafter.
  - rewrite app_nil_r. destruct H as (Hu & Hnd & Hrec).
    unfold each_ref_once, unbounded, pending_messages, processed, queue_of in *.
    unfold SmartPolling.stop_monitoring, SmartPolling.queue_put, mbind, M_bind,
      bind, set_self, log, modify, put, full.
    cbn. rewrite Hu. cbn. rewrite omap_app. cbn. rewrite app_nil_r.
    repeat split; assumption.
Qed.

Lemma run_each_ref_once (ticks : list SmartPolling.tick) :
  forall prev sys,
    each_ref_once prev (SmartPolling.state sys) ->
    each_ref_once (prev ++ taken ticks sys)%list
      (SmartPolling.state (SmartPolling.run ticks sys)).
Proof.
  induction ticks as [|t ticks IH]; intros prev sys H.
  - cbn. rewrite app_nil_r. exact H.
  - cbn [taken]. rewrite app_assoc.
    apply (IH (prev ++ taken_by sys t)%list (SmartPolling.step sys t)).
    apply step_each_ref_once, H.
Qed.

Lemma step_one_draft (sys : SmartPolling.system) (t : SmartPolling.tick) :
  exists tr,
    wire (SmartPolling.state (SmartPolling.step sys t))
      = (wire (SmartPolling.state sys) ++ tr)%list /\
    appends tr <= List.length (taken_by sys t) /\
    forall e, taken_by sys t = [e] ->
      Forall (stores (build_reply
                        (SmartPolling.email_address
                           (self (SmartPolling.state sys)))
                        e (create_standard_reply e))) tr.
Proof.
  assert (Hsame : forall l : list email_data,
             exists tr,
               wire (SmartPolling.state sys)
                 = (wire (SmartPolling.state sys) ++ tr)%list /\
               appends tr <= List.length l /\
               forall e, l = [e] ->
                 Forall (stores (build_reply
                                   (SmartPolling.email_address
                                      (self (SmartPolling.state sys)))
                                   e (create_standard_reply e))) tr).
  { intros l. exists []. rewrite app_nil_r. split; [reflexivity|].
    split; [unfold appends; cbn; lia|]. intros e _. constructor. }
  destruct t as [srv fault|srv since_date now pt fault|];
    unfold taken_by, SmartPolling.step.
  - destruct (SmartPolling.worker sys); try apply Hsame.
    destruct (SmartPolling.running (self (SmartPolling.state sys)));
      cbn [negb]; [|apply Hsame].
    pose proof (worker_body_one_draft srv fault (SmartPolling.state sys))
      as Hb. cbv zeta in Hb.
    destruct (SmartPolling.email_processor_worker_body srv fault _)
      as [w [[]|?|]]; exact Hb.
  - destruct (SmartPolling.poller sys); try apply Hsame.
    destruct (SmartPolling.running (self (SmartPolling.state sys)));
      cbn [negb]; [|apply Hsame].
    assert (Hb : exists t,
               wire (SmartPolling.smart_polling_body srv since_date now pt
                       fault (SmartPolling.state sys)).1
                 = (wire (SmartPolling.state sys) ++ t)%list /\
               appends t = 0).
    { destruct (get_new_emails_sends_no_append srv since_date
                  (SmartPolling.state sys)) as (t & Ht & Hnone).
      apply appends_none in Hnone.
      unfold SmartPolling.smart_polling_body, try_except, mbind, M_bind, bind.
      destruct (SmartPolling.get_new_emails srv since_date
                  (SmartPolling.state sys)) as [w1 [new|e|]];
        cbn [fst snd] in *.
      - destruct (for_each_put_frame new w1) as [Hw _].
        destruct (for_each new _ w1) as [w2 [[]|ex|]]; cbn [fst snd] in *.
        + unfold set_self, get_self, log, sleep, modify, call.
          cbn [fst snd].
          destruct fault as [[]|ex|]; cbn [fst snd wire];
            (exists t; split; [rewrite Hw; exact Ht | exact Hnone]).
        + unfold log, sleep, modify. cbn [fst snd wire].
          exists t. split; [rewrite Hw; exact Ht | exact Hnone].
        + exists t. split; [rewrite Hw; exact Ht | exact Hnone].
      - unfold log, sleep, modify. cbn [fst snd wire].
        exists t. split; [exact Ht | exact Hnone].
      - exists t. split; [exact Ht | exact Hnone]. }
    destruct Hb as (t & Ht & Hnone).
    assert (Hdone : forall w : SmartPolling.W,
               wire w = (wire (SmartPolling.state sys) ++ t)%list ->
               exists tr,
                 wire w = (wire (SmartPolling.state sys) ++ tr)%list /\
                 appends tr <= List.length (@nil email_data) /\
                 forall e, [] = [e] ->
                   Forall (stores (build_reply
                                     (SmartPolling.email_address
                                        (self (SmartPolling.state sys)))
                                     e (create_standard_reply e))) tr).
    { intros w Hw. exists t. split; [exact Hw|]. split; [rewrite Hnone; lia|].
      intros e [=]. }
    destruct (SmartPolling.smart_polling_body srv since_date now pt fault _)
      as [w [[]|?|]]; apply Hdone, Ht.
  - unfold SmartPolling.stop_monitoring, SmartPolling.queue_put, mbind, M_bind,
      bind, set_self, log, modify, put.
    cbn.
    destruct (full (SmartPolling.email_queue
                      (self (SmartPolling.state sys)))); cbn;
      (exists []; rewrite app_nil_r; split; [reflexivity|];
       split; [unfold appends; cbn; lia|]; intros e [=]).
Qed.

(** X11: no ref gets two drafts. An iteration sends an APPEND only if it
    is an iteration of the worker that took a message from the queue, then
    at most one, and that one stores the reply built for the message taken.
    Over any run from [start_monitoring], the messages taken from the queue
    have pairwise distinct refs, each recorded in [processed_emails]. *)
Theorem each_ref_is_drafted_at_most_once :
  (forall (sys : SmartPolling.system) (t : SmartPolling.tick),
     exists tr,
       wire (SmartPolling.state (SmartPolling.step sys t))
         = (wire (SmartPolling.state sys) ++ tr)%list /\
       appends tr <= List.length (taken_by sys t) /\
       List.length (taken_by sys t) <= 1 /\
       forall e, taken_by sys t = [e] ->
         Forall (fun o =>
                   is_append o = true ->
                   o = Imap.Append "Drafts" "\Draft"
                         (build_reply
                            (SmartPolling.email_address
                               (self (SmartPolling.state sys)))
                            e (create_standard_reply e))) tr) /\
  (forall (address : string) (now : Q) (ticks : list SmartPolling.tick),
     let start := SmartPolling.start_monitoring (fresh_world address now) in
     NoDup (id <$> taken ticks start) /\
     forall e, e ∈ taken ticks start ->
               id e ∈ processed (SmartPolling.state
                                   (SmartPolling.run ticks start))).
Proof.
  split.
  - intros sys t. destruct (step_one_draft sys t) as (tr & Hw & Hone & Hall).
    exists tr. split; [exact Hw|]. split; [exact Hone|]. split; [|exact Hall].
    unfold taken_by, head_message.
    destruct t; cbn; try lia.
    destruct (SmartPolling.worker sys); cbn; try lia.
    destruct (SmartPolling.running _); cbn; try lia.
    destruct (items _) as [|[e|] rest]; cbn; lia.
  - intros address now ticks start.
    destruct (run_each_ref_once ticks [] start) as (_ & Hnd & Hrec).
    { split; [reflexivity|]. split; [constructor|].
      intros e He. inversion He. }
    cbn [app] in Hnd, Hrec. rewrite fmap_app in Hnd.
    apply NoDup_app in Hnd as (Hnd & _ & _).
    split; [exact Hnd|]. intros e He. apply Hrec, elem_of_app. left. exact He.
Qed.

(** ** zoho_faiss.py : one reply per message *)

Global Instance same_slept_preorder {P} : PreOrder (@same_slept P).
Proof.
  split; [intros w; reflexivity|].
  intros a b c H1 H2. unfold same_slept in *. congruence.
Qed.

Ltac frame_slept := unfold same_slept; cbn; reflexivity.

Lemma faiss_draft_io_only (srv : Imap.server) (e : email_data)
    (reply_body : string) :
  respects io_only (Faiss.save_reply_as_draft srv e reply_body).
Proof. unfold Faiss.save_reply_as_draft. respects_auto frame_io. Qed.

Lemma faiss_draft_no_raise (srv : Imap.server) (e : email_data)
    (reply_body : string) :
  no_raise (Faiss.save_reply_as_draft srv e reply_body).
Proof.
  apply no_raise_try_except. intros ex.
  apply no_raise_bind; [apply no_raise_modify | intros _; apply no_raise_ret].
Qed.

Lemma faiss_reply_frame
    (encode : string -> list Q) (e : email_data) (w : Faiss.W) :
  let r := Faiss.create_standard_reply encode e w in
  exists template,
    template ∈ Faiss.EMAIL_TEMPLATES /\
    r.2 = Returns (template ++ reply_footer e) /\
    wire r.1 = wire w /\ self r.1 = self w /\ slept r.1 = slept w /\
    encoded r.1 = (encoded w ++ if whitespace_only (body e) then []
                                else [body e])%list.
Proof.
  cbv zeta. unfold Faiss.create_standard_reply, mbind, M_bind, bind.
  pose proof (faiss_select_template_spec encode (body e) w) as Hs.
  assert (Hframe : wire (Faiss.select_template encode (body e) w).1 = wire w
                   /\ self (Faiss.select_template encode (body e) w).1 = self w
                   /\ slept (Faiss.select_template encode (body e) w).1
                      = slept w).
  { unfold Faiss.select_template, Faiss.model_encode, record_encode, log.
    destruct (negb _); [repeat split|].
    with_strategy opaque [FaissLib.search getitem Faiss.EMAIL_TEMPLATES]
      run_monad.
    match goal with
    | |- context [FaissLib.search ?a ?b] => destruct (FaissLib.search a b)
    end. repeat split. }
  cbv zeta in Hs. destruct Hframe as (Hw & Hself & Hsl).
  destruct (Faiss.select_template encode (body e) w) as [w1 o].
  cbn [fst snd] in *.
  destruct (whitespace_only (body e)).
  - destruct Hs as [(general & Hg & ->) Henc]. exists general.
    split; [eapply list_elem_of_lookup_2, Hg|]. cbn.
    split; [reflexivity|]. rewrite app_nil_r. auto 10.
  - destruct Hs as (Henc & k & template & Hk & -> & _). exists template.
    split; [eapply list_elem_of_lookup_2, Hk|]. cbn.
    split; [reflexivity|]. auto 10.
Qed.

(** X12: for any embedding function (the call of the model is taken to
    return a vector), [create_standard_reply] of zoho_faiss.py returns one
    of the three templates followed by the subject and the sender of the
    original. It sends nothing, changes no attribute and does not sleep;
    it calls the model at most once, and then with the body of the
    message. When the body is ASCII text, the model is called exactly
    when the body is not blank. *)
Theorem faiss_reply_is_a_template_with_footer
    (encode : string -> list Q) (e : email_data) (w : Faiss.W) :
  let r := Faiss.create_standard_reply encode e w in
  exists template,
    template ∈ Faiss.EMAIL_TEMPLATES /\
    r.2 = Returns (template ++ reply_footer e) /\
    wire r.1 = wire w /\ self r.1 = self w /\ slept r.1 = slept w /\
    (encoded r.1 = encoded w \/
     encoded r.1 = (encoded w ++ [body e])%list) /\
    (ascii_text (body e) = true ->
     encoded r.1 = (encoded w ++ if whitespace_only (body e) then []
                                 else [body e])%list).
Proof.
  cbv zeta.
  destruct (faiss_reply_frame encode e w)
    as (template & Hin & Hr & Hw & Hself & Hsl & Henc).
  exists template. split; [exact Hin|]. split; [exact Hr|].
  split; [exact Hw|]. split; [exact Hself|]. split; [exact Hsl|].
  split; [|intros _; exact Henc].
  rewrite Henc. destruct (whitespace_only (body e));
    [left; apply app_nil_r | right; reflexivity].
Qed.

Lemma process_one_encodes (encode : string -> list Q) (srv : Imap.server)
    (e : email_data) (w : Faiss.W) :
  let r := Faiss.process_one encode srv e w in
  (forall ex, r.2 <> Raises ex) /\
  slept r.1 = slept w /\
  encoded r.1 = (encoded w ++ if whitespace_only (body e) then []
                              else [body e])%list.
Proof.
  cbv zeta. unfold Faiss.process_one, mbind, M_bind, bind, log, modify.
  cbn [fst snd].
  set (w0 := mkWorld (self w) (sessions w) (wire w)
               (logs w ++ [(INFO, "Processing email from " ++ sender e)])
               (slept w) (encoded w)).
  destruct (faiss_reply_frame encode e w0)
    as (template & _ & Hr & _ & _ & Hsl & Henc).
  set (reply := template ++ reply_footer e) in *.
  destruct (Faiss.create_standard_reply encode e w0) as [w1 o].
  cbn [fst snd] in *. subst o.
  pose proof (faiss_draft_io_only srv e reply w1) as (_ & Hsl2 & Henc2).
  pose proof (faiss_draft_no_raise srv e reply w1) as Hn.
  destruct (Faiss.save_reply_as_draft srv e reply w1) as [w2 [[|]|ex|]];
    cbn [fst snd] in *.
  - split; [discriminate|]. cbn. rewrite Hsl2, Henc2, Hsl, Henc.
    split; reflexivity.
  - split; [discriminate|]. cbn. rewrite Hsl2, Henc2, Hsl, Henc.
    split; reflexivity.
  - exfalso. apply (Hn ex). reflexivity.
  - split; [discriminate|]. rewrite Hsl2, Henc2, Hsl, Henc.
    split; reflexivity.
Qed.

Global Instance model_idle_preorder {P} : PreOrder (@model_idle P).
Proof.
  split; [intros w; split; reflexivity|].
  intros a b c [H1 H2] [H3 H4]. split; congruence.
Qed.

Ltac frame_model := unfold model_idle; cbn; split; reflexivity.

Lemma unread_loop_model_idle (srv : Imap.server) (email_ids : list string) :
  forall emails, respects model_idle (Faiss.unread_loop srv email_ids emails).
Proof.
  induction email_ids as [|email_id rest IH]; intros emails;
    cbn [Faiss.unread_loop].
  - apply respects_ret; apply _.
  - unfold Faiss.mark_processed. respects_auto frame_model.
Qed.

Lemma get_unread_emails_model_idle (srv : Imap.server) :
  respects model_idle (Faiss.get_unread_emails srv).
Proof.
  pose proof (unread_loop_model_idle srv) as Hloop.
  unfold Faiss.get_unread_emails. respects_auto frame_model.
Qed.


Lemma embedded_bodies_cons (e : email_data) (emails : list email_data) :
  embedded_bodies (e :: emails)
  = ((if whitespace_only (body e) then [] else [body e])
     ++ embedded_bodies emails)%list.
Proof.
  unfold embedded_bodies. cbn. destruct (whitespace_only (body e)); reflexivity.
Qed.

Lemma process_loop_encodes (encode : string -> list Q) (srv : Imap.server)
    (emails : list email_data) :
  forall w : Faiss.W,
    let r := for_each emails (Faiss.process_one encode srv) w in
    (forall ex, r.2 <> Raises ex) /\
    slept r.1 = slept w /\
    (r.2 = Returns tt ->
     encoded r.1 = (encoded w ++ embedded_bodies emails)%list).
Proof.
  induction emails as [|e emails IH]; intros w; cbv zeta.
  - cbn. split; [discriminate|]. split; [reflexivity|].
    intros _. rewrite app_nil_r. reflexivity.
  - cbn [for_each]. unfold bind.
    destruct (process_one_encodes encode srv e w) as (Hn & Hsl & Henc).
    destruct (Faiss.process_one encode srv e w) as [w1 [[]|ex|]];
      cbn [fst snd] in *.
    + destruct (IH w1) as (Hn' & Hsl' & Henc').
      split; [exact Hn'|]. split; [congruence|].
      intros Hr. rewrite (Henc' Hr), Henc, embedded_bodies_cons, app_assoc.
      reflexivity.
    + exfalso. apply (Hn ex). reflexivity.
    + split; [discriminate|]. split; [exact Hsl | discriminate].
Qed.

Lemma process_emails_unfold (encode : string -> list Q)
    (srv : Imap.server) (w : Faiss.W) :
  Faiss.process_emails encode srv w =
    match Faiss.get_unread_emails srv
            (log INFO "Checking for new emails..." w).1 with
    | (w1, Returns emails) =>
        (if negb (truthy_list emails) then log INFO "No new emails found"
         else for_each emails (Faiss.process_one encode srv)) w1
    | (w1, Raises ex) => (w1, Raises ex)
    | (w1, Blocked) => (w1, Blocked)
    end.
Proof. reflexivity. Qed.

Lemma embedded_bodies_sublist (emails : list email_data) :
  embedded_bodies emails `sublist_of` (body <$> emails).
Proof.
  induction emails as [|e emails IH]; [constructor|].
  rewrite embedded_bodies_cons, fmap_cons.
  destruct (whitespace_only (body e)); cbn [app].
  - apply sublist_cons, IH.
  - apply sublist_skip, IH.
Qed.

(** X13: [process_emails] does not sleep, and when it returns the model
    has been called only with bodies of the messages that
    [get_unread_emails] returned, at most once for each and in their
    order. When those bodies are ASCII text, it has been called exactly
    once for each body that is not blank, and not for the blank ones. *)
Theorem faiss_one_embedding_per_new_message
    (encode : string -> list Q) (srv : Imap.server) (w : Faiss.W) :
  let w0 := (log INFO "Checking for new emails..." w).1 in
  let r := Faiss.process_emails encode srv w in
  slept r.1 = slept w /\
  (r.2 = Returns tt ->
   exists emails,
     (Faiss.get_unread_emails srv w0).2 = Returns emails /\
     (exists bodies,
        encoded r.1 = (encoded w ++ bodies)%list /\
        bodies `sublist_of` (body <$> emails)) /\
     (Forall (fun e => ascii_text (body e) = true) emails ->
      encoded r.1 = (encoded w ++ embedded_bodies emails)%list)).
Proof.
  cbv zeta. rewrite process_emails_unfold.
  set (w0 := (log INFO "Checking for new emails..." w).1).
  assert (Hs0 : slept w0 = slept w) by reflexivity.
  assert (He0 : encoded w0 = encoded w) by reflexivity.
  destruct (get_unread_emails_model_idle srv w0) as [Hsl Henc].
  destruct (Faiss.get_unread_emails srv w0) as [w1 [emails|ex|]];
    cbn [fst snd] in *.
  - assert (Hdone : forall w2 : Faiss.W,
               encoded w2 = (encoded w1 ++ embedded_bodies emails)%list ->
               exists emails',
                 Returns emails = Returns emails' /\
                 (exists bodies,
                    encoded w2 = (encoded w ++ bodies)%list /\
                    bodies `sublist_of` (body <$> emails')) /\
                 (Forall (fun e => ascii_text (body e) = true) emails' ->
                  encoded w2 = (encoded w ++ embedded_bodies emails')%list)).
    { intros w2 Hw2. exists emails. split; [reflexivity|].
      rewrite Hw2, Henc, He0. split; [|intros _; reflexivity].
      exists (embedded_bodies emails).
      split; [reflexivity | apply embedded_bodies_sublist]. }
    destruct emails as [|e emails]; cbn [truthy_list negb].
    + split; [cbn; congruence|]. intros _. apply Hdone.
      cbn. rewrite app_nil_r. reflexivity.
    + destruct (process_loop_encodes encode srv (e :: emails) w1)
        as (_ & Hsl' & Henc').
      split; [congruence|]. intros Hr. apply Hdone, Henc', Hr.
  - split; [congruence | discriminate].
  - split; [congruence | discriminate].
Qed.

Lemma faiss_one_embedding_per_new_message_witness :
  let srv := answering (Imap.OK, ["41"; "42"])
               (fun i => if String.eqb i "41"
                         then Returns (Imap.OK, Returns hello)
                         else Returns (Imap.OK,
                                Returns (Imap.mkParsed "Empty" "c@d.com"
                                           "   " ""))) in
  let w := mkWorld (Faiss.mkProcessor "support@example.com" ∅)
             0 [] [] [] [] in
  let r := Faiss.process_emails keyed_encode srv w in
  r.2 = Returns tt /\
  encoded r.1 = ["support issue with login"].
Proof.
  cbv zeta.
  assert (Hr : (Faiss.process_emails keyed_encode
                  (answering (Imap.OK, ["41"; "42"])
                     (fun i => if String.eqb i "41"
                               then Returns (Imap.OK, Returns hello)
                               else Returns (Imap.OK,
                                      Returns (Imap.mkParsed "Empty" "c@d.com"
                                                 "   " ""))))
                  (mkWorld (Faiss.mkProcessor "support@example.com" ∅)
                     0 [] [] [] [])).2 = Returns tt)
    by (vm_compute; reflexivity).
  split; [exact Hr|].
  destruct (faiss_one_embedding_per_new_message keyed_encode
              (answering (Imap.OK, ["41"; "42"])
                 (fun i => if String.eqb i "41"
                           then Returns (Imap.OK, Returns hello)
                           else Returns (Imap.OK,
                                  Returns (Imap.mkParsed "Empty" "c@d.com"
                                             "   " ""))))
              (mkWorld (Faiss.mkProcessor "support@example.com" ∅)
                 0 [] [] [] [])) as [_ H].
  destruct (H Hr) as (emails & Hemails & _ & Henc).
  assert (Hconcrete : emails = [email_of "41" hello;
                                email_of "42" (Imap.mkParsed "Empty" "c@d.com"
                                                 "   " "")]).
  { vm_compute in Hemails. injection Hemails as <-. reflexivity. }
  subst emails. rewrite Henc; [reflexivity|].
  repeat constructor.
Defined.


(** ** zoho_faiss.py : the pause between two checks *)



(** ** gmail_auto_reply_with_faiss.py : which template is returned *)

(** X15: [select_template] of the Gmail script always returns, after one
    call of the model on the thread content. The index was built from the
    templates with the placeholder removed, so the template returned is
    the one whose text without [{sender_name}] is nearest to the content;
    it is returned with the placeholder still in it. *)
Theorem gmail_select_template_nearest_cleaned
    (encode : string -> list Q) (thread_content : string) (w : Gmail.W) :
  let r := Gmail.select_template encode thread_content w in
  encoded r.1 = (encoded w ++ [thread_content])%list /\
  wire r.1 = wire w /\
  exists k template,
    Gmail.EMAIL_TEMPLATES !! k = Some template /\
    r.2 = Returns template /\
    forall j other,
      Gmail.EMAIL_TEMPLATES !! j = Some other ->
      (distance encode thread_content
         (Gmail.remove_literal "{sender_name}" 0 template)
       <= distance encode thread_content
            (Gmail.remove_literal "{sender_name}" 0 other))%Q.
Proof.
  cbv zeta. unfold Gmail.select_template, Gmail.model_encode, record_encode.
  with_strategy opaque [FaissLib.search getitem Gmail.EMAIL_TEMPLATES
                          Gmail.clean_templates]
    run_monad.
  pose proof (search_spec (Gmail.faiss_index encode) (encode thread_content))
    as Hs.
  destruct Hs as (k & Hk & Hd & Hmin); [discriminate|].
  destruct (FaissLib.search (Gmail.faiss_index encode) (encode thread_content))
    as [d label].
  cbn [fst snd] in *. subst label.
  unfold Gmail.faiss_index, Gmail.clean_templates in Hd, Hmin.
  change (List.map encode
            (List.map (Gmail.remove_literal "{sender_name}" 0)
               Gmail.EMAIL_TEMPLATES))
    with (encode <$> (Gmail.remove_literal "{sender_name}" 0
                        <$> Gmail.EMAIL_TEMPLATES)) in Hd, Hmin.
  rewrite <- !list_fmap_compose in Hd, Hmin.
  rewrite list_lookup_fmap in Hd.
  destruct (Gmail.EMAIL_TEMPLATES !! k) as [template|] eqn:Ht;
    [|discriminate].
  cbn in Hd. injection Hd as Hd.
  rewrite (getitem_lookup _ _ _ Ht). cbn.
  split; [reflexivity|]. split; [reflexivity|].
  exists k, template. split; [exact Ht|]. split; [reflexivity|].
  intros j other Hj. unfold distance.
  rewrite Hd. apply (Hmin j).
  rewrite list_lookup_fmap, Hj. reflexivity.
Qed.

(** ** Leaving IDLE mode *)

(** X16: while waiting in IDLE mode the loop sends nothing, or its first
    command is DONE: the search, the fetches and the draft that follow a
    notification are only sent after IDLE mode was left. No exception
    leaves the waiting loop. *)
Theorem idle_mode_is_left_before_any_command (i : Idle.input) (w : Idle.W) :
  let r := Idle.waiting_segment i w in
  (forall ex, r.2 <> Raises ex) /\
  exists t, wire r.1 = (wire w ++ t)%list /\
            (t = [] \/ exists rest, t = Imap.Done :: rest).
Proof.
  cbv zeta. split.
  - apply no_raise_try_except. intros [| |];
      (apply no_raise_bind; [apply no_raise_modify
                            | intros _; apply no_raise_ret]).
  - unfold Idle.waiting_segment, try_except, mbind, M_bind, bind, call, log,
      send, modify, mret, M_ret, ret.
    destruct (Idle.ready i) as [[|]|ex|]; cbn [fst snd].
    + destruct (Idle.exists_ i) as [[|]|ex|]; cbn [fst snd].
      * destruct (Idle.sent i) as [[]|ex|]; cbn [fst snd].
        -- destruct (Idle.completion i) as [[]|ex|]; cbn [fst snd].
           ++ match goal with
              | |- context [Idle.process_recent_emails ?s ?w1] =>
                  destruct (process_recent_emails_quiet s w1)
                    as [(t & Ht & _) _];
                  destruct (Idle.process_recent_emails s w1) as [w2 [[]|ex|]]
              end; cbn [fst snd wire] in *;
                try (destruct ex; cbn [fst snd wire]);
                (exists (Imap.Done :: t);
                 split; [rewrite Ht, <- app_assoc; reflexivity
                        | right; eexists; reflexivity]).
           ++ destruct ex; cbn; (exists [Imap.Done];
                split; [reflexivity | right; eexists; reflexivity]).
           ++ cbn. exists [Imap.Done].
              split; [reflexivity | right; eexists; reflexivity].
        -- destruct ex; cbn; (exists [Imap.Done];
             split; [reflexivity | right; eexists; reflexivity]).
        -- cbn. exists [Imap.Done].
           split; [reflexivity | right; eexists; reflexivity].
      * cbn. exists []. split; [by rewrite app_nil_r | left; reflexivity].
      * destruct ex; cbn; (exists [];
          split; [by rewrite app_nil_r | left; reflexivity]).
      * cbn. exists []. split; [by rewrite app_nil_r | left; reflexivity].
    + destruct (Idle.sent i) as [[]|ex|]; cbn [fst snd].
      * destruct (Idle.completion i) as [[]|ex|]; cbn [fst snd];
          try (destruct ex); cbn; (exists [Imap.Done];
            split; [reflexivity | right; eexists; reflexivity]).
      * destruct ex; cbn; (exists [Imap.Done];
          split; [reflexivity | right; eexists; reflexivity]).
      * cbn. exists [Imap.Done].
        split; [reflexivity | right; eexists; reflexivity].
    + destruct ex; cbn; (exists [];
        split; [by rewrite app_nil_r | left; reflexivity]).
    + cbn. exists []. split; [by rewrite app_nil_r | left; reflexivity].
Qed.

(** ** zoho_faiss.py : one draft for each message *)

Lemma unread_loop_sends_no_append (srv : Imap.server)
    (email_ids : list string) :
  forall emails, respects (wire_adds not_append)
                   (Faiss.unread_loop srv email_ids emails).
Proof.
  induction email_ids as [|email_id rest IH]; intros emails;
    cbn [Faiss.unread_loop].
  - apply respects_ret; apply _.
  - unfold Faiss.mark_processed.
    respects_auto ltac:(frame_wire ltac:(reflexivity)).
Qed.

Lemma get_unread_emails_sends_no_append (srv : Imap.server) :
  respects (wire_adds not_append) (Faiss.get_unread_emails srv).
Proof.
  pose proof (unread_loop_sends_no_append srv) as Hloop.
  unfold Faiss.get_unread_emails.
  respects_auto ltac:(frame_wire ltac:(reflexivity)).
Qed.

(** One iteration of the loop, case by case. *)
Lemma unread_loop_known (srv : Imap.server) (email_id : string)
    (rest : list string) (emails : list email_data) (w : Faiss.W) :
  email_id ∈ faiss_processed w ->
  Faiss.unread_loop srv (email_id :: rest) emails w
    = Faiss.unread_loop srv rest emails w.
Proof.
  intros Hin. cbn [Faiss.unread_loop].
  unfold mbind at 1, M_bind, bind, get_self.
  destruct (decide (email_id ∈ Faiss.processed_emails (self w)));
    [reflexivity | contradiction].
Qed.

Lemma unread_loop_unknown (srv : Imap.server) (email_id : string)
    (rest : list string) (emails : list email_data) (w : Faiss.W) :
  email_id ∉ faiss_processed w ->
  Faiss.unread_loop srv (email_id :: rest) emails w =
    match Imap.fetch srv email_id with
    | Returns (Imap.OK, Returns m) =>
        Faiss.unread_loop srv rest (emails ++ [email_of email_id m])
          (faiss_after_admit email_id m w)
    | Returns (Imap.OK, Raises e) => (faiss_after_fetch email_id w, Raises e)
    | Returns (Imap.OK, Blocked) => (faiss_after_fetch email_id w, Blocked)
    | Returns (Imap.NO, _) =>
        Faiss.unread_loop srv rest emails (faiss_after_fetch email_id w)
    | Raises e => (faiss_after_fetch email_id w, Raises e)
    | Blocked => (faiss_after_fetch email_id w, Blocked)
    end.
Proof.
  intros Hout. cbn [Faiss.unread_loop].
  unfold mbind at 1, M_bind, bind, get_self.
  destruct (decide (email_id ∈ Faiss.processed_emails (self w)));
    [contradiction|].
  unfold mail_fetch, send, call, modify, mbind, M_bind, bind. cbn.
  destruct (Imap.fetch srv email_id) as [[[|] [m|e|]]|e|]; reflexivity.
Qed.

Global Instance same_address_preorder : PreOrder same_address.
Proof.
  split; [intros w; reflexivity|].
  intros a b c H1 H2. unfold same_address in *. congruence.
Qed.

Ltac frame_address := unfold same_address, faiss_address; cbn; reflexivity.

Lemma unread_loop_same_address (srv : Imap.server)
    (email_ids : list string) :
  forall emails, respects same_address
                   (Faiss.unread_loop srv email_ids emails).
Proof.
  induction email_ids as [|email_id rest IH]; intros emails;
    cbn [Faiss.unread_loop].
  - apply respects_ret; apply _.
  - unfold Faiss.mark_processed. respects_auto frame_address.
Qed.

Lemma get_unread_emails_same_address (srv : Imap.server) :
  respects same_address (Faiss.get_unread_emails srv).
Proof.
  pose proof (unread_loop_same_address srv) as Hloop.
  unfold Faiss.get_unread_emails. respects_auto frame_address.
Qed.

Lemma drafted_in_quiet (address : string) (tr : list Imap.op) :
  Forall not_append tr -> drafted_in address tr [].
Proof.
  intros Hq. exists []. split; [reflexivity|].
  assert (Hnone : List.filter is_append tr = []).
  { induction Hq as [|o t Ho _ IH]; [reflexivity|].
    cbn. rewrite Ho. exact IH. }
  rewrite Hnone. constructor.
Qed.

Lemma drafted_in_app (address : string) (t1 t2 : list Imap.op)
    (l1 l2 : list email_data) :
  drafted_in address t1 l1 -> drafted_in address t2 l2 ->
  drafted_in address (t1 ++ t2) (l1 ++ l2).
Proof.
  intros (d1 & Hs1 & Hf1) (d2 & Hs2 & Hf2). exists (d1 ++ d2)%list.
  split; [by apply sublist_app|].
  unfold faiss_drafts. rewrite List.filter_app. by apply Forall2_app.
Qed.

Lemma drafted_in_more (address : string) (tr : list Imap.op)
    (l1 l2 : list email_data) :
  drafted_in address tr l1 -> drafted_in address tr (l1 ++ l2).
Proof.
  intros (d & Hs & Hf). exists d. split; [|exact Hf].
  by apply sublist_inserts_r.
Qed.

Lemma drafted_in_count (address : string) (tr : list Imap.op)
    (l : list email_data) :
  drafted_in address tr l -> appends tr <= List.length l.
Proof.
  intros (d & Hs & Hf). unfold appends.
  apply Forall2_length in Hf. apply sublist_length in Hs. lia.
Qed.

Lemma faiss_fresh_nil (w w' : Faiss.W) : faiss_fresh w w' [].
Proof. split; [constructor | intros e H; inversion H]. Qed.

Lemma unread_loop_spec (srv : Imap.server) (email_ids : list string) :
  forall (emails : list email_data) (w : Faiss.W),
    let r := Faiss.unread_loop srv email_ids emails w in
    faiss_processed w ⊆ faiss_processed r.1 /\
    forall out, r.2 = Returns out ->
      exists new, out = (emails ++ new)%list /\ faiss_fresh w r.1 new.
Proof.
  induction email_ids as [|email_id rest IH]; intros emails w.
  - cbn. split; [reflexivity|]. intros out [= <-]. exists [].
    split; [by rewrite app_nil_r | apply faiss_fresh_nil].
  - destruct (decide (email_id ∈ faiss_processed w)) as [Hin|Hout].
    + rewrite unread_loop_known by exact Hin. apply IH.
    + rewrite unread_loop_unknown by exact Hout.
      assert (Hf : faiss_processed (faiss_after_fetch email_id w)
                   = faiss_processed w) by reflexivity.
      destruct (Imap.fetch srv email_id) as [[[|] [m|e|]]|e|]; cbn zeta.
      * specialize (IH (emails ++ [email_of email_id m])%list
                       (faiss_after_admit email_id m w)).
        cbn zeta in IH. destruct IH as [Hg Hr].
        set (r := Faiss.unread_loop srv rest _ _) in *.
        assert (Ha : faiss_processed (faiss_after_admit email_id m w)
                     = faiss_processed w ∪ {[email_id]}) by reflexivity.
        rewrite Ha in Hg.
        split; [intros x Hx; apply Hg, elem_of_union_l, Hx|].
        intros out Hout'. destruct (Hr out Hout') as (new & -> & Hnd & Hnew).
        exists (email_of email_id m :: new). split.
        { by rewrite <- app_assoc. }
        split.
        { rewrite fmap_cons. apply NoDup_cons. split; [|exact Hnd].
          intros Hmem.
          apply list_elem_of_fmap in Hmem as (e & Heq & He).
          pose proof (Hnew e He) as [Hnot _]. apply Hnot.
          rewrite Ha, <- Heq. apply elem_of_union_r, elem_of_singleton.
          reflexivity. }
        { intros e He. apply elem_of_cons in He as [->|He].
          - split; [exact Hout|]. apply Hg, elem_of_union_r, elem_of_singleton.
            reflexivity.
          - pose proof (Hnew e He) as [Hnot Hyes]. split; [|exact Hyes].
            rewrite Ha in Hnot. intros Hw. apply Hnot, elem_of_union_l, Hw. }
      * split; [cbn; rewrite Hf; reflexivity | intros out [=]].
      * split; [cbn; rewrite Hf; reflexivity | intros out [=]].
      * specialize (IH emails (faiss_after_fetch email_id w)). cbn zeta in IH.
        exact IH.
      * specialize (IH emails (faiss_after_fetch email_id w)). cbn zeta in IH.
        exact IH.
      * specialize (IH emails (faiss_after_fetch email_id w)). cbn zeta in IH.
        exact IH.
      * split; [cbn; rewrite Hf; reflexivity | intros out [=]].
      * split; [cbn; rewrite Hf; reflexivity | intros out [=]].
Qed.

Lemma get_unread_emails_spec (srv : Imap.server) (w : Faiss.W) :
  let r := Faiss.get_unread_emails srv w in
  faiss_processed w ⊆ faiss_processed r.1 /\
  forall out, r.2 = Returns out -> faiss_fresh w r.1 out.
Proof.
  assert (Hdone : forall (w' : Faiss.W) (o : outcome (list email_data)),
             faiss_processed w ⊆ faiss_processed w' ->
             (o = Returns [] \/ forall out, o <> Returns out) ->
             faiss_processed w ⊆ faiss_processed (w', o).1 /\
             forall out, (w', o).2 = Returns out ->
                         faiss_fresh w (w', o).1 out).
  { intros w' o Hsub Ho. split; [exact Hsub|]. intros out Hr. cbn in *.
    destruct Ho as [->|Ho]; [|destruct (Ho out Hr)].
    injection Hr as <-. apply faiss_fresh_nil. }
  cbv zeta. unfold Faiss.get_unread_emails. unfold_prims. run_monad.
  destruct (Imap.connect srv) as [[]|?|]; cbn;
    [|apply Hdone; [reflexivity | left; reflexivity]
     |apply Hdone; [reflexivity | right; discriminate]].
  destruct (Imap.login srv) as [[]|?|]; cbn;
    [|apply Hdone; [reflexivity | left; reflexivity]
     |apply Hdone; [reflexivity | right; discriminate]].
  destruct (Imap.select srv "INBOX") as [?|?|]; cbn;
    [|apply Hdone; [reflexivity | left; reflexivity]
     |apply Hdone; [reflexivity | right; discriminate]].
  destruct (Imap.search srv) as [[[|] email_ids]|?|]; cbn;
    [|apply Hdone; [reflexivity | left; reflexivity]
     |apply Hdone; [reflexivity | left; reflexivity]
     |apply Hdone; [reflexivity | right; discriminate]].
  match goal with
  | |- context [Faiss.unread_loop srv email_ids [] ?w3] =>
      pose proof (unread_loop_spec srv email_ids [] w3) as [Hg Hr];
      change (faiss_processed w3) with (faiss_processed w) in Hg;
      assert (Hfresh : forall out,
                 (Faiss.unread_loop srv email_ids [] w3).2 = Returns out ->
                 faiss_fresh w (Faiss.unread_loop srv email_ids [] w3).1 out)
        by (intros out Ho; destruct (Hr out Ho) as (new & -> & Hn); exact Hn);
      clear Hr;
      destruct (Faiss.unread_loop srv email_ids [] w3) as [w4 [emails|?|]]
  end; cbn [fst snd] in *;
    [|apply Hdone; [exact Hg | left; reflexivity]
     |apply Hdone; [exact Hg | right; discriminate]].
  specialize (Hfresh emails eq_refl).
  destruct (Imap.close srv) as [[]|?|]; cbn;
    [|apply Hdone; [exact Hg | left; reflexivity]
     |apply Hdone; [exact Hg | right; discriminate]].
  destruct (Imap.logout srv) as [[]|?|]; cbn;
    [|apply Hdone; [exact Hg | left; reflexivity]
     |apply Hdone; [exact Hg | right; discriminate]].
  split; [exact Hg|]. intros out [= <-]. exact Hfresh.
Qed.

Lemma faiss_fresh_app (w w' w'' : Faiss.W) (l1 l2 : list email_data) :
  faiss_processed w ⊆ faiss_processed w' ->
  faiss_processed w' ⊆ faiss_processed w'' ->
  faiss_fresh w w' l1 -> faiss_fresh w' w'' l2 ->
  faiss_fresh w w'' (l1 ++ l2).
Proof.
  intros H1 H2 [Hn1 Hf1] [Hn2 Hf2]. split.
  - rewrite fmap_app. apply NoDup_app. split; [exact Hn1|].
    split; [|exact Hn2].
    intros x Hx1 Hx2.
    apply list_elem_of_fmap in Hx1 as (e1 & -> & He1).
    apply list_elem_of_fmap in Hx2 as (e2 & Heq & He2).
    pose proof (Hf1 e1 He1) as [_ Hin]. pose proof (Hf2 e2 He2) as [Hout _].
    apply Hout. rewrite <- Heq. exact Hin.
  - intros e He. apply elem_of_app in He as [He|He].
    + pose proof (Hf1 e He) as [Ha Hb]. split; [exact Ha | apply H2, Hb].
    + pose proof (Hf2 e He) as [Ha Hb]. split; [|exact Hb].
      intros Hw. apply Ha, H1, Hw.
Qed.

(** One call of [save_reply_as_draft] of zoho_faiss.py sends at most one
    APPEND, and that one stores the reply built from its arguments. *)
Lemma faiss_draft_one_draft (srv : Imap.server) (e : email_data)
    (reply_body : string) (w : Faiss.W) :
  let r := Faiss.save_reply_as_draft srv e reply_body w in
  exists t, wire r.1 = (wire w ++ t)%list /\ appends t <= 1 /\
            Forall (stores (build_reply (Faiss.email_address (self w)) e
                              reply_body)) t.
Proof.
  cbv zeta. unfold Faiss.save_reply_as_draft, stores. unfold_prims. run_monad.
  repeat match goal with
         | |- context [match ?o with Returns _ => _ | _ => _ end] =>
             destruct o; cbn
         end;
    one_draft.
Qed.

Lemma process_one_one_draft (encode : string -> list Q)
    (srv : Imap.server) (e : email_data) (w : Faiss.W) :
  let r := Faiss.process_one encode srv e w in
  self r.1 = self w /\
  exists tr template,
    template ∈ Faiss.EMAIL_TEMPLATES /\
    wire r.1 = (wire w ++ tr)%list /\ appends tr <= 1 /\
    Forall (stores (build_reply (Faiss.email_address (self w)) e
                      (template ++ reply_footer e))) tr.
Proof.
  cbv zeta. unfold Faiss.process_one, mbind, M_bind, bind, log, modify.
  cbn [fst snd].
  set (w0 := mkWorld (self w) (sessions w) (wire w)
               (logs w ++ [(INFO, "Processing email from " ++ sender e)])
               (slept w) (encoded w)).
  destruct (faiss_reply_frame encode e w0)
    as (template & Hin & Hr & Hw & Hs & _).
  destruct (Faiss.create_standard_reply encode e w0) as [w1 o].
  cbn [fst snd] in *. subst o.
  destruct (faiss_draft_one_draft srv e (template ++ reply_footer e) w1)
    as (t & Ht & Hone & Hall).
  destruct (faiss_draft_io_only srv e (template ++ reply_footer e) w1)
    as (Hself & _).
  rewrite Hs in Hall. change (self w0) with (self w) in Hall, Hs.
  rewrite Hw in Ht. change (wire w0) with (wire w) in Ht.
  destruct (Faiss.save_reply_as_draft srv e (template ++ reply_footer e) w1)
    as [w2 [[|]|ex|]]; cbn [fst snd wire self] in *;
    (split; [rewrite Hself, Hs; reflexivity|]);
    exists t, template; auto.
Qed.

(** The APPENDs that handling one message sends are drafts for it. *)
Lemma process_one_drafts (encode : string -> list Q) (srv : Imap.server)
    (e : email_data) (w : Faiss.W) :
  let r := Faiss.process_one encode srv e w in
  self r.1 = self w /\
  exists tr, wire r.1 = (wire w ++ tr)%list /\
             drafted_in (faiss_address w) tr [e].
Proof.
  cbv zeta.
  destruct (process_one_one_draft encode srv e w)
    as (Hs & tr & template & Hin & Hw & Hone & Hall).
  split; [exact Hs|]. exists tr. split; [exact Hw|].
  unfold appends in Hone.
  assert (Hf : forall o, In o (List.filter is_append tr) ->
                         o = Imap.Append "Drafts" "\Draft"
                               (build_reply (faiss_address w) e
                                  (template ++ reply_footer e))).
  { intros o Ho. apply List.filter_In in Ho as [Ho Ha].
    rewrite List.Forall_forall in Hall. exact (Hall o Ho Ha). }
  unfold drafted_in, faiss_drafts.
  destruct (List.filter is_append tr) as [|o [|o' f]].
  - exists []. split; [apply sublist_nil_l | constructor].
  - exists [e]. split; [reflexivity|].
    constructor; [|constructor]. exists template.
    split; [exact Hin | apply Hf; left; reflexivity].
  - cbn in Hone. lia.
Qed.

Lemma process_loop_drafts (encode : string -> list Q) (srv : Imap.server)
    (emails : list email_data) :
  forall w : Faiss.W,
    let r := for_each emails (Faiss.process_one encode srv) w in
    self r.1 = self w /\
    exists tr, wire r.1 = (wire w ++ tr)%list /\
               drafted_in (faiss_address w) tr emails.
Proof.
  induction emails as [|e emails IH]; intros w; cbv zeta.
  - cbn. split; [reflexivity|]. exists [].
    split; [by rewrite app_nil_r | apply drafted_in_quiet; constructor].
  - cbn [for_each]. unfold bind.
    destruct (process_one_drafts encode srv e w) as (Hs & tr & Hw & Hd).
    destruct (Faiss.process_one encode srv e w) as [w1 [[]|ex|]];
      cbn [fst snd] in *.
    + destruct (IH w1) as (Hs' & tr' & Hw' & Hd').
      split; [congruence|]. exists (tr ++ tr')%list.
      split; [by rewrite Hw', Hw, app_assoc|].
      unfold faiss_address in *. rewrite Hs in Hd'.
      apply (drafted_in_app _ tr tr' [e] emails Hd Hd').
    + split; [exact Hs|]. exists tr. split; [exact Hw|].
      apply (drafted_in_more _ tr [e] emails Hd).
    + split; [exact Hs|]. exists tr. split; [exact Hw|].
      apply (drafted_in_more _ tr [e] emails Hd).
Qed.

(** What one iteration of [run_continuous] handles, sends and records. *)
Lemma run_continuous_body_batch (encode : string -> list Q)
    (check_interval : Q) (srv : Imap.server) (fault : outcome unit)
    (w : Faiss.W) :
  let batch :=
    match (Faiss.get_unread_emails srv
             (log INFO "Checking for new emails..." w).1).2 with
    | Returns emails => emails
    | _ => []
    end in
  let r := Faiss.run_continuous_body encode check_interval srv fault w in
  faiss_address r.1 = faiss_address w /\
  faiss_processed w ⊆ faiss_processed r.1 /\
  faiss_fresh w r.1 batch /\
  exists tr, wire r.1 = (wire w ++ tr)%list /\
             drafted_in (faiss_address w) tr batch.
Proof.
  cbv zeta.
  assert (Hbody :
            self (Faiss.run_continuous_body encode check_interval srv
                    fault w).1
            = self (Faiss.process_emails encode srv w).1 /\
            wire (Faiss.run_continuous_body encode check_interval srv
                    fault w).1
            = wire (Faiss.process_emails encode srv w).1).
  { unfold Faiss.run_continuous_body, try_except, mbind, M_bind, bind.
    destruct (Faiss.process_emails encode srv w) as [w1 [[]|ex|]];
      cbn [fst snd]; [|split; reflexivity..].
    unfold log, sleep, modify, call. cbn.
    destruct fault as [[]|ex|]; cbn; split; reflexivity. }
  destruct Hbody as [Hself Hw].
  unfold faiss_fresh, faiss_processed, faiss_address.
  rewrite Hw, Hself. clear Hw Hself.
  fold faiss_processed. fold (faiss_address w).
  rewrite process_emails_unfold.
  set (w0 := (log INFO "Checking for new emails..." w).1).
  assert (Hw0 : wire w0 = wire w) by reflexivity.
  assert (Hp0 : faiss_processed w0 = faiss_processed w) by reflexivity.
  assert (Ha0 : faiss_address w0 = faiss_address w) by reflexivity.
  destruct (get_unread_emails_spec srv w0) as [Hg Hr].
  destruct (get_unread_emails_sends_no_append srv w0) as (t & Ht & Hnone).
  pose proof (get_unread_emails_same_address srv w0) as Ha.
  unfold same_address in Ha. rewrite Ha0 in Ha.
  rewrite Hp0 in Hg. rewrite Hw0 in Ht.
  destruct (Faiss.get_unread_emails srv w0) as [w1 [emails|ex|]];
    cbn [fst snd] in *.
  - specialize (Hr emails eq_refl). destruct Hr as [Hnd Hfresh].
    rewrite Hp0 in Hfresh.
    destruct emails as [|e emails]; cbn [truthy_list negb].
    + cbn. split; [exact Ha|]. split; [exact Hg|].
      split; [split; assumption|].
      exists t. split; [exact Ht | apply drafted_in_quiet, Hnone].
    + destruct (process_loop_drafts encode srv (e :: emails) w1)
        as (Hs & tr & Hw & Hd).
      unfold faiss_processed, faiss_address in *. rewrite Hs.
      split; [exact Ha|]. split; [exact Hg|].
      split; [split; assumption|].
      exists (t ++ tr)%list. split; [by rewrite Hw, Ht, app_assoc|].
      rewrite Ha in Hd.
      apply (drafted_in_app _ t tr [] (e :: emails)); [|exact Hd].
      apply drafted_in_quiet, Hnone.
  - split; [exact Ha|]. split; [exact Hg|].
    split; [apply faiss_fresh_nil|].
    exists t. split; [exact Ht | apply drafted_in_quiet, Hnone].
  - split; [exact Ha|]. split; [exact Hg|].
    split; [apply faiss_fresh_nil|].
    exists t. split; [exact Ht | apply drafted_in_quiet, Hnone].
Qed.

Lemma run_continuous_loop_handled (encode : string -> list Q)
    (check_interval : Q) (cycles : list (Imap.server * outcome unit)) :
  forall w : Faiss.W,
    let r := Faiss.run_continuous_loop encode check_interval cycles w in
    let handled := faiss_handled encode check_interval cycles w in
    faiss_processed w ⊆ faiss_processed r.1 /\
    faiss_fresh w r.1 handled /\
    exists tr, wire r.1 = (wire w ++ tr)%list /\
               drafted_in (faiss_address w) tr handled.
Proof.
  induction cycles as [|[srv fault] cycles IH]; intros w; cbv zeta.
  - cbn. split; [reflexivity|]. split; [apply faiss_fresh_nil|].
    exists []. split; [by rewrite app_nil_r|].
    apply drafted_in_quiet. constructor.
  - cbn [Faiss.run_continuous_loop faiss_handled]. unfold mbind, M_bind, bind.
    pose proof (run_continuous_body_batch encode check_interval srv fault w)
      as Hb. cbv zeta in Hb. destruct Hb as (Ha & Hg & Hfresh & tr & Hw & Hd).
    set (batch := match (Faiss.get_unread_emails srv
                           (log INFO "Checking for new emails..." w).1).2 with
                  | Returns emails => emails
                  | _ => []
                  end) in *.
    destruct (Faiss.run_continuous_body encode check_interval srv fault w)
      as [w1 [[]|ex|]]; cbn [fst snd] in *.
    + destruct (IH w1) as (Hg' & Hfresh' & tr' & Hw' & Hd').
      split; [etransitivity; eassumption|].
      split; [eapply faiss_fresh_app; eassumption|].
      exists (tr ++ tr')%list. split; [by rewrite Hw', Hw, app_assoc|].
      rewrite Ha in Hd'. by apply drafted_in_app.
    + split; [exact Hg|]. split; [exact Hfresh|]. by exists tr.
    + split; [exact Hg|]. split; [exact Hfresh|]. by exists tr.
Qed.

(** X17: in zoho_faiss.py no ref gets two drafts. Handling one message
    sends at most one APPEND, which stores the reply built for that
    message from one of the templates. Over any number of iterations of
    [run_continuous] and whatever the servers answer, the messages handed
    over by [get_unread_emails] have pairwise distinct refs, none of them
    recorded before and all of them recorded afterwards; and the APPENDs
    sent are, in order, drafts for some of these messages, one for each
    at most, so that their number is at most the number of the messages. *)
Theorem faiss_each_ref_is_drafted_at_most_once
    (encode : string -> list Q) :
  (forall (srv : Imap.server) (e : email_data) (w : Faiss.W),
     let r := Faiss.process_one encode srv e w in
     exists tr template,
       template ∈ Faiss.EMAIL_TEMPLATES /\
       wire r.1 = (wire w ++ tr)%list /\ appends tr <= 1 /\
       Forall (fun o =>
                 is_append o = true ->
                 o = Imap.Append "Drafts" "\Draft"
                       (build_reply (Faiss.email_address (self w)) e
                          (template ++ reply_footer e))) tr) /\
  (forall (check_interval : Q) (cycles : list (Imap.server * outcome unit))
          (w : Faiss.W),
     let r := Faiss.run_continuous_loop encode check_interval cycles w in
     let handled := faiss_handled encode check_interval cycles w in
     NoDup (id <$> handled) /\
     (forall e, e ∈ handled ->
                (id e ∉ faiss_processed w) /\ (id e ∈ faiss_processed r.1)) /\
     exists tr drafted,
       wire r.1 = (wire w ++ tr)%list /\
       drafted `sublist_of` handled /\
       Forall2 (fun o e =>
                  exists template,
                    template ∈ Faiss.EMAIL_TEMPLATES /\
                    o = Imap.Append "Drafts" "\Draft"
                          (build_reply (Faiss.email_address (self w)) e
                             (template ++ reply_footer e)))
               (List.filter is_append tr) drafted /\
       appends tr <= List.length handled).
Proof.
  split.
  - intros srv e w. apply (process_one_one_draft encode srv e w).
  - intros check_interval cycles w.
    destruct (run_continuous_loop_handled encode check_interval cycles w)
      as (_ & [Hnd Hfresh] & tr & Hw & Hd).
    split; [exact Hnd|]. split; [exact Hfresh|].
    pose proof (drafted_in_count _ _ _ Hd) as Hcount.
    destruct Hd as (drafted & Hsub & Hf).
    exists tr, drafted. auto.
Qed.

(** ** How fast the poller speeds up *)

Lemma pow2_succ (n : nat) :
  (inject_Z (2 ^ Z.of_nat (S n)) == 2 * inject_Z (2 ^ Z.of_nat n))%Q.
Proof.
  rewrite Nat2Z.inj_succ, Z.pow_succ_r by lia.
  rewrite inject_Z_mult. reflexivity.
Qed.

Lemma pow2_ge_1 (n : nat) : (1 <= inject_Z (2 ^ Z.of_nat n))%Q.
Proof.
  change 1%Q with (inject_Z 1). rewrite <- Zle_Qle.
  pose proof (Z.pow_pos_nonneg 2 (Z.of_nat n)). lia.
Qed.

Lemma busy_adjustment (now : Q) (found : list email_data)
    (p : SmartPolling.processor) (bound : Q) :
  found <> [] ->
  (0 <= SmartPolling.min_interval p)%Q ->
  (SmartPolling.min_interval p <= SmartPolling.current_interval p)%Q ->
  (SmartPolling.current_interval p <= 2 * bound)%Q ->
  (SmartPolling.min_interval p <= bound)%Q ->
  let p' := SmartPolling.adjust_polling_interval now found p in
  SmartPolling.min_interval p' = SmartPolling.min_interval p /\
  (SmartPolling.min_interval p <= SmartPolling.current_interval p')%Q /\
  (SmartPolling.current_interval p' <= bound)%Q.
Proof.
  intros Hne Hpos Hlo Hhi Hb. cbv zeta.
  unfold SmartPolling.adjust_polling_interval.
  destruct found as [|e found]; [contradiction|]. cbn.
  split; [reflexivity|].
  apply py_max_bounds; [exact Hb | lra].
Qed.

(** X18: under sustained traffic the interval drops to the minimum: when
    every poll of a run finds mail, and the interval was at most
    [min_interval] times 2 to the number of polls, the interval after the
    run is [min_interval]. From the initial 60 seconds three busy polls
    are enough to reach 10 seconds. *)
Theorem busy_polls_reach_the_minimum_interval
    (polls : list (Q * list email_data)) (p : SmartPolling.processor) :
  Forall (fun c => c.2 <> []) polls ->
  (0 <= SmartPolling.min_interval p)%Q ->
  (SmartPolling.min_interval p <= SmartPolling.current_interval p)%Q ->
  (SmartPolling.current_interval p
   <= SmartPolling.min_interval p
      * inject_Z (2 ^ Z.of_nat (List.length polls)))%Q ->
  (SmartPolling.current_interval (adjustments polls p)
   == SmartPolling.min_interval p)%Q /\
  SmartPolling.min_interval (adjustments polls p)
  = SmartPolling.min_interval p.
Proof.
  intros Hbusy. revert p.
  induction Hbusy as [|[now found] polls Hne _ IH]; intros p Hpos Hlo Hhi.
  - change (inject_Z (2 ^ Z.of_nat (List.length (@nil (Q * list email_data)))))
      with 1%Q in Hhi.
    split; [|reflexivity]. cbn [adjustments fold_left].
    apply Qle_antisym; [lra | exact Hlo].
  - cbn [List.length] in Hhi. rewrite pow2_succ in Hhi.
    pose proof (pow2_ge_1 (List.length polls)) as Hone.
    destruct (busy_adjustment now found p
                (SmartPolling.min_interval p
                 * inject_Z (2 ^ Z.of_nat (List.length polls)))%Q)
      as (Hmin & Hlo' & Hhi'); [exact Hne | exact Hpos | exact Hlo | lra | |].
    { nra. }
    cbn [adjustments fold_left fst snd].
    change (fold_left _ polls ?q) with (adjustments polls q).
    destruct (IH (SmartPolling.adjust_polling_interval now found p))
      as [Hcur Hmin'].
    + rewrite Hmin. exact Hpos.
    + rewrite Hmin. exact Hlo'.
    + rewrite Hmin. exact Hhi'.
    + rewrite Hmin in Hcur, Hmin'. split; assumption.
Qed.

Lemma busy_polls_reach_the_minimum_interval_witness :
  let m := [mkEmail "1" "s" "a@b.com" "b" ""] in
  (SmartPolling.current_interval
     (adjustments [(5%Q, m); (70%Q, m); (100%Q, m)]
        (SmartPolling.init "support@example.com" 0%Q)) == 10)%Q.
Proof.
  cbv zeta.
  apply (busy_polls_reach_the_minimum_interval
           [(5%Q, [mkEmail "1" "s" "a@b.com" "b" ""]);
            (70%Q, [mkEmail "1" "s" "a@b.com" "b" ""]);
            (100%Q, [mkEmail "1" "s" "a@b.com" "b" ""])]
           (SmartPolling.init "support@example.com" 0%Q)).
  - repeat apply Forall_cons_2; [| | |apply Forall_nil_2]; discriminate.
  - vm_compute. discriminate.
  - vm_compute. discriminate.
  - vm_compute. discriminate.
Defined.

